(** * local-cover-image: a deterministic cover-image generator

    Shallow embedding of [scripts/lib/local-cover-image.py].  The script
    derives a seed from a slug, picks a palette with a seeded generator and
    renders gradient, shapes, grain and vignette through an imaging library.

    Python integers are [Z]; Python floats are IEEE-754 binary64 values,
    taken from the Standard Library's executable specification
    ([SpecFloat], precision 53, emax 1024); exceptions are explicit.
    Library code the script calls ([hashlib], [random], Pillow) is either
    modelled here from its documented behaviour or kept abstract behind a
    type class whose laws state what the proofs rely on. *)

From Stdlib Require Import ZArith Lia List Bool.
From Stdlib Require Import Floats.SpecFloat Strings.String Strings.Ascii.
From stdpp Require Import base list gmap.

Open Scope Z_scope.

(** ** Exceptions and results *)

Inductive exn : Set :=
  | ZeroDivisionError
  | OverflowError
  | ValueError
  | IndexError
  | UnicodeEncodeError.

(** [NoFuel] is not a Python outcome: it marks that the bound given to the
    model of an unbounded [while] loop was reached. *)
Inductive res (A : Type) : Type :=
  | Ok (a : A)
  | Raise (e : exn)
  | NoFuel.
Arguments Ok {A} a.
Arguments Raise {A} e.
Arguments NoFuel {A}.

#[global] Instance res_ret : MRet res := λ A a, Ok a.
#[global] Instance res_bind : MBind res := λ A B k m,
  match m with
  | Ok a => k a
  | Raise e => Raise e
  | NoFuel => NoFuel
  end.
#[global] Instance res_fmap : FMap res := λ A B f m,
  match m with
  | Ok a => Ok (f a)
  | Raise e => Raise e
  | NoFuel => NoFuel
  end.

(** [for x in xs: acc = body(x, acc)] with a body that may raise. *)
Fixpoint for_each {A S : Type} (xs : list A) (body : A → S → res S) (s : S)
  : res S :=
  match xs with
  | [] => Ok s
  | x :: xs' => s' ← body x s; for_each xs' body s'
  end.

(** [range(n)] *)
Definition range (n : Z) : list Z := seqZ 0 n.

(** ** Python floats *)

Module PyFloat.

Definition prec : Z := 53.
Definition emax : Z := 1024.

Definition float := spec_float.

Definition fadd : float → float → float := SFadd prec emax.
Definition fsub : float → float → float := SFsub prec emax.
Definition fmul : float → float → float := SFmul prec emax.
Definition flt : float → float → bool := SFltb.

Definition zero : float := S754_zero false.
Definition one : float := S754_finite false 4503599627370496 (-52).

(** A rounded result that left the finite range is how CPython's integer
    conversions and divisions detect overflow. *)
Definition finite_or_overflow (f : float) : res float :=
  match f with
  | S754_infinity _ | S754_nan => Raise OverflowError
  | _ => Ok f
  end.

(** [float(n)] for an [int]: the nearest binary64, ties to even. *)
Definition of_int (n : Z) : res float :=
  finite_or_overflow (binary_normalize prec emax n 0 false).

(** [a / b] on two [int]s: the correctly rounded quotient. *)
Definition true_div (a b : Z) : res float :=
  if b =? 0 then Raise ZeroDivisionError
  else if a =? 0 then Ok (S754_zero (b <? 0))
  else
    let '(q, e, l) := SFdiv_core_binary prec emax (Z.abs a) 0 (Z.abs b) 0 in
    finite_or_overflow
      (binary_round_aux prec emax (xorb (a <? 0) (b <? 0)) q e l).

(** [round(x)] with one argument: nearest integer, ties to even. *)
Definition round (x : float) : res Z :=
  match x with
  | S754_zero _ => Ok 0
  | S754_infinity _ => Raise OverflowError
  | S754_nan => Raise ValueError
  | S754_finite s m e =>
      let n :=
        if 0 <=? e then Z.pos m * 2 ^ e
        else
          let d := 2 ^ (- e) in
          let q := Z.pos m / d in
          let r := Z.pos m mod d in
          match 2 * r ?= d with
          | Lt => q
          | Gt => q + 1
          | Eq => if Z.even q then q else q + 1
          end in
      Ok (if s then - n else n)
  end.

(** [int(x)]: truncation towards zero. *)
Definition trunc (x : float) : res Z :=
  match x with
  | S754_zero _ => Ok 0
  | S754_infinity _ => Raise OverflowError
  | S754_nan => Raise ValueError
  | S754_finite s m e =>
      let n := if 0 <=? e then Z.pos m * 2 ^ e else Z.pos m / 2 ^ (- e) in
      Ok (if s then - n else n)
  end.

(** A decimal literal [n/d] denotes the nearest binary64. *)
Definition literal (n d : Z) : float :=
  match true_div n d with
  | Ok f => f
  | _ => S754_nan
  end.

(** [between f lo hi k]: [f] is a non-negative finite float whose value lies
    in [[lo * 2^k, hi * 2^k]] and whose exponent is at most [k], so that
    both bounds are multiples of its unit in the last place. *)
Definition between (f : float) (lo hi k : Z) : Prop :=
  match f with
  | S754_zero _ => lo ≤ 0 ≤ hi
  | S754_finite false m e =>
      e ≤ k ∧ lo * 2 ^ (k - e) ≤ Z.pos m ≤ hi * 2 ^ (k - e)
  | _ => False
  end.

End PyFloat.

Import PyFloat.

(** ** Python numbers: [int] and [float] under the usual coercions *)

Inductive num : Type :=
  | I (n : Z)
  | F (x : float).

Definition to_float (a : num) : res float :=
  match a with
  | I n => of_int n
  | F x => Ok x
  end.

Definition num_arith (fi : Z → Z → Z) (ff : float → float → float)
    (a b : num) : res num :=
  match a, b with
  | I m, I n => Ok (I (fi m n))
  | _, _ => x ← to_float a; y ← to_float b; Ok (F (ff x y))
  end.

Definition num_add : num → num → res num := num_arith Z.add fadd.
Definition num_sub : num → num → res num := num_arith Z.sub fsub.
Definition num_mul : num → num → res num := num_arith Z.mul fmul.

(** Strings are sequences of code points, byte strings sequences of
    integers below 256. *)
Definition str := list Z.
Definition bytes := list Z.

(** [s.encode("utf-8")], strict error handling. *)
Definition utf8_encode_char (c : Z) : res bytes :=
  if (c <? 0) || (1114111 <? c) then Raise ValueError
  else if c <? 128 then Ok [c]
  else if c <? 2048 then Ok [192 + c / 64; 128 + c mod 64]
  else if (55296 <=? c) && (c <=? 57343) then Raise UnicodeEncodeError
  else if c <? 65536 then
    Ok [224 + c / 4096; 128 + (c / 64) mod 64; 128 + c mod 64]
  else
    Ok [240 + c / 262144; 128 + (c / 4096) mod 64;
        128 + (c / 64) mod 64; 128 + c mod 64].

Fixpoint utf8_encode (s : str) : res bytes :=
  match s with
  | [] => Ok []
  | c :: s' => b ← utf8_encode_char c; bs ← utf8_encode s'; Ok (b ++ bs)
  end.

(** ** hashlib.md5 (RFC 1321) *)

Module MD5.

Definition mask32 : Z := 4294967295.
Definition add32 (a b : Z) : Z := Z.land (a + b) mask32.
Definition not32 (a : Z) : Z := Z.lxor a mask32.
Definition rotl32 (x n : Z) : Z :=
  Z.land (Z.lor (Z.shiftl x n) (Z.shiftr x (32 - n))) mask32.

Definition K : list Z :=
  [3614090360; 3905402710; 606105819; 3250441966; 4118548399; 1200080426;
   2821735955; 4249261313; 1770035416; 2336552879; 4294925233; 2304563134;
   1804603682; 4254626195; 2792965006; 1236535329; 4129170786; 3225465664;
   643717713; 3921069994; 3593408605; 38016083; 3634488961; 3889429448;
   568446438; 3275163606; 4107603335; 1163531501; 2850285829; 4243563512;
   1735328473; 2368359562; 4294588738; 2272392833; 1839030562; 4259657740;
   2763975236; 1272893353; 4139469664; 3200236656; 681279174; 3936430074;
   3572445317; 76029189; 3654602809; 3873151461; 530742520; 3299628645;
   4096336452; 1126891415; 2878612391; 4237533241; 1700485571; 2399980690;
   4293915773; 2240044497; 1873313359; 4264355552; 2734768916; 1309151649;
   4149444226; 3174756917; 718787259; 3951481745].

Definition S : list Z :=
  [7; 12; 17; 22; 7; 12; 17; 22; 7; 12; 17; 22; 7; 12; 17; 22;
   5; 9; 14; 20; 5; 9; 14; 20; 5; 9; 14; 20; 5; 9; 14; 20;
   4; 11; 16; 23; 4; 11; 16; 23; 4; 11; 16; 23; 4; 11; 16; 23;
   6; 10; 15; 21; 6; 10; 15; 21; 6; 10; 15; 21; 6; 10; 15; 21].

Definition state : Type := Z * Z * Z * Z.

Definition init : state := (1732584193, 4023233417, 2562383102, 271733878).

(** Little-endian bytes of a word and back. *)
Definition le_bytes (n : nat) (x : Z) : bytes :=
  map (λ i, Z.shiftr x (8 * Z.of_nat i) mod 256) (seq 0 n).
Definition le_word (bs : bytes) : Z :=
  foldr (λ b acc, b + 256 * acc) 0 bs.

Definition pad (msg : bytes) : bytes :=
  let len := Z.of_nat (length msg) in
  let zeros := Z.to_nat ((55 - len) mod 64) in
  msg ++ [128] ++ replicate zeros 0 ++ le_bytes 8 ((8 * len) mod 2 ^ 64).

Fixpoint chunks {A : Type} (fuel n : nat) (l : list A) : list (list A) :=
  match fuel, l with
  | O, _ | _, [] => []
  | Datatypes.S fuel', _ => take n l :: chunks fuel' n (drop n l)
  end.

Definition step (M : list Z) (i : Z) (st : state) : state :=
  let '(a, b, c, d) := st in
  let '(f, g) :=
    if i <? 16 then (Z.lor (Z.land b c) (Z.land (not32 b) d), i)
    else if i <? 32 then
      (Z.lor (Z.land d b) (Z.land (not32 d) c), (5 * i + 1) mod 16)
    else if i <? 48 then (Z.lxor (Z.lxor b c) d, (3 * i + 5) mod 16)
    else (Z.lxor c (Z.lor b (not32 d)), (7 * i) mod 16) in
  let f' := add32 (add32 (add32 f a) (nth (Z.to_nat i) K 0))
                  (nth (Z.to_nat g) M 0) in
  (d, add32 b (rotl32 f' (nth (Z.to_nat i) S 0)), b, c).

Definition process (st : state) (block : bytes) : state :=
  let M := map le_word (chunks 16 4 block) in
  let '(a, b, c, d) := st in
  let '(a', b', c', d') := foldl (λ s i, step M i s) st (seqZ 0 64) in
  (add32 a a', add32 b b', add32 c c', add32 d d').

(** [hashlib.md5(msg).digest()] *)
Definition digest (msg : bytes) : bytes :=
  let padded := pad msg in
  let '(a, b, c, d) :=
    foldl process init (chunks (length padded) 64 padded) in
  le_bytes 4 a ++ le_bytes 4 b ++ le_bytes 4 c ++ le_bytes 4 d.

Definition hex_char (n : Z) : Z := if n <? 10 then 48 + n else 87 + n.

(** [hashlib.md5(msg).hexdigest()] *)
Definition hexdigest (msg : bytes) : str :=
  flat_map (λ b, [hex_char (b / 16); hex_char (b mod 16)]) (digest msg).

End MD5.

(** [int(s, 16)] on a string of hexadecimal digits; anything else (the
    empty string included) is a [ValueError]. *)
Definition hex_value (c : Z) : option Z :=
  if (48 <=? c) && (c <=? 57) then Some (c - 48)
  else if (97 <=? c) && (c <=? 102) then Some (c - 87)
  else if (65 <=? c) && (c <=? 70) then Some (c - 55)
  else None.

Fixpoint int16_from (acc : Z) (s : str) : res Z :=
  match s with
  | [] => Ok acc
  | c :: s' =>
      match hex_value c with
      | Some d => int16_from (16 * acc + d) s'
      | None => Raise ValueError
      end
  end.

Definition int16 (s : str) : res Z :=
  match s with
  | [] => Raise ValueError
  | _ => int16_from 0 s
  end.

(** ** The script: seed derivation *)

(** [_seed_from_slug], lines 10-12. *)
Definition _seed_from_slug (slug : str) : res Z :=
  encoded ← utf8_encode slug;
  let digest := MD5.hexdigest encoded in
  int16 (take 8 digest).

Definition ascii_str (s : string) : str :=
  map (λ a, Z.of_N (N_of_ascii a)) (list_ascii_of_string s).

(** [round(x)] and [int(x)] on a number. *)
Definition py_round (a : num) : res Z :=
  match a with
  | I n => Ok n
  | F x => round x
  end.

Definition py_int (a : num) : res Z :=
  match a with
  | I n => Ok n
  | F x => trunc x
  end.

(** ** math: the platform's C library *)

Class Libm := {
  libm_pow : float → float → float;
  libm_hypot : float → float → float;
  (** squaring keeps the unit interval *)
  libm_pow_unit : ∀ t,
    between t 0 1 0 → between (libm_pow t (literal 2 1)) 0 1 0
}.

(** [x ** n] for a float [x] and an int [n]. *)
Definition py_pow {LM : Libm} (x : float) (n : Z) : res float :=
  y ← of_int n; finite_or_overflow (libm_pow x y).

(** ** random.Random

    [random()] and [_randbelow(n)] are the generator's primitives; the other
    methods are the ones of [random.py]. *)

Class Random (G : Type) := {
  (** [random.Random(seed)] *)
  Random_new : Z → G;
  (** [rng.random()]: a float in the unit interval *)
  rng_random : G → float * G;
  (** [rng._randbelow(n)] for [n > 0]: an int in [[0, n)] *)
  rng_randbelow : Z → G → Z * G;
  rng_random_unit : ∀ g, between (rng_random g).1 0 1 0;
  rng_randbelow_range : ∀ n g, 0 < n → 0 ≤ (rng_randbelow n g).1 < n
}.

Section RandomMethods.
Context {G : Type} {RG : Random G}.

(** [rng.uniform(a, b)]: [a + (b - a) * self.random()] *)
Definition uniform (a b : num) (rng : G) : res (num * G) :=
  let '(r, rng) := rng_random rng in
  d ← num_sub b a;
  p ← num_mul d (F r);
  u ← num_add a p;
  Ok (u, rng).

(** [rng.choice(seq)] *)
Definition choice {A : Type} (seq : list A) (rng : G) : res (A * G) :=
  let n := Z.of_nat (length seq) in
  if n =? 0 then Raise IndexError
  else
    let '(i, rng) := rng_randbelow n rng in
    match seq !! Z.to_nat i with
    | Some x => Ok (x, rng)
    | None => Raise IndexError
    end.

(** [rng.randint(a, b)], that is [randrange(a, b + 1)] *)
Definition randint (a b : Z) (rng : G) : res (Z * G) :=
  let width := b + 1 - a in
  if 0 <? width then
    let '(i, rng) := rng_randbelow width rng in Ok (a + i, rng)
  else Raise ValueError.

End RandomMethods.

(** ** Pillow: images *)

Record image (P : Type) : Type := Image {
  width : Z;
  height : Z;
  rows : list (list P)
}.
Arguments Image {P} width height rows.
Arguments width {P} i.
Arguments height {P} i.
Arguments rows {P} i.

(** Pixels of mode "L", "RGB" and "RGBA". *)
Definition rgb : Type := Z * Z * Z.
Definition rgba : Type := Z * Z * Z * Z.
Definition box : Type := num * num * num * num.

(** The raster really has [h] rows of [w] pixels. *)
Definition has_size {P : Type} (img : image P) (w h : Z) : Prop :=
  width img = w ∧ height img = h ∧
  length (rows img) = Z.to_nat h ∧
  Forall (λ row, length row = Z.to_nat w) (rows img).

Definition pixel {P : Type} (img : image P) (x y : Z) : option P :=
  if (0 <=? x) && (0 <=? y) then
    row ← rows img !! Z.to_nat y; row !! Z.to_nat x
  else None.

(** [img.size] *)
Definition size {P : Type} (img : image P) : Z * Z := (width img, height img).

Definition same_size {P Q : Type} (a : image P) (b : image Q) : bool :=
  (width a =? width b) && (height a =? height b).

(** [Image.new(mode, (w, h), color)] *)
Definition Image_new {P : Type} (wh : Z * Z) (color : P) : res (image P) :=
  let '(w, h) := wh in
  if (w <? 0) || (h <? 0) then Raise ValueError
  else Ok (Image w h (replicate (Z.to_nat h) (replicate (Z.to_nat w) color))).

Definition map_pixels {P Q : Type} (f : P → Q) (img : image P) : image Q :=
  Image (width img) (height img) (map (map f) (rows img)).

Definition zip_pixels {P Q R : Type} (f : P → Q → R)
    (a : image P) (b : image Q) : image R :=
  Image (width a) (height a) (zip_with (zip_with f) (rows a) (rows b)).

(** [img.convert("RGBA")] and [img.convert("RGB")] *)
Definition convert_RGBA (img : image rgb) : image rgba :=
  map_pixels (λ '(r, g, b), (r, g, b, 255)) img.
Definition convert_RGB (img : image rgba) : image rgb :=
  map_pixels (λ '(r, g, b, _), (r, g, b)) img.

(** [pixels[x, y] = v] on the access object of [img.load()] *)
Definition putpixel {P : Type} (img : image P) (x y : Z) (v : P)
  : res (image P) :=
  if (0 <=? x) && (x <? width img) && (0 <=? y) && (y <? height img) then
    Ok (Image (width img) (height img)
          (alter (λ row, <[Z.to_nat x := v]> row) (Z.to_nat y) (rows img)))
  else Raise IndexError.

(** Modelled from the spec: Pillow's [ImageDraw.line] is not part of the
    repository.  For the horizontal segment the gradient draws, "fill the
    entire row with the resulting color": the pixels [x0..x1] of row [y]
    that lie inside the image take the ink. *)
Definition ImageDraw_line_h {P : Type} (img : image P) (x0 y x1 : Z)
    (fill : P) : image P :=
  if (0 <=? y) && (y <? height img) then
    Image (width img) (height img)
      (alter
         (imap (λ i p,
            if (x0 <=? Z.of_nat i) && (Z.of_nat i <=? x1) then fill else p))
         (Z.to_nat y) (rows img))
  else img.

Fixpoint map_res {A B : Type} (f : A → res B) (l : list A) : res (list B) :=
  match l with
  | [] => Ok []
  | x :: l' => y ← f x; ys ← map_res f l'; Ok (y :: ys)
  end.

(** [img.point(f)] on a mode "L" image: [f] is tabulated on [range(256)]. *)
Definition Image_point (img : image Z) (f : Z → res Z) : res (image Z) :=
  lut ← map_res f (range 256);
  Ok (map_pixels (λ v, default 0 (lut !! Z.to_nat v)) img).

(** [Image.merge("RGB", (r, g, b))] *)
Definition Image_merge_RGB (r g b : image Z) : res (image rgb) :=
  if same_size r g && same_size r b then
    Ok (zip_pixels (λ '(x, y) z, (x, y, z)) (zip_pixels pair r g) b)
  else Raise ValueError.

(** Pillow's rounded division by 255 and its mask blend. *)
Definition div255 (a : Z) : Z :=
  let tmp := a + 128 in Z.shiftr (Z.shiftr tmp 8 + tmp) 8.
Definition mask_blend (mask below above : Z) : Z :=
  div255 (below * (255 - mask) + above * mask).

(** Modelled from the spec: Pillow's [Image.composite] is not part of the
    repository.  It mixes [image1] over [image2] per pixel, "mask value 0 =
    fully original image, 255 = fully" [image1]; in between Pillow weighs
    the two by [mask] and [255 - mask]. *)
Definition Image_composite (image1 image2 : image rgb) (mask : image Z)
  : res (image rgb) :=
  if same_size image1 image2 && same_size image1 mask then
    Ok (zip_pixels
          (λ '((r1, g1, b1), (r2, g2, b2)) m,
             (mask_blend m r2 r1, mask_blend m g2 g1, mask_blend m b2 b1))
          (zip_pixels pair image1 image2) mask)
  else Raise ValueError.

(** The operations of Pillow that stay abstract: rasterisation of ellipses
    and wide lines, Gaussian blur, the per-pixel arithmetic of
    [alpha_composite] and [blend], and the PNG encoder. *)
Class Imaging := {
  (** [ImageDraw.Draw(img).ellipse(xy, outline=ink, width=wd)], mode "L" *)
  ImageDraw_ellipse_L : image Z → box → Z → Z → image Z;
  (** [ImageDraw.Draw(img).ellipse(xy, fill=ink)], mode "RGBA" *)
  ImageDraw_ellipse_RGBA : image rgba → box → rgba → image rgba;
  (** [ImageDraw.Draw(img).line(xy, fill=ink, width=wd)], mode "RGBA" *)
  ImageDraw_line_RGBA : image rgba → box → rgba → Z → image rgba;
  (** [img.filter(ImageFilter.GaussianBlur(radius))] *)
  GaussianBlur_L : num → image Z → image Z;
  GaussianBlur_RGBA : num → image rgba → image rgba;
  (** one pixel of [Image.alpha_composite] and one channel of [Image.blend] *)
  alpha_over : rgba → rgba → rgba;
  blend_channel : float → Z → Z → Z;
  (** the bytes [img.save(path, format="PNG", optimize=True)] writes *)
  png_encode : image rgb → bytes;

  ellipse_L_size : ∀ img xy ink wd w h,
    has_size img w h → has_size (ImageDraw_ellipse_L img xy ink wd) w h;
  ellipse_RGBA_size : ∀ img xy ink w h,
    has_size img w h → has_size (ImageDraw_ellipse_RGBA img xy ink) w h;
  line_RGBA_size : ∀ img xy ink wd w h,
    has_size img w h → has_size (ImageDraw_line_RGBA img xy ink wd) w h;
  blur_L_size : ∀ r img w h,
    has_size img w h → has_size (GaussianBlur_L r img) w h;
  blur_RGBA_size : ∀ r img w h,
    has_size img w h → has_size (GaussianBlur_RGBA r img) w h;
  (** an outline only writes its ink *)
  ellipse_L_ink : ∀ img xy ink wd x y v,
    pixel (ImageDraw_ellipse_L img xy ink wd) x y = Some v →
    v = ink ∨ pixel img x y = Some v;
  (** blurring averages: it exceeds no bound the input respects *)
  blur_L_max : ∀ r img M,
    (∀ x y v, pixel img x y = Some v → v ≤ M) →
    ∀ x y v, pixel (GaussianBlur_L r img) x y = Some v → v ≤ M
}.

(** [Image.alpha_composite(im1, im2)] *)
Definition Image_alpha_composite {IM : Imaging} (im1 im2 : image rgba)
  : res (image rgba) :=
  if same_size im1 im2 then Ok (zip_pixels alpha_over im1 im2)
  else Raise ValueError.

(** [Image.blend(im1, im2, alpha)] *)
Definition Image_blend {IM : Imaging} (im1 im2 : image rgb) (alpha : float)
  : res (image rgb) :=
  if same_size im1 im2 then
    Ok (zip_pixels
          (λ '(r1, g1, b1) '(r2, g2, b2),
             (blend_channel alpha r1 r2, blend_channel alpha g1 g2,
              blend_channel alpha b1 b2)) im1 im2)
  else Raise ValueError.

(** ** The script: interpolation, palette, and the four rendering stages *)

(** [_lerp], lines 15-16: [int(round(a * (1.0 - t) + b * t))] *)
Definition _lerp (a b : Z) (t : float) : res Z :=
  u ← num_sub (F one) (F t);
  p ← num_mul (I a) u;
  q ← num_mul (I b) (F t);
  s ← num_add p q;
  r ← py_round s;
  py_int (I r).

(** [_lerp_rgb], lines 19-20 *)
Definition _lerp_rgb (c1 c2 : rgb) (t : float) : res rgb :=
  let '(r1, g1, b1) := c1 in
  let '(r2, g2, b2) := c2 in
  r ← _lerp r1 r2 t;
  g ← _lerp g1 g2 t;
  b ← _lerp b1 b2 t;
  Ok (r, g, b).

(** The palette of [_pick_palette], lines 24-34 *)
Definition palette : list rgb :=
  [ (6, 10, 25);      (* near-black navy *)
    (15, 23, 42);     (* slate-900 *)
    (12, 74, 110);    (* deep blue *)
    (2, 132, 199);    (* cyan *)
    (16, 185, 129);   (* emerald *)
    (99, 102, 241);   (* indigo *)
    (168, 85, 247);   (* purple *)
    (244, 63, 94);    (* rose *)
    (245, 158, 11) ].  (* amber *)

(** [_make_gradient], lines 44-51 *)
Definition _make_gradient (w h : Z) (c1 c2 : rgb) : res (image rgb) :=
  img ← Image_new (w, h) c1;
  for_each (range h)
    (λ y img,
       t ← (if 1 <? h then true_div y (h - 1) else Ok zero);
       col ← _lerp_rgb c1 c2 t;
       Ok (ImageDraw_line_h img 0 y w col))
    img.

(** The parsed command line of [main], lines 114-119 *)
Record args : Type := Args {
  slug : str;
  output : str;
  arg_width : Z;
  arg_height : Z
}.

Section Script.
Context {G : Type} {RG : Random G} {IM : Imaging} {LM : Libm}.

(** The loop [while c2 == c1: c2 = rng.choice(palette)], lines 38-39, run
    for at most [fuel] iterations. *)
Fixpoint while_c2_eq_c1 (fuel : nat) (c1 c2 : rgb) (rng : G)
  : res (rgb * G) :=
  if decide (c2 = c1) then
    match fuel with
    | O => NoFuel
    | S fuel' =>
        '(c2, rng) ← choice palette rng;
        while_c2_eq_c1 fuel' c1 c2 rng
    end
  else Ok (c2, rng).

(** [_pick_palette], lines 23-41 *)
Definition _pick_palette (fuel : nat) (seed : Z) : res (rgb * rgb * rgb) :=
  let rng := Random_new seed in
  '(c1, rng) ← choice palette rng;
  '(c2, rng) ← choice palette rng;
  '(c2, rng) ← while_c2_eq_c1 fuel c1 c2 rng;
  '(accent, rng) ← choice palette rng;
  Ok (c1, c2, accent).

(** Line 64: [int(255 * (t ** 2) * strength)] *)
Definition vignette_alpha (t strength : float) : res Z :=
  t2 ← py_pow t 2;
  a ← num_mul (I 255) (F t2);
  a ← num_mul a (F strength);
  py_int a.

(** Body of the loop of lines 61-65 *)
Definition vignette_ring (cx cy max_r strength : float) (steps i : Z)
    (vignette : image Z) : res (image Z) :=
  t ← (if 1 <? steps then true_div i (steps - 1) else Ok one);
  let r := fmul max_r t in
  alpha ← vignette_alpha t strength;
  Ok (ImageDraw_ellipse_L vignette
        (F (fsub cx r), F (fsub cy r), F (fadd cx r), F (fadd cy r))
        alpha 6).

(** Lines 55-66 of [_add_vignette]: the blurred mask *)
Definition vignette_mask (img : image rgb) (strength : float)
  : res (image Z) :=
  let '(w, h) := size img in
  vignette ← Image_new (w, h) 0;
  cx ← true_div w 2;
  cy ← true_div h 2;
  let max_r := libm_hypot cx cy in
  let steps := 40 in
  vignette ← for_each (range steps)
                (vignette_ring cx cy max_r strength steps) vignette;
  Ok (GaussianBlur_L (I 18) vignette).

(** [_add_vignette], lines 54-68 *)
Definition _add_vignette (img : image rgb) (strength : float)
  : res (image rgb) :=
  let '(w, h) := size img in
  vignette ← vignette_mask img strength;
  dark ← Image_new (w, h) (0, 0, 0);
  Image_composite dark img vignette.

(** Lines 78-82 and the arguments of the call on line 83 *)
Definition shapes_circle_args (w h : Z) (accent : rgb) (rng : G)
  : res (box * rgba * G) :=
  '(u, rng) ← uniform (F (literal (-1) 10)) (F (literal 11 10)) rng;
  x ← num_mul u (I w);
  '(u, rng) ← uniform (F (literal (-1) 10)) (F (literal 11 10)) rng;
  y ← num_mul u (I h);
  '(r, rng) ← uniform (I 80) (I 220) rng;
  let '(p, rng) := rng_random rng in
  let '(b0, b1, b2) :=
    if flt p (literal 6 10) then accent else (255, 255, 255) in
  '(u, rng) ← uniform (I 18) (I 55) rng;
  alpha ← py_int u;
  x0 ← num_sub x r;
  y0 ← num_sub y r;
  x1 ← num_add x r;
  y1 ← num_add y r;
  Ok ((x0, y0, x1, y1), (b0, b1, b2, alpha), rng).

(** Body of the loop of lines 77-83 *)
Definition shapes_circle (w h : Z) (accent : rgb) (_ : Z)
    (st : image rgba * G) : res (image rgba * G) :=
  let '(layer, rng) := st in
  '(xy, fill, rng) ← shapes_circle_args w h accent rng;
  Ok (ImageDraw_ellipse_RGBA layer xy fill, rng).

(** Lines 86-92 and the arguments of the call on line 93 *)
Definition shapes_line_args (w h : Z) (accent : rgb) (rng : G)
  : res (box * rgba * Z * G) :=
  '(x1, rng) ← uniform (I 0) (I w) rng;
  '(y1, rng) ← uniform (I 0) (I h) rng;
  '(x2, rng) ← uniform (I 0) (I w) rng;
  '(y2, rng) ← uniform (I 0) (I h) rng;
  '(u, rng) ← uniform (I 2) (I 6) rng;
  width ← py_int u;
  '(u, rng) ← uniform (I 10) (I 26) rng;
  alpha ← py_int u;
  let '(a0, a1, a2) := accent in
  let col := (a0, a1, a2, alpha) in
  Ok ((x1, y1, x2, y2), col, width, rng).

(** Body of the loop of lines 85-93 *)
Definition shapes_line (w h : Z) (accent : rgb) (_ : Z)
    (st : image rgba * G) : res (image rgba * G) :=
  let '(layer, rng) := st in
  '(xy, col, width, rng) ← shapes_line_args w h accent rng;
  Ok (ImageDraw_line_RGBA layer xy col width, rng).

(** [_add_shapes], lines 71-96 *)
Definition _add_shapes (img : image rgb) (seed : Z) (accent : rgb)
  : res (image rgb) :=
  let '(w, h) := size img in
  layer ← Image_new (w, h) (0, 0, 0, 0);
  let rng := Random_new seed in
  '(layer, rng) ← for_each (range 22) (shapes_circle w h accent) (layer, rng);
  '(layer, rng) ← for_each (range 16) (shapes_line w h accent) (layer, rng);
  let layer := GaussianBlur_RGBA (I 14) layer in
  out ← Image_alpha_composite (convert_RGBA img) layer;
  Ok (convert_RGB out).

(** Body of the inner loop of lines 105-106 *)
Definition grain_pixel (y x : Z) (st : image Z * G) : res (image Z * G) :=
  let '(noise, rng) := st in
  '(v, rng) ← randint 0 255 rng;
  noise ← putpixel noise x y v;
  Ok (noise, rng).

(** [lambda v: int(v * 0.18)], line 108 *)
Definition grain_scale (v : Z) : res Z :=
  a ← num_mul (I v) (F (literal 18 100));
  py_int a.

(** [_add_grain], lines 99-110 *)
Definition _add_grain (img : image rgb) (seed : Z) : res (image rgb) :=
  let '(w, h) := size img in
  let rng := Random_new (seed + 1337) in
  noise ← Image_new (w, h) 0;
  '(noise, rng) ← for_each (range h)
                     (λ y, for_each (range w) (grain_pixel y)) (noise, rng);
  let noise := GaussianBlur_L (F (literal 12 10)) noise in
  noise ← Image_point noise grain_scale;
  noise_rgb ← Image_merge_RGB noise noise noise;
  Image_blend img noise_rgb (literal 18 100).

(** [main], lines 121-129; the file system maps a path to its content. *)
Definition main (fuel : nat) (a : args) (fs : gmap str bytes)
  : res (gmap str bytes) :=
  seed ← _seed_from_slug (slug a);
  '(c1, c2, accent) ← _pick_palette fuel seed;
  img ← _make_gradient (arg_width a) (arg_height a) c1 c2;
  img ← _add_shapes img seed accent;
  img ← _add_grain img seed;
  img ← _add_vignette img (literal 55 100);
  Ok (<[output a := png_encode img]> fs).

End Script.

(** * CPython's generator: MT19937 as [_randommodule.c] drives it *)

Module MT.

Definition N : Z := 624.
Definition M : Z := 397.
Definition mask32 : Z := 4294967295.
Definition u32 (x : Z) : Z := Z.land x mask32.

Record state : Type := State { mt : list Z; mti : Z }.

Definition get (v : list Z) (i : Z) : Z := default 0 (v !! Z.to_nat i).
Definition set (v : list Z) (i x : Z) : list Z := <[Z.to_nat i := x]> v.

Definition init_genrand (s : Z) : list Z :=
  foldl (λ v i,
           let p := get v (i - 1) in
           set v i (u32 (1812433253 * Z.lxor p (Z.shiftr p 30) + i)))
        (set (replicate 624 0) 0 (u32 s)) (seqZ 1 (N - 1)).

Definition init_by_array (key : list Z) : list Z :=
  let len := Z.of_nat (length key) in
  let '(v, i, j) :=
    foldl (λ '(v, i, j) _,
             let p := get v (i - 1) in
             let v := set v i (u32 (Z.lxor (get v i)
                                      (Z.lxor p (Z.shiftr p 30) * 1664525)
                                    + get key j + j)) in
             let i := i + 1 in
             let j := j + 1 in
             let '(v, i) := if N <=? i then (set v 0 (get v (N - 1)), 1)
                            else (v, i) in
             (v, i, if len <=? j then 0 else j))
          (init_genrand 19650218, 1, 0) (seqZ 0 (Z.max N len)) in
  let '(v, i) :=
    foldl (λ '(v, i) _,
             let p := get v (i - 1) in
             let v := set v i (u32 (Z.lxor (get v i)
                                      (Z.lxor p (Z.shiftr p 30) * 1566083941)
                                    - i)) in
             let i := i + 1 in
             if N <=? i then (set v 0 (get v (N - 1)), 1) else (v, i))
          (v, i) (seqZ 0 (N - 1)) in
  set v 0 2147483648.

(** The 32-bit digits of [n], least significant first; at least one. *)
Fixpoint key_of (fuel : nat) (n : Z) : list Z :=
  match fuel with
  | O => [u32 n]
  | S fuel' =>
      if n <? 4294967296 then [n]
      else u32 n :: key_of fuel' (Z.shiftr n 32)
  end.

(** [random.Random(seed)] for an [int] seed *)
Definition seed (a : Z) : state :=
  let n := Z.abs a in
  State (init_by_array (key_of (Z.to_nat (Z.log2 n / 32)) n)) N.

Definition twist (v : list Z) : list Z :=
  foldl (λ v kk,
           let y := Z.lor (Z.land (get v kk) 2147483648)
                          (Z.land (get v ((kk + 1) mod N)) 2147483647) in
           set v kk (Z.lxor (Z.lxor (get v ((kk + M) mod N)) (Z.shiftr y 1))
                            (if Z.odd y then 2567483615 else 0)))
        v (seqZ 0 N).

Definition genrand_uint32 (s : state) : Z * state :=
  let '(v, i) := if N <=? mti s then (twist (mt s), 0) else (mt s, mti s) in
  let y := get v i in
  let y := Z.lxor y (Z.shiftr y 11) in
  let y := Z.lxor y (Z.land (Z.shiftl y 7) 2636928640) in
  let y := Z.lxor y (Z.land (Z.shiftl y 15) 4022730752) in
  let y := Z.lxor y (Z.shiftr y 18) in
  (u32 y, State v (i + 1)).

(** [random()]: [(a * 67108864.0 + b) * (1.0 / 9007199254740992.0)] *)
Definition random (s : state) : float * state :=
  let '(a, s) := genrand_uint32 s in
  let '(b, s) := genrand_uint32 s in
  let a := Z.shiftr a 5 in
  let b := Z.shiftr b 6 in
  (binary_normalize prec emax (a * 67108864 + b) (-53) false, s).

(** [getrandbits(k)] for [k > 0] *)
Fixpoint getrandbits_words (words : nat) (k : Z) (s : state) : Z * state :=
  match words with
  | O => (0, s)
  | S words' =>
      let '(r, s) := genrand_uint32 s in
      let r := if k <? 32 then Z.shiftr r (32 - k) else r in
      let '(hi, s) := getrandbits_words words' (k - 32) s in
      (r + 4294967296 * hi, s)
  end.

Definition getrandbits (k : Z) (s : state) : Z * state :=
  getrandbits_words (Z.to_nat ((k - 1) / 32 + 1)) k s.

(** [_randbelow(n)]: draw [n.bit_length()] bits until the value is below
    [n].  The search is cut after [tries] rejections, which CPython's
    unbounded loop is not. *)
Fixpoint randbelow_loop (tries : nat) (k n : Z) (s : state) : Z * state :=
  let '(r, s') := getrandbits k s in
  if r <? n then (r, s')
  else
    match tries with
    | O => (0, s')
    | S tries' => randbelow_loop tries' k n s'
    end.

Definition randbelow (n : Z) (s : state) : Z * state :=
  randbelow_loop 4096 (Z.log2 n + 1) n s.

End MT.

(** A small executable implementation of the abstract imaging operations,
    used to run the whole script on examples.  It satisfies the laws of
    [Imaging] and is no model of Pillow's rasterisers: shapes cover the
    whole image and blurring changes nothing. *)
Module Simple.

Definition paint {P : Type} (img : image P) (ink : P) : image P :=
  map_pixels (λ _, ink) img.

Definition over (below above : rgba) : rgba :=
  let '(r0, g0, b0, _) := below in
  let '(r, g, b, a) := above in
  (mask_blend a r0 r, mask_blend a g0 g, mask_blend a b0 b, 255).

Definition blend1 (alpha : float) (x y : Z) : Z :=
  match of_int x, of_int y with
  | Ok fx, Ok fy =>
      match trunc (fadd (fmul fx (fsub one alpha)) (fmul fy alpha)) with
      | Ok z => z
      | _ => 0
      end
  | _, _ => 0
  end.

Definition encode (img : image rgb) : bytes :=
  width img :: height img ::
  flat_map (flat_map (λ '(r, g, b), [r; g; b])) (rows img).

Definition pow (x y : float) : float :=
  if SFeqb y (literal 2 1) then fmul x x else S754_nan.

Definition hypot (x y : float) : float :=
  SFsqrt prec emax (fadd (fmul x x) (fmul y y)).

End Simple.

(** ** Notions the statements below use *)

(** Text that UTF-8 can encode: Unicode scalar values, no lone surrogate. *)
Definition valid_text (s : str) : Prop :=
  Forall (λ c, 0 ≤ c ≤ 1114111 ∧ ¬ (55296 ≤ c ≤ 57343)) s.

(** A colour whose channels are bytes. *)
Definition color_ok (c : rgb) : Prop :=
  let '(r, g, b) := c in 0 ≤ r ≤ 255 ∧ 0 ≤ g ≤ 255 ∧ 0 ≤ b ≤ 255.

(** The colour line 48-49 computes for row [y]. *)
Definition gradient_color (c1 c2 : rgb) (h y : Z) : res rgb :=
  t ← (if 1 <? h then true_div y (h - 1) else Ok zero);
  _lerp_rgb c1 c2 t.

Definition inex (l : location) : Z :=
  match l with loc_Exact => 0 | loc_Inexact _ => 1 end.

Definition shr_exact (mrs : shr_record) : Prop :=
  shr_r mrs = false ∧ shr_s mrs = false.

Definition shr_steps (n : Z) (a b : shr_record) : Prop :=
  0 ≤ shr_m b ∧ shr_m b = shr_m a / 2 ^ n ∧
  (shr_exact a → shr_m a mod 2 ^ n = 0 → shr_exact b).

(** A segment whose two end points lie on the canvas. *)
Definition on_canvas (w h : Z) (xy : box) : Prop :=
  ∃ x1 y1 x2 y2, xy = (F x1, F y1, F x2, F y2) ∧
    between x1 0 w 0 ∧ between y1 0 h 0 ∧
    between x2 0 w 0 ∧ between y2 0 h 0.

(** The bounding box of a circle of radius between 80 and 220 pixels. *)
Definition circle_box (xy : box) : Prop :=
  ∃ x y r, xy = (F (fsub x r), F (fsub y r), F (fadd x r), F (fadd y r)) ∧
    between r 80 220 0.

Section Specification.
Context {G : Type} {RG : Random G} {IM : Imaging} {LM : Libm}.

(** The candidates the generator offers from state [g] on: the first [n]
    results of [rng.choice(palette)]. *)
Fixpoint palette_draws (n : nat) (g : G) : list rgb :=
  match n with
  | O => []
  | S n' =>
      match choice palette g with
      | Ok (c, g') => c :: palette_draws n' g'
      | _ => []
      end
  end.

(** The generator after one call of [random()]. *)
Definition rng_next (g : G) : G := (rng_random g).2.

(** [n] runs of a sampler on one generator, each continuing where the
    previous one stopped. *)
Fixpoint sample_many {A : Type} (n : nat) (sample : G → res (A * G)) (rng : G)
  : res (list A * G) :=
  match n with
  | O => Ok ([], rng)
  | S n' =>
      '(a, rng) ← sample rng;
      '(l, rng) ← sample_many n' sample rng;
      Ok (a :: l, rng)
  end.

Definition draw_circle (layer : image rgba) (c : box * rgba) : image rgba :=
  ImageDraw_ellipse_RGBA layer c.1 c.2.

Definition draw_line (layer : image rgba) (l : box * rgba * Z) : image rgba :=
  ImageDraw_line_RGBA layer l.1.1 l.1.2 l.2.

(** [n] successive results of [rng.randint(0, 255)]. *)
Fixpoint noise_row (n : nat) (g : G) : list Z * G :=
  match n with
  | O => ([], g)
  | S n' =>
      let '(v, g) := rng_randbelow 256 g in
      let '(vs, g) := noise_row n' g in
      (v :: vs, g)
  end.

(** [h] rows of [w] such results, row after row. *)
Fixpoint noise_rows (h w : nat) (g : G) : list (list Z) * G :=
  match h with
  | O => ([], g)
  | S h' =>
      let '(row, g) := noise_row w g in
      let '(rows, g) := noise_rows h' w g in
      (row :: rows, g)
  end.

(** Lines 122-127 of [main]: from the seed to the finished image. *)
Definition pipeline (fuel : nat) (seed w h : Z) : res (image rgb) :=
  '(c1, c2, accent) ← _pick_palette fuel seed;
  img ← _make_gradient w h c1 c2;
  img ← _add_shapes img seed accent;
  img ← _add_grain img seed;
  _add_vignette img (literal 55 100).

End Specification.

(** Inputs of the examples *)
Definition example_image : image rgb :=
  Image 4 3 (replicate 3 (replicate 4 (6, 10, 25))).

Definition example_args (slug output : string) : args :=
  Args (ascii_str slug) (ascii_str output) 4 3.

(** * Facts about binary64 rounding

    Rounding to nearest never crosses a bound that lies on the grid of the
    result: this is all the proofs below need from IEEE arithmetic. *)

Lemma digits2_pos_size p : digits2_pos p = Pos.size p.
Proof. induction p; simpl; congruence. Qed.

Lemma Zdigits2_le m j : 0 ≤ m → 0 ≤ j → m < 2 ^ j → Zdigits2 m ≤ j.
Proof.
  intros Hm Hj Hlt. destruct m as [|p|p]; simpl; [lia| |lia].
  rewrite digits2_pos_size.
  destruct (Z_lt_le_dec j (Z.pos (Pos.size p))) as [H|H]; [|lia].
  exfalso.
  pose proof (Pos.size_le p) as Hs.
  assert (2 ^ j * 2 ≤ 2 ^ Z.pos (Pos.size p)).
  { replace (2 ^ j * 2) with (2 ^ (j + 1)) by (rewrite Z.pow_add_r; lia).
    apply Z.pow_le_mono_r; lia. }
  assert (Z.pos (2 ^ Pos.size p) = 2 ^ Z.pos (Pos.size p)) by (rewrite Pos2Z.inj_pow; reflexivity).
  lia.
Qed.

Lemma shr_1_steps a : 0 ≤ shr_m a → shr_steps 1 a (shr_1 a).
Proof.
  destruct a as [m r s]; simpl; intros Hm.
  unfold shr_steps, shr_exact. rewrite Z.pow_1_r.
  destruct m as [|[p|p|]|]; simpl; try lia.
  - split; [lia|]. split; [done|]. intros [-> ->] _. done.
  - split; [lia|]. split.
    + rewrite Pos2Z.inj_xI. apply Z.div_unique with (r := 1); lia.
    + intros _ H. rewrite Pos2Z.inj_xI in H.
      replace (2 * Z.pos p + 1) with (1 + Z.pos p * 2) in H by lia.
      rewrite Z_mod_plus_full in H. discriminate.
  - split; [lia|]. split.
    + rewrite Pos2Z.inj_xO. apply Z.div_unique with (r := 0); lia.
    + intros [-> ->] _. done.
  - split; [lia|]. split; [done|]. intros _ H; discriminate.
Qed.

Lemma shr_steps_trans n1 n2 a b c :
  0 ≤ n1 → 0 ≤ n2 → 0 ≤ shr_m a →
  shr_steps n1 a b → shr_steps n2 b c → shr_steps (n1 + n2) a c.
Proof.
  intros H1 H2 Ha (Hb & Hab & Eab) (Hc & Hbc & Ebc).
  assert (0 < 2 ^ n1) by (apply Z.pow_pos_nonneg; lia).
  assert (0 < 2 ^ n2) by (apply Z.pow_pos_nonneg; lia).
  split; [done|]. split.
  - rewrite Hbc, Hab, Z.pow_add_r, Z.div_div by lia. done.
  - intros Ea Hmod. rewrite Z.pow_add_r in Hmod by lia.
    apply Z.mod_divide in Hmod; [|lia]. destruct Hmod as [q Hq].
    apply Ebc.
    + apply Eab; [done|]. apply Z.mod_divide; [lia|]. exists (q * 2 ^ n2). lia.
    + rewrite Hab. apply Z.mod_divide; [lia|]. exists q.
      rewrite Hq. replace (q * (2 ^ n1 * 2 ^ n2)) with (q * 2 ^ n2 * 2 ^ n1) by lia.
      rewrite Z.div_mul; lia.
Qed.

Lemma iter_shr_1 p : ∀ a, 0 ≤ shr_m a → shr_steps (Z.pos p) a (SpecFloat.iter_pos shr_1 p a).
Proof.
  induction p as [p IH|p IH|]; intros a Ha; simpl.
  - pose proof (shr_1_steps a Ha) as S1.
    pose proof (IH _ (proj1 S1)) as S2.
    pose proof (IH _ (proj1 S2)) as S3.
    replace (Z.pos p~1) with ((1 + Z.pos p) + Z.pos p) by lia.
    eapply shr_steps_trans; [lia|lia|done| |exact S3].
    eapply shr_steps_trans; [lia|lia|done|exact S1|exact S2].
  - pose proof (IH _ Ha) as S2.
    pose proof (IH _ (proj1 S2)) as S3.
    replace (Z.pos p~0) with (Z.pos p + Z.pos p) by lia.
    eapply shr_steps_trans; [lia|lia|done|exact S2|exact S3].
  - apply shr_1_steps; done.
Qed.

Lemma inex_range l : 0 ≤ inex l ≤ 1.
Proof. destruct l; simpl; lia. Qed.

Lemma inex_loc_exact mrs : shr_exact mrs → inex (loc_of_shr_record mrs) = 0.
Proof. destruct mrs as [m r s]; intros [Hr Hs]; simpl in *; subst; done. Qed.

Lemma shr_record_of_loc_m m l : shr_m (shr_record_of_loc m l) = m.
Proof. destruct l as [|[]]; done. Qed.

Lemma loc_of_shr_record_of_loc m l :
  loc_of_shr_record (shr_record_of_loc m l) = l.
Proof. destruct l as [|[]]; done. Qed.

Lemma shr_record_of_loc_exact m l :
  inex l = 0 → shr_exact (shr_record_of_loc m l).
Proof. destruct l as [|[]]; simpl; try done; lia. Qed.

Lemma fexp_eq x : fexp prec emax x = Z.max (x - 53) (-1074).
Proof. reflexivity. Qed.

Lemma pow2_pos j : 0 ≤ j → 0 < 2 ^ j.
Proof. intros; apply Z.pow_pos_nonneg; lia. Qed.

Lemma pow2_split a b : 0 ≤ a → 0 ≤ b → 2 ^ (a + b) = 2 ^ a * 2 ^ b.
Proof. intros; apply Z.pow_add_r; lia. Qed.

Lemma fexp_digits_le m e hi k :
  0 ≤ m → e ≤ k → -1074 ≤ k → hi < 2 ^ 53 → m ≤ hi * 2 ^ (k - e) →
  fexp prec emax (Zdigits2 m + e) ≤ k.
Proof.
  intros Hm He Hk Hhi Hle. rewrite fexp_eq.
  assert (Zdigits2 m ≤ 53 + (k - e)); [|lia].
  apply Zdigits2_le; [done|lia|].
  pose proof (pow2_pos (k - e) ltac:(lia)).
  rewrite pow2_split by lia. nia.
Qed.

Lemma shr_fexp_between m e l lo hi k :
  0 ≤ m → e ≤ k → -1074 ≤ k → hi < 2 ^ 53 →
  lo * 2 ^ (k - e) ≤ m → m + inex l ≤ hi * 2 ^ (k - e) →
  ∃ mrs e', shr_fexp prec emax m e l = (mrs, e') ∧ e ≤ e' ≤ k ∧
    0 ≤ shr_m mrs ∧ lo * 2 ^ (k - e') ≤ shr_m mrs ∧
    shr_m mrs + inex (loc_of_shr_record mrs) ≤ hi * 2 ^ (k - e').
Proof.
  intros Hm He Hk Hhi Hlo Hup.
  pose proof (inex_range l) as Hl.
  assert (Hfe : fexp prec emax (Zdigits2 m + e) ≤ k)
    by (apply fexp_digits_le with (hi := hi); [done..|lia]).
  unfold shr_fexp, shr.
  destruct (fexp prec emax (Zdigits2 m + e) - e) as [|p|p] eqn:Hn.
  1,3: eexists _, _; split; [reflexivity|];
       rewrite shr_record_of_loc_m, loc_of_shr_record_of_loc; lia.
  eexists _, _; split; [reflexivity|].
  set (e' := e + Z.pos p). assert (He' : e' ≤ k) by lia.
  destruct (iter_shr_1 p (shr_record_of_loc m l)) as (Hnn & Hdiv & Hex).
  { rewrite shr_record_of_loc_m; done. }
  rewrite shr_record_of_loc_m in Hdiv, Hex.
  set (mrs := SpecFloat.iter_pos shr_1 p (shr_record_of_loc m l)) in *.
  pose proof (pow2_pos (Z.pos p) ltac:(lia)) as HP.
  pose proof (pow2_pos (k - e') ltac:(lia)) as HQ.
  assert (Hsplit : 2 ^ (k - e) = 2 ^ (k - e') * 2 ^ Z.pos p).
  { rewrite <- pow2_split by lia. f_equal. lia. }
  rewrite Hsplit in Hlo, Hup.
  split; [lia|]. split; [done|]. rewrite Hdiv. split.
  - apply Z.div_le_lower_bound; [done|]. lia.
  - pose proof (inex_range (loc_of_shr_record mrs)) as Hl'.
    destruct (Z.eq_dec (inex (loc_of_shr_record mrs)) 0) as [H0|H1].
    + rewrite H0, Z.add_0_r. apply Z.div_le_upper_bound; [done|]. lia.
    + assert (m < 2 ^ Z.pos p * (hi * 2 ^ (k - e'))).
      { destruct (Z.eq_dec (inex l) 0) as [Hl0|Hl1]; [|lia].
        destruct (Z.eq_dec m (2 ^ Z.pos p * (hi * 2 ^ (k - e')))) as [Heq|]; [|lia].
        exfalso. apply H1, inex_loc_exact, Hex.
        - apply shr_record_of_loc_exact; done.
        - rewrite Heq, Z.mul_comm. apply Z_mod_mult. }
      assert (m `div` 2 ^ Z.pos p < hi * 2 ^ (k - e'))
        by (apply Z.div_lt_upper_bound; done).
      lia.
Qed.

Lemma round_nearest_even_range m l :
  m ≤ round_nearest_even m l ≤ m + inex l.
Proof.
  destruct l as [|[]]; simpl; try lia. destruct (Z.even m); lia.
Qed.

Lemma binary_round_aux_between mx ex lx lo hi k :
  0 ≤ mx → ex ≤ k → -1074 ≤ k ≤ 971 → hi < 2 ^ 53 →
  lo * 2 ^ (k - ex) ≤ mx → mx + inex lx ≤ hi * 2 ^ (k - ex) →
  between (binary_round_aux prec emax false mx ex lx) lo hi k.
Proof.
  intros Hm He Hk Hhi Hlo Hup. unfold binary_round_aux.
  destruct (shr_fexp_between mx ex lx lo hi k) as (mrs & e' & -> & He' & Hnn & Hlo' & Hup');
    [done|done|lia|done..|].
  pose proof (round_nearest_even_range (shr_m mrs) (loc_of_shr_record mrs)) as Hr.
  set (m2 := round_nearest_even (shr_m mrs) (loc_of_shr_record mrs)) in *.
  destruct (shr_fexp_between m2 e' loc_Exact lo hi k) as (mrs2 & e2 & -> & He2 & Hnn2 & Hlo2 & Hup2);
    [lia|lia|lia|done|lia|simpl; lia|].
  pose proof (inex_range (loc_of_shr_record mrs2)).
  pose proof (pow2_pos (k - e2) ltac:(lia)).
  destruct (shr_m mrs2) as [|m|m] eqn:Hm3; simpl.
  - nia.
  - replace (Z.leb e2 (emax - prec)) with true; [simpl; lia|].
    symmetry. apply Z.leb_le. unfold emax, prec. lia.
  - lia.
Qed.

Lemma pos_iter_xO m d : Z.pos (Pos.iter xO m d) = Z.pos m * 2 ^ Z.pos d.
Proof.
  induction d as [|d IH] using Pos.peano_ind.
  - simpl. lia.
  - rewrite Pos.iter_succ, Pos2Z.inj_xO, IH, Pos2Z.inj_succ, Z.pow_succ_r; lia.
Qed.

Lemma shl_align_spec mx ex ex' :
  snd (shl_align mx ex ex') = Z.min ex ex' ∧
  Z.pos (fst (shl_align mx ex ex')) = Z.pos mx * 2 ^ (ex - Z.min ex ex').
Proof.
  unfold shl_align. destruct (ex' - ex) as [|d|d] eqn:Hd; simpl.
  - replace (Z.min ex ex') with ex by lia. rewrite Z.sub_diag. lia.
  - replace (Z.min ex ex') with ex by lia. rewrite Z.sub_diag. lia.
  - replace (Z.min ex ex') with ex' by lia. split; [done|].
    rewrite pos_iter_xO. f_equal. f_equal. lia.
Qed.

Lemma binary_round_between mx ex lo hi k :
  ex ≤ k → -1074 ≤ k ≤ 971 → hi < 2 ^ 53 →
  lo * 2 ^ (k - ex) ≤ Z.pos mx ≤ hi * 2 ^ (k - ex) →
  between (binary_round prec emax false mx ex) lo hi k.
Proof.
  intros He Hk Hhi Hb. unfold binary_round.
  pose proof (shl_align_spec mx ex (fexp prec emax (Z.pos (digits2_pos mx) + ex))) as [He' Hm'].
  destruct (shl_align _ _ _) as [mz ez]; simpl in *.
  assert (ez ≤ ex) by lia.
  pose proof (pow2_pos (ex - ez) ltac:(lia)).
  assert (2 ^ (k - ez) = 2 ^ (k - ex) * 2 ^ (ex - ez)) as Hs.
  { rewrite <- pow2_split by lia. f_equal; lia. }
  apply binary_round_aux_between; try lia.
  - rewrite Hs, Hm'. rewrite <- He'. nia.
  - simpl. rewrite Hs, Hm', <- He'. nia.
Qed.

Lemma binary_normalize_between m e lo hi k :
  0 ≤ m → e ≤ k → -1074 ≤ k ≤ 971 → hi < 2 ^ 53 →
  lo * 2 ^ (k - e) ≤ m ≤ hi * 2 ^ (k - e) →
  between (binary_normalize prec emax m e false) lo hi k.
Proof.
  intros Hm He Hk Hhi Hb. pose proof (pow2_pos (k - e) ltac:(lia)).
  destruct m as [|p|p]; simpl; [nia| |lia].
  apply binary_round_between; done.
Qed.

Lemma between_weaken f lo hi lo' hi' k :
  between f lo hi k → lo' ≤ lo → hi ≤ hi' → between f lo' hi' k.
Proof.
  destruct f as [s|s| |[] m e]; simpl; try done; [lia|].
  intros (He & Hb) H1 H2. pose proof (pow2_pos (k - e) ltac:(lia)). split; [done|]. nia.
Qed.

Lemma between_coarsen f lo hi k j :
  between f lo hi k → 0 ≤ j → between f (lo / 2 ^ j) ((hi + 2 ^ j - 1) / 2 ^ j) (k + j).
Proof.
  intros Hb Hj. pose proof (pow2_pos j Hj) as HJ.
  assert (lo `div` 2 ^ j * 2 ^ j ≤ lo).
  { pose proof (Z.mul_div_le lo (2 ^ j) HJ). lia. }
  assert (hi ≤ (hi + 2 ^ j - 1) `div` 2 ^ j * 2 ^ j).
  { pose proof (Z.div_mod (hi + 2 ^ j - 1) (2 ^ j) ltac:(lia)).
    pose proof (Z.mod_pos_bound (hi + 2 ^ j - 1) (2 ^ j) HJ). lia. }
  destruct f as [s|s| |[] m e]; simpl in *; try done.
  - split.
    + apply Z.div_le_upper_bound; lia.
    + apply Z.div_le_lower_bound; lia.
  - destruct Hb as (He & Hb). split; [lia|].
    pose proof (pow2_pos (k - e) ltac:(lia)).
    replace (k + j - e) with (j + (k - e)) by lia. rewrite pow2_split by lia. nia.
Qed.

Lemma between_nonneg f lo hi k : between f lo hi k → 0 ≤ hi.
Proof.
  destruct f as [s|s| |[] m e]; simpl; try done; [lia|].
  intros (He & Hb). pose proof (pow2_pos (k - e) ltac:(lia)). nia.
Qed.

Lemma fmul_between x y a b c d k1 k2 :
  between x a b k1 → between y c d k2 → 0 ≤ a → 0 ≤ c →
  -1074 ≤ k1 + k2 ≤ 971 → b * d < 2 ^ 53 →
  between (fmul x y) (a * c) (b * d) (k1 + k2).
Proof.
  intros Hx Hy Ha Hc Hk Hbd.
  pose proof (between_nonneg _ _ _ _ Hx). pose proof (between_nonneg _ _ _ _ Hy).
  destruct x as [sx|sx| |[] mx ex], y as [sy|sy| |[] my ey]; simpl in *; try done; try nia.
  destruct Hx as (Hex & Hx), Hy as (Hey & Hy).
  pose proof (pow2_pos (k1 - ex) ltac:(lia)). pose proof (pow2_pos (k2 - ey) ltac:(lia)).
  assert (2 ^ (k1 + k2 - (ex + ey)) = 2 ^ (k1 - ex) * 2 ^ (k2 - ey)) as Hs.
  { rewrite <- pow2_split by lia. f_equal; lia. }
  apply binary_round_aux_between; try lia.
  - rewrite Hs, Pos2Z.inj_mul. nia.
  - simpl. rewrite Hs, Pos2Z.inj_mul. nia.
Qed.

Lemma fadd_between x y a b c d k :
  between x a b k → between y c d k →
  -1074 ≤ k ≤ 971 → b + d < 2 ^ 53 →
  between (fadd x y) (a + c) (b + d) k.
Proof.
  intros Hx Hy Hk Hbd.
  destruct x as [sx|sx| |[] mx ex], y as [sy|sy| |[] my ey];
    simpl in Hx, Hy; try done.
  - destruct sx, sy; simpl; lia.
  - destruct Hy as (He & Hy). pose proof (pow2_pos (k - ey) ltac:(lia)).
    simpl. split; [done|nia].
  - destruct Hx as (He & Hx). pose proof (pow2_pos (k - ex) ltac:(lia)).
    simpl. split; [done|nia].
  - destruct Hx as (Hex & Hx), Hy as (Hey & Hy).
    unfold fadd, SFadd, cond_Zopp. cbv zeta.
    pose proof (shl_align_spec mx ex (Z.min ex ey)) as [_ Hmx].
    pose proof (shl_align_spec my ey (Z.min ex ey)) as [_ Hmy].
    replace (Z.min ex (Z.min ex ey)) with (Z.min ex ey) in Hmx by lia.
    replace (Z.min ey (Z.min ex ey)) with (Z.min ex ey) in Hmy by lia.
    set (ez := Z.min ex ey) in *.
    pose proof (pow2_pos (ex - ez) ltac:(lia)). pose proof (pow2_pos (ey - ez) ltac:(lia)).
    pose proof (pow2_pos (k - ex) ltac:(lia)). pose proof (pow2_pos (k - ey) ltac:(lia)).
    assert (2 ^ (k - ez) = 2 ^ (k - ex) * 2 ^ (ex - ez)) as Hs1.
    { rewrite <- pow2_split by lia. f_equal; lia. }
    assert (2 ^ (k - ez) = 2 ^ (k - ey) * 2 ^ (ey - ez)) as Hs2.
    { rewrite <- pow2_split by lia. f_equal; lia. }
    apply binary_normalize_between; try lia.
    rewrite Hmx, Hmy. split.
    + rewrite Z.mul_add_distr_r. rewrite Hs1 at 1. rewrite Hs2. nia.
    + rewrite Z.mul_add_distr_r. rewrite Hs1 at 1. rewrite Hs2. nia.
Qed.

Lemma fsub_between x y a b c d k :
  between x a b k → between y c d k →
  -1074 ≤ k ≤ 971 → 0 ≤ a - d → b - c < 2 ^ 53 →
  between (fsub x y) (a - d) (b - c) k.
Proof.
  intros Hx Hy Hk Had Hbc.
  destruct x as [sx|sx| |[] mx ex], y as [sy|sy| |[] my ey];
    simpl in Hx, Hy; try done.
  - destruct sx, sy; simpl; lia.
  - destruct Hy as (He & Hy). pose proof (pow2_pos (k - ey) ltac:(lia)). nia.
  - destruct Hx as (He & Hx). pose proof (pow2_pos (k - ex) ltac:(lia)).
    simpl. split; [done|nia].
  - destruct Hx as (Hex & Hx), Hy as (Hey & Hy).
    unfold fsub, SFsub, cond_Zopp. cbv zeta.
    pose proof (shl_align_spec mx ex (Z.min ex ey)) as [_ Hmx].
    pose proof (shl_align_spec my ey (Z.min ex ey)) as [_ Hmy].
    replace (Z.min ex (Z.min ex ey)) with (Z.min ex ey) in Hmx by lia.
    replace (Z.min ey (Z.min ex ey)) with (Z.min ex ey) in Hmy by lia.
    set (ez := Z.min ex ey) in *.
    pose proof (pow2_pos (ex - ez) ltac:(lia)). pose proof (pow2_pos (ey - ez) ltac:(lia)).
    pose proof (pow2_pos (k - ex) ltac:(lia)). pose proof (pow2_pos (k - ey) ltac:(lia)).
    assert (2 ^ (k - ez) = 2 ^ (k - ex) * 2 ^ (ex - ez)) as Hs1.
    { rewrite <- pow2_split by lia. f_equal; lia. }
    assert (2 ^ (k - ez) = 2 ^ (k - ey) * 2 ^ (ey - ez)) as Hs2.
    { rewrite <- pow2_split by lia. f_equal; lia. }
    assert ((a - d) * 2 ^ (k - ez)
              ≤ Z.pos (shl_align mx ex ez).1 - Z.pos (shl_align my ey ez).1
              ≤ (b - c) * 2 ^ (k - ez)) as Hb.
    { rewrite Hmx, Hmy. split.
      - rewrite Z.mul_sub_distr_r. rewrite Hs1 at 1. rewrite Hs2. nia.
      - rewrite Z.mul_sub_distr_r. rewrite Hs1 at 1. rewrite Hs2. nia. }
    pose proof (pow2_pos (k - ez) ltac:(lia)).
    apply binary_normalize_between; try lia. nia.
Qed.

Lemma between_finite f lo hi k :
  between f lo hi k → finite_or_overflow f = Ok f.
Proof. destruct f as [s|s| |[] m e]; simpl; done. Qed.

Lemma of_int_between n :
  0 ≤ n < 2 ^ 53 → ∃ f, of_int n = Ok f ∧ between f n n 0.
Proof.
  intros Hn.
  assert (between (binary_normalize prec emax n 0 false) n n 0) as Hb.
  { apply binary_normalize_between; try lia. }
  eexists; split; [|exact Hb]. unfold of_int. eapply between_finite; done.
Qed.

Lemma Zdigits2_mono a b : 0 ≤ a ≤ b → Zdigits2 a ≤ Zdigits2 b.
Proof.
  intros Hab. destruct b as [|p|p]; [replace a with 0 by lia; done| |lia].
  apply Zdigits2_le; [lia|simpl; lia|]. simpl. rewrite digits2_pos_size.
  pose proof (Pos.size_gt p) as Hs.
  assert (Z.pos (2 ^ Pos.size p) = 2 ^ Z.pos (Pos.size p)) by (rewrite Pos2Z.inj_pow; reflexivity).
  lia.
Qed.

Lemma inex_new_location nb r :
  inex (new_location nb r) = if r =? 0 then 0 else 1.
Proof.
  unfold new_location, new_location_even, new_location_odd.
  destruct (Z.even nb), (r =? 0); done.
Qed.

Lemma round_between f lo hi k A B :
  between f lo hi k → k ≤ 0 →
  (2 * A - 1) * 2 ^ (- k) < 2 * lo → 2 * hi < (2 * B + 1) * 2 ^ (- k) →
  ∃ z, round f = Ok z ∧ A ≤ z ≤ B.
Proof.
  intros Hb Hk HA HB. pose proof (pow2_pos (- k) ltac:(lia)) as HP.
  destruct f as [s|s| |[] m e]; simpl in Hb; try done.
  { exists 0. split; [done|]. nia. }
  destruct Hb as (He & Hlo & Hhi). unfold round.
  eexists; split; [reflexivity|]. cbv zeta.
  destruct (Z.leb_spec 0 e) as [He0|He0].
  - assert (e = 0) as -> by lia. assert (k = 0) as -> by lia.
    simpl in *. lia.
  - pose proof (pow2_pos (k - e) ltac:(lia)) as HQ.
    assert (2 ^ (- e) = 2 ^ (- k) * 2 ^ (k - e)) as Hd.
    { rewrite <- pow2_split by lia. f_equal; lia. }
    set (P := 2 ^ (- k)) in *. set (Q := 2 ^ (k - e)) in *.
    rewrite Hd.
    assert (0 < P * Q) as HPQ by nia.
    pose proof (Z.div_mod (Z.pos m) (P * Q) ltac:(lia)) as Hdm.
    pose proof (Z.mod_pos_bound (Z.pos m) (P * Q) HPQ) as Hr.
    set (q := Z.pos m `div` (P * Q)) in *. set (r := Z.pos m `mod` (P * Q)) in *.
    destruct (Z.compare_spec (2 * r) (P * Q)) as [Hc|Hc|Hc].
    + destruct (Z.even q); nia.
    + nia.
    + nia.
Qed.

Lemma trunc_between f lo hi k A B :
  between f lo hi k → k ≤ 0 →
  A * 2 ^ (- k) ≤ lo → hi < (B + 1) * 2 ^ (- k) →
  ∃ z, trunc f = Ok z ∧ A ≤ z ≤ B.
Proof.
  intros Hb Hk HA HB. pose proof (pow2_pos (- k) ltac:(lia)) as HP.
  destruct f as [s|s| |[] m e]; simpl in Hb; try done.
  { exists 0. split; [done|]. nia. }
  destruct Hb as (He & Hlo & Hhi). unfold trunc.
  eexists; split; [reflexivity|]. cbv zeta.
  destruct (Z.leb_spec 0 e) as [He0|He0].
  - assert (e = 0) as -> by lia. assert (k = 0) as -> by lia.
    simpl in *. lia.
  - pose proof (pow2_pos (k - e) ltac:(lia)) as HQ.
    assert (2 ^ (- e) = 2 ^ (- k) * 2 ^ (k - e)) as Hd.
    { rewrite <- pow2_split by lia. f_equal; lia. }
    set (P := 2 ^ (- k)) in *. set (Q := 2 ^ (k - e)) in *.
    rewrite Hd.
    assert (0 < P * Q) as HPQ by nia.
    split.
    + apply Z.div_le_lower_bound; [done|]. nia.
    + assert (Z.pos m `div` (P * Q) < B + 1); [|lia].
      apply Z.div_lt_upper_bound; [done|]. nia.
Qed.

Lemma true_div_between a b lo hi :
  0 ≤ a ≤ b → 0 < b → 0 ≤ lo → hi < 2 ^ 53 →
  lo * b ≤ a * 2 ^ 52 ≤ hi * b →
  ∃ t, true_div a b = Ok t ∧ between t lo hi (-52).
Proof.
  intros Hab Hb Hlo Hhi Hq. unfold true_div.
  replace (b =? 0) with false by (symmetry; apply Z.eqb_neq; lia).
  destruct (Z.eqb_spec a 0) as [->|Ha].
  { eexists; split; [done|]. simpl. nia. }
  replace (a <? 0) with false by (symmetry; apply Z.ltb_ge; lia).
  replace (b <? 0) with false by (symmetry; apply Z.ltb_ge; lia).
  rewrite !Z.abs_eq by lia. unfold SFdiv_core_binary.
  rewrite !Z.add_0_r, Z.sub_0_r.
  pose proof (Zdigits2_mono a b ltac:(lia)) as Hd.
  set (e' := Z.min (fexp prec emax (Zdigits2 a - Zdigits2 b)) 0).
  assert (-1074 ≤ e' ≤ -53) as He' by (unfold e'; rewrite fexp_eq; lia).
  replace (0 - e') with (- e') by lia.
  destruct (- e') as [|s|s] eqn:Hs; try lia.
  rewrite Z.shiftl_mul_pow2 by lia.
  pose proof (pow2_pos (Z.pos s - 52) ltac:(lia)) as HP.
  assert (2 ^ Z.pos s = 2 ^ 52 * 2 ^ (Z.pos s - 52)) as HS.
  { rewrite <- pow2_split by lia. f_equal; lia. }
  pose proof (Z_div_mod (a * 2 ^ Z.pos s) b ltac:(lia)) as Hdm.
  destruct (Z.div_eucl (a * 2 ^ Z.pos s) b) as [q r]. cbn beta iota. simpl xorb.
  destruct Hdm as [Hdq Hr].
  assert (between (binary_round_aux prec emax false q e' (new_location b r))
            lo hi (-52)) as Hbt.
  { assert (0 ≤ q) by nia.
    replace (-52 - e') with (Z.pos s - 52) by lia.
    set (Q := 2 ^ (Z.pos s - 52)) in *.
    assert (b * (lo * Q) ≤ b * q + r) by (rewrite <- Hdq, HS; nia).
    assert (b * q + r ≤ b * (hi * Q)) by (rewrite <- Hdq, HS; nia).
    apply binary_round_aux_between; try lia.
    - replace (-52 - e') with (Z.pos s - 52) by lia. fold Q. nia.
    - replace (-52 - e') with (Z.pos s - 52) by lia. fold Q.
      rewrite inex_new_location. destruct (Z.eqb_spec r 0); nia. }
  eexists; split; [|exact Hbt]. eapply between_finite; done.
Qed.

(** * The gradient *)

(** Evaluation of the numeric tower once the operands are known. *)
Ltac py_eval :=
  cbn [num_sub num_mul num_add num_arith to_float mbind res_bind
       py_round py_int].

Lemma between_one : between one 1 1 0.
Proof. simpl. lia. Qed.

Lemma between_cell t N k :
  between t 0 N k → ∃ j, 0 ≤ j ≤ N ∧ between t j (Z.min (j + 1) N) k.
Proof.
  destruct t as [s|s| |[] m e]; simpl; try done.
  - intros ?. exists 0. lia.
  - intros (He & Hlo & Hhi).
    pose proof (pow2_pos (k - e) ltac:(lia)) as HQ.
    set (Q := 2 ^ (k - e)) in *.
    pose proof (Z.div_mod (Z.pos m) Q ltac:(lia)) as Hdm.
    pose proof (Z.mod_pos_bound (Z.pos m) Q HQ) as Hr.
    exists (Z.pos m / Q).
    assert (0 ≤ Z.pos m / Q) by (apply Z.div_pos; lia).
    assert (Z.pos m / Q ≤ N) by (apply Z.div_le_upper_bound; lia).
    repeat split; lia.
Qed.

(** [_lerp] keeps bytes in range for every [t] in the unit interval. *)
Lemma lerp_range a b t :
  0 ≤ a ≤ 255 → 0 ≤ b ≤ 255 → between t 0 512 (-9) →
  ∃ z, _lerp a b t = Ok z ∧ 0 ≤ z ≤ 255.
Proof.
  intros Ha Hb Ht.
  destruct (between_cell _ _ _ Ht) as (j & Hj & Hc).
  set (j' := Z.min (j + 1) 512) in *. assert (j ≤ j' ≤ 512) by lia.
  destruct (of_int_between a ltac:(lia)) as (fa & Hfa & Ba).
  destruct (of_int_between b ltac:(lia)) as (fb & Hfb & Bb).
  assert (between one 512 512 (-9)) as B1 by (simpl; lia).
  pose proof (fsub_between _ _ _ _ _ _ _ B1 Hc ltac:(lia) ltac:(lia) ltac:(lia)) as Bu.
  pose proof (fmul_between _ _ _ _ _ _ _ _ Ba Bu ltac:(lia) ltac:(lia) ltac:(lia) ltac:(nia)) as Bp.
  pose proof (fmul_between _ _ _ _ _ _ _ _ Bb Hc ltac:(lia) ltac:(lia) ltac:(lia) ltac:(nia)) as Bq.
  simpl Z.add in Bp, Bq.
  pose proof (fadd_between _ _ _ _ _ _ _ Bp Bq ltac:(lia) ltac:(nia)) as Bs.
  eapply between_weaken with (lo' := 0) (hi' := 130815) in Bs; [|nia..].
  destruct (round_between _ _ _ _ 0 255 Bs ltac:(lia) ltac:(simpl; lia) ltac:(simpl; lia))
    as (z & Hz & Hr).
  exists z. split; [|done].
  unfold _lerp. py_eval. rewrite Hfa, Hfb. py_eval. rewrite Hz. done.
Qed.

(** At [t = 0] the result is [a], at [t = 1] it is [b], exactly. *)
Lemma lerp_at_zero a b t :
  0 ≤ a ≤ 255 → 0 ≤ b ≤ 255 → between t 0 0 0 → _lerp a b t = Ok a.
Proof.
  intros Ha Hb Ht.
  destruct (of_int_between a ltac:(lia)) as (fa & Hfa & Ba).
  destruct (of_int_between b ltac:(lia)) as (fb & Hfb & Bb).
  pose proof (fsub_between _ _ _ _ _ _ _ between_one Ht ltac:(lia) ltac:(lia) ltac:(lia)) as Bu.
  pose proof (fmul_between _ _ _ _ _ _ _ _ Ba Bu ltac:(lia) ltac:(lia) ltac:(lia) ltac:(nia)) as Bp.
  pose proof (fmul_between _ _ _ _ _ _ _ _ Bb Ht ltac:(lia) ltac:(lia) ltac:(lia) ltac:(nia)) as Bq.
  simpl Z.add in Bp, Bq.
  pose proof (fadd_between _ _ _ _ _ _ _ Bp Bq ltac:(lia) ltac:(nia)) as Bs.
  destruct (round_between _ _ _ _ a a Bs ltac:(lia) ltac:(simpl; lia) ltac:(simpl; lia))
    as (z & Hz & Hr).
  unfold _lerp. py_eval. rewrite Hfa, Hfb. py_eval. rewrite Hz. py_eval.
  f_equal. lia.
Qed.

Lemma lerp_at_one a b t :
  0 ≤ a ≤ 255 → 0 ≤ b ≤ 255 → between t 1 1 0 → _lerp a b t = Ok b.
Proof.
  intros Ha Hb Ht.
  destruct (of_int_between a ltac:(lia)) as (fa & Hfa & Ba).
  destruct (of_int_between b ltac:(lia)) as (fb & Hfb & Bb).
  pose proof (fsub_between _ _ _ _ _ _ _ between_one Ht ltac:(lia) ltac:(lia) ltac:(lia)) as Bu.
  pose proof (fmul_between _ _ _ _ _ _ _ _ Ba Bu ltac:(lia) ltac:(lia) ltac:(lia) ltac:(nia)) as Bp.
  pose proof (fmul_between _ _ _ _ _ _ _ _ Bb Ht ltac:(lia) ltac:(lia) ltac:(lia) ltac:(nia)) as Bq.
  simpl Z.add in Bp, Bq.
  pose proof (fadd_between _ _ _ _ _ _ _ Bp Bq ltac:(lia) ltac:(nia)) as Bs.
  destruct (round_between _ _ _ _ b b Bs ltac:(lia) ltac:(simpl; lia) ltac:(simpl; lia))
    as (z & Hz & Hr).
  unfold _lerp. py_eval. rewrite Hfa, Hfb. py_eval. rewrite Hz. py_eval.
  f_equal. lia.
Qed.

Lemma lerp_rgb_range c1 c2 t :
  color_ok c1 → color_ok c2 → between t 0 512 (-9) →
  ∃ col, _lerp_rgb c1 c2 t = Ok col ∧ color_ok col.
Proof.
  destruct c1 as [[r1 g1] b1], c2 as [[r2 g2] b2].
  intros (? & ? & ?) (? & ? & ?) Ht.
  destruct (lerp_range r1 r2 t) as (r & Hr & ?); [done..|].
  destruct (lerp_range g1 g2 t) as (g & Hg & ?); [done..|].
  destruct (lerp_range b1 b2 t) as (b & Hb & ?); [done..|].
  exists (r, g, b). unfold _lerp_rgb. rewrite Hr, Hg, Hb. done.
Qed.

Lemma lerp_rgb_at_zero c1 c2 t :
  color_ok c1 → color_ok c2 → between t 0 0 0 → _lerp_rgb c1 c2 t = Ok c1.
Proof.
  destruct c1 as [[r1 g1] b1], c2 as [[r2 g2] b2].
  intros (? & ? & ?) (? & ? & ?) Ht. unfold _lerp_rgb.
  rewrite !lerp_at_zero by done. done.
Qed.

Lemma lerp_rgb_at_one c1 c2 t :
  color_ok c1 → color_ok c2 → between t 1 1 0 → _lerp_rgb c1 c2 t = Ok c2.
Proof.
  destruct c1 as [[r1 g1] b1], c2 as [[r2 g2] b2].
  intros (? & ? & ?) (? & ? & ?) Ht. unfold _lerp_rgb.
  rewrite !lerp_at_one by done. done.
Qed.

(** The interpolation factor of row [y] lies in the unit interval. *)
Lemma gradient_factor h y :
  1 < h → 0 ≤ y < h →
  ∃ t, true_div y (h - 1) = Ok t ∧ between t 0 512 (-9) ∧
       (y = 0 → between t 0 0 0) ∧ (y = h - 1 → between t 1 1 0).
Proof.
  intros Hh Hy.
  destruct (Z.eq_dec y 0) as [->|Hy0].
  { exists (S754_zero false). unfold true_div.
    replace (h - 1 =? 0) with false by (symmetry; apply Z.eqb_neq; lia).
    replace (h - 1 <? 0) with false by (symmetry; apply Z.ltb_ge; lia).
    simpl. repeat split; try done; lia. }
  destruct (Z.eq_dec y (h - 1)) as [->|Hy1].
  { destruct (true_div_between (h - 1) (h - 1) (2 ^ 52) (2 ^ 52))
      as (t & Ht & Bt); try lia.
    exists t. split; [done|].
    pose proof (between_coarsen _ _ _ _ 52 Bt ltac:(lia)) as B1.
    pose proof (between_coarsen _ _ _ _ 43 Bt ltac:(lia)) as B2.
    change (-52 + 52) with 0 in B1. change (-52 + 43) with (-9) in B2.
    change (2 ^ 52 / 2 ^ 52) with 1 in B1.
    change ((2 ^ 52 + 2 ^ 52 - 1) / 2 ^ 52) with 1 in B1.
    change ((2 ^ 52 + 2 ^ 43 - 1) / 2 ^ 43) with 512 in B2.
    change (2 ^ 52 / 2 ^ 43) with 512 in B2.
    split; [eapply between_weaken; [exact B2|lia|lia]|].
    split; [intros; lia|done]. }
  destruct (true_div_between y (h - 1) 0 (2 ^ 52)) as (t & Ht & Bt); try lia.
  exists t. split; [done|].
  pose proof (between_coarsen _ _ _ _ 43 Bt ltac:(lia)) as B2.
  change (-52 + 43) with (-9) in B2.
  change (0 / 2 ^ 43) with 0 in B2.
  change ((2 ^ 52 + 2 ^ 43 - 1) / 2 ^ 43) with 512 in B2.
  split; [done|]. split; intros; lia.
Qed.

Lemma imap_fill {P : Type} (row : list P) (w : Z) (fill : P) :
  length row = Z.to_nat w →
  imap (λ i p, if (0 <=? Z.of_nat i) && (Z.of_nat i <=? w) then fill else p) row
  = replicate (Z.to_nat w) fill.
Proof.
  intros Hlen. apply list_eq. intros i.
  rewrite list_lookup_imap.
  destruct (row !! i) as [p|] eqn:Hp; simpl.
  - apply lookup_lt_Some in Hp.
    rewrite lookup_replicate_2 by lia.
    replace (0 <=? Z.of_nat i) with true by (symmetry; apply Z.leb_le; lia).
    replace (Z.of_nat i <=? w) with true by (symmetry; apply Z.leb_le; lia).
    done.
  - apply lookup_ge_None in Hp. symmetry. apply lookup_replicate_None. lia.
Qed.

Lemma gradient_loop w h c1 c2 (f : Z → rgb) :
  0 ≤ w →
  (∀ y, 0 ≤ y < h → gradient_color c1 c2 h y = Ok (f y)) →
  ∀ rest done,
    Z.of_nat (length done) + Z.of_nat (length rest) = h →
    Forall (λ row, length row = Z.to_nat w) rest →
    for_each (seqZ (Z.of_nat (length done)) (Z.of_nat (length rest)))
      (λ y img,
         t ← (if 1 <? h then true_div y (h - 1) else Ok zero);
         col ← _lerp_rgb c1 c2 t;
         Ok (ImageDraw_line_h img 0 y w col))
      (Image w h (done ++ rest))
    = Ok (Image w h
            (done ++ map (λ y, replicate (Z.to_nat w) (f y))
                       (seqZ (Z.of_nat (length done)) (Z.of_nat (length rest))))).
Proof.
  intros Hw Hcol rest.
  induction rest as [|row rest IH]; intros done Hlen Hrows.
  { simpl. done. }
  rewrite seqZ_cons by (simpl; lia).
  replace (Z.pred (Z.of_nat (length (row :: rest)))) with (Z.of_nat (length rest))
    by (simpl; lia).
  cbn [for_each map].
  specialize (Hcol (Z.of_nat (length done)) ltac:(simpl in Hlen; lia)).
  unfold gradient_color in Hcol.
  destruct (if 1 <? h then true_div (Z.of_nat (length done)) (h - 1) else Ok zero)
    as [t| |]; [|done..].
  cbn [mbind res_bind] in *. rewrite Hcol. cbn [mbind res_bind].
  unfold ImageDraw_line_h. cbn [height width rows].
  replace (0 <=? Z.of_nat (length done)) with true by (symmetry; apply Z.leb_le; lia).
  replace (Z.of_nat (length done) <? h) with true
    by (symmetry; apply Z.ltb_lt; simpl in Hlen; lia).
  cbn [andb]. rewrite Nat2Z.id.
  rewrite alter_app_r_alt by lia. rewrite Nat.sub_diag. cbn [alter list_alter].
  pose proof (Forall_inv Hrows) as Hrow.
  pose proof (Forall_inv_tail Hrows) as Hrest. cbv beta in Hrow.
  rewrite imap_fill by done.
  specialize (IH (done ++ [replicate (Z.to_nat w) (f (Z.of_nat (length done)))])).
  rewrite length_app in IH. cbn [length] in IH.
  replace (Z.of_nat (length done + 1)) with (Z.succ (Z.of_nat (length done))) in IH by lia.
  rewrite <- !app_assoc in IH. cbn [app] in IH.
  apply IH; [simpl in Hlen; lia|done].
Qed.

Lemma make_gradient_rows w h c1 c2 (f : Z → rgb) :
  0 ≤ w → 0 ≤ h →
  (∀ y, 0 ≤ y < h → gradient_color c1 c2 h y = Ok (f y)) →
  _make_gradient w h c1 c2
  = Ok (Image w h (map (λ y, replicate (Z.to_nat w) (f y)) (seqZ 0 h))).
Proof.
  intros Hw Hh Hcol. unfold _make_gradient, Image_new, range.
  replace (w <? 0) with false by (symmetry; apply Z.ltb_ge; lia).
  replace (h <? 0) with false by (symmetry; apply Z.ltb_ge; lia).
  cbn [orb mbind res_bind].
  pose proof (gradient_loop w h c1 c2 f Hw Hcol
                (replicate (Z.to_nat h) (replicate (Z.to_nat w) c1)) []) as L.
  rewrite length_replicate, Z2Nat.id in L by done.
  cbn [length app] in L. apply L; [lia|].
  apply Forall_replicate. apply length_replicate.
Qed.

Lemma gradient_color_ok c1 c2 h y :
  1 < h → 0 ≤ y < h → color_ok c1 → color_ok c2 →
  ∃ t col, true_div y (h - 1) = Ok t ∧ _lerp_rgb c1 c2 t = Ok col ∧
    color_ok col ∧ gradient_color c1 c2 h y = Ok col ∧
    (y = 0 → col = c1) ∧ (y = h - 1 → col = c2).
Proof.
  intros Hh Hy H1 H2.
  destruct (gradient_factor h y Hh Hy) as (t & Ht & Bt & B0 & B1).
  destruct (lerp_rgb_range c1 c2 t H1 H2 Bt) as (col & Hcol & Hok).
  exists t, col. repeat split; try done.
  - unfold gradient_color.
    replace (1 <? h) with true by (symmetry; apply Z.ltb_lt; lia).
    rewrite Ht. exact Hcol.
  - intros Hy0. rewrite (lerp_rgb_at_zero c1 c2 t H1 H2 (B0 Hy0)) in Hcol.
    congruence.
  - intros Hy1. rewrite (lerp_rgb_at_one c1 c2 t H1 H2 (B1 Hy1)) in Hcol.
    congruence.
Qed.

Lemma has_size_rows {P : Type} (w h : Z) (g : Z → P) :
  0 ≤ h →
  has_size (Image w h (map (λ y, replicate (Z.to_nat w) (g y)) (seqZ 0 h))) w h.
Proof.
  intros Hh. unfold has_size. cbn [width height rows].
  repeat split.
  - rewrite length_map, length_seqZ. done.
  - apply Forall_map, Forall_forall. intros y _. apply length_replicate.
Qed.

Lemma lookup_rows {P : Type} (w h y : Z) (g : Z → P) :
  0 ≤ y < h →
  map (λ y, replicate (Z.to_nat w) (g y)) (seqZ 0 h) !! Z.to_nat y
  = Some (replicate (Z.to_nat w) (g y)).
Proof.
  intros Hy.
  change (map ?f ?l) with (f <$> l). rewrite list_lookup_fmap.
  rewrite lookup_seqZ_lt by lia. simpl. do 3 f_equal. lia.
Qed.

(** C3: for width at least 1, height above 1 and byte colours, the gradient
    is returned without an exception, has the requested size, and every row
    [y] is filled with the one colour [_lerp_rgb c1 c2 (y / (h - 1))], whose
    channels stay in [0, 255]; the top row is [c1] and the bottom row [c2]. *)
Theorem make_gradient_interpolates w h c1 c2 :
  1 ≤ w → 1 < h → color_ok c1 → color_ok c2 →
  ∃ img, _make_gradient w h c1 c2 = Ok img ∧ has_size img w h ∧
    (∀ y, 0 ≤ y < h → ∃ t col,
        true_div y (h - 1) = Ok t ∧ _lerp_rgb c1 c2 t = Ok col ∧
        color_ok col ∧
        rows img !! Z.to_nat y = Some (replicate (Z.to_nat w) col)) ∧
    rows img !! 0%nat = Some (replicate (Z.to_nat w) c1) ∧
    rows img !! Z.to_nat (h - 1) = Some (replicate (Z.to_nat w) c2).
Proof.
  intros Hw Hh H1 H2.
  set (f := λ y, match gradient_color c1 c2 h y with Ok c => c | _ => c1 end).
  assert (Hf : ∀ y, 0 ≤ y < h → gradient_color c1 c2 h y = Ok (f y)).
  { intros y Hy.
    destruct (gradient_color_ok c1 c2 h y Hh Hy H1 H2) as (t & col & _ & _ & _ & Hg & _).
    unfold f. rewrite Hg. done. }
  eexists. split; [apply (make_gradient_rows w h c1 c2 f); [lia|lia|exact Hf]|].
  split; [apply has_size_rows; lia|]. cbn [rows].
  split; [|split].
  - intros y Hy.
    destruct (gradient_color_ok c1 c2 h y Hh Hy H1 H2) as (t & col & Ht & Hc & Hok & Hg & _).
    exists t, col. repeat split; try done.
    rewrite lookup_rows by done. unfold f. rewrite Hg. done.
  - destruct (gradient_color_ok c1 c2 h 0 Hh ltac:(lia) H1 H2)
      as (t & col & _ & _ & _ & Hg & H0 & _).
    rewrite (lookup_rows w h 0) by lia. unfold f. rewrite Hg, H0; done.
  - destruct (gradient_color_ok c1 c2 h (h - 1) Hh ltac:(lia) H1 H2)
      as (t & col & _ & _ & _ & Hg & _ & Hl).
    rewrite lookup_rows by lia. unfold f. rewrite Hg, Hl; done.
Qed.

(** C7: for height 1 the guard on line 48 takes [t = 0.0] where the division
    [0 / (h - 1)] would raise; no exception is raised and the result is the
    single row of [w] pixels, each equal to [c1]. *)
Theorem make_gradient_height_one w c1 c2 :
  1 ≤ w → color_ok c1 → color_ok c2 →
  true_div 0 (1 - 1) = Raise ZeroDivisionError ∧
  _make_gradient w 1 c1 c2 = Ok (Image w 1 [replicate (Z.to_nat w) c1]).
Proof.
  intros Hw H1 H2. split; [reflexivity|].
  rewrite (make_gradient_rows w 1 c1 c2 (λ _, c1)); [done|lia|lia|].
  intros y Hy. unfold gradient_color. cbn [Z.ltb Z.compare mbind res_bind].
  apply lerp_rgb_at_zero; done.
Qed.

(** * Palette selection *)

Section Palette.
Context {G : Type} {RG : Random G}.

Lemma choice_palette g :
  ∃ c, choice palette g = Ok (c, (rng_randbelow 9 g).2) ∧ c ∈ palette.
Proof.
  unfold choice. cbn [length palette Z.of_nat Z.eqb].
  change (Z.of_nat 9) with 9. cbn [Z.eqb].
  pose proof (rng_randbelow_range 9 g ltac:(lia)) as Hr.
  destruct (rng_randbelow 9 g) as [i g'] eqn:Hi. cbn [fst snd] in *.
  destruct (palette !! Z.to_nat i) as [c|] eqn:Hc.
  - exists c. split; [done|]. eapply list_elem_of_lookup_2; done.
  - apply lookup_ge_None in Hc. simpl in Hc. lia.
Qed.

(** The loop exits only with a colour different from [c1], never raises,
    and leaves a palette colour. *)
Lemma while_c2_eq_c1_exit fuel : ∀ c1 c2 g,
  c2 ∈ palette →
  match while_c2_eq_c1 fuel c1 c2 g with
  | Ok (c, _) => c ≠ c1 ∧ c ∈ palette
  | Raise _ => False
  | NoFuel => True
  end.
Proof.
  induction fuel as [|fuel IH]; intros c1 c2 g Hin; cbn [while_c2_eq_c1].
  - destruct (decide (c2 = c1)); done.
  - destruct (decide (c2 = c1)); [|done].
    destruct (choice_palette g) as (c & -> & Hc). cbn [mbind res_bind].
    apply IH; done.
Qed.

(** More fuel does not change a result that was reached. *)
Lemma while_c2_eq_c1_mono fuel : ∀ fuel' c1 c2 g,
  (fuel ≤ fuel')%nat → while_c2_eq_c1 fuel c1 c2 g ≠ NoFuel →
  while_c2_eq_c1 fuel' c1 c2 g = while_c2_eq_c1 fuel c1 c2 g.
Proof.
  induction fuel as [|fuel IH]; intros fuel' c1 c2 g Hle Hne.
  - destruct (decide (c2 = c1)) as [Heq|Hneq].
    + cbn [while_c2_eq_c1] in Hne. rewrite decide_True in Hne by done. done.
    + destruct fuel'; cbn [while_c2_eq_c1]; rewrite !decide_False by done; done.
  - destruct fuel' as [|fuel']; [lia|].
    destruct (decide (c2 = c1)) as [Heq|Hneq].
    + cbn [while_c2_eq_c1] in *.
      rewrite decide_True in Hne by done. rewrite !decide_True by done.
      destruct (choice_palette g) as (c & Hc & _). rewrite Hc in *.
      cbn [mbind res_bind] in *. apply IH; [lia|done].
    + cbn [while_c2_eq_c1]. rewrite !decide_False by done. done.
Qed.

(** The loop ends as soon as a candidate differs from [c1]. *)
Lemma while_c2_eq_c1_ends fuel : ∀ c1 c2 g,
  Exists (λ c, c ≠ c1) (c2 :: palette_draws fuel g) →
  while_c2_eq_c1 fuel c1 c2 g ≠ NoFuel.
Proof.
  induction fuel as [|fuel IH]; intros c1 c2 g Hex; cbn [while_c2_eq_c1].
  - destruct (decide (c2 = c1)) as [->|]; [|done].
    apply Exists_cons in Hex as [?|Hex]; [done|]. inversion Hex.
  - destruct (decide (c2 = c1)) as [->|]; [|done].
    apply Exists_cons in Hex as [?|Hex]; [done|].
    cbn [palette_draws] in Hex.
    destruct (choice_palette g) as (c & Hc & _). rewrite Hc in *.
    cbn [mbind res_bind]. apply IH. done.
Qed.

End Palette.

Lemma u32_range x : 0 ≤ MT.u32 x < 2 ^ 32.
Proof.
  unfold MT.u32, MT.mask32. change 4294967295 with (Z.ones 32).
  rewrite Z.land_ones by lia. apply Z.mod_pos_bound. lia.
Qed.

Lemma genrand_uint32_range s : 0 ≤ (MT.genrand_uint32 s).1 < 2 ^ 32.
Proof.
  unfold MT.genrand_uint32. destruct (MT.N <=? MT.mti s); apply u32_range.
Qed.

Lemma shiftr_range x n k :
  0 ≤ x < 2 ^ n → 0 ≤ k ≤ n → 0 ≤ Z.shiftr x k < 2 ^ (n - k).
Proof.
  intros Hx Hk. rewrite Z.shiftr_div_pow2 by lia.
  pose proof (pow2_pos k ltac:(lia)).
  split; [apply Z.div_pos; lia|].
  apply Z.div_lt_upper_bound; [lia|]. rewrite <- pow2_split by lia.
  replace (k + (n - k)) with n by lia. lia.
Qed.

Lemma mt_random_unit s : between (MT.random s).1 0 1 0.
Proof.
  unfold MT.random.
  pose proof (genrand_uint32_range s) as Ha.
  destruct (MT.genrand_uint32 s) as [a s1]. cbn [fst] in Ha.
  pose proof (genrand_uint32_range s1) as Hb.
  destruct (MT.genrand_uint32 s1) as [b s2]. cbn [fst] in *.
  pose proof (shiftr_range a 32 5 Ha ltac:(lia)) as Ha'.
  pose proof (shiftr_range b 32 6 Hb ltac:(lia)) as Hb'.
  change (2 ^ (32 - 5)) with 134217728 in Ha'.
  change (2 ^ (32 - 6)) with 67108864 in Hb'.
  assert (between (binary_normalize prec emax
                     (Z.shiftr a 5 * 67108864 + Z.shiftr b 6) (-53) false)
            0 (2 ^ 53 - 1) (-53)) as Bk.
  { apply binary_normalize_between; lia. }
  apply (between_coarsen _ _ _ _ 53) in Bk; [|lia].
  exact Bk.
Qed.

Lemma getrandbits_words_nonneg words : ∀ k s,
  0 ≤ (MT.getrandbits_words words k s).1.
Proof.
  induction words as [|words IH]; intros k s; cbn [MT.getrandbits_words fst].
  - lia.
  - pose proof (genrand_uint32_range s) as Hr.
    destruct (MT.genrand_uint32 s) as [r s1]. cbn [fst] in Hr.
    specialize (IH (k - 32) s1).
    destruct (MT.getrandbits_words words (k - 32) s1) as [hi s2]. cbn [fst] in *.
    assert (0 ≤ (if k <? 32 then Z.shiftr r (32 - k) else r)).
    { destruct (k <? 32); [|lia]. apply Z.shiftr_nonneg. lia. }
    lia.
Qed.

Lemma mt_randbelow_loop_range tries : ∀ k n s,
  0 < n → 0 ≤ (MT.randbelow_loop tries k n s).1 < n.
Proof.
  induction tries as [|tries IH]; intros k n s Hn; cbn [MT.randbelow_loop].
  - pose proof (getrandbits_words_nonneg (Z.to_nat ((k - 1) / 32 + 1)) k s) as Hr.
    fold (MT.getrandbits k s) in Hr.
    destruct (MT.getrandbits k s) as [r s']. cbn [fst] in Hr.
    destruct (Z.ltb_spec r n); cbn [fst]; lia.
  - pose proof (getrandbits_words_nonneg (Z.to_nat ((k - 1) / 32 + 1)) k s) as Hr.
    fold (MT.getrandbits k s) in Hr.
    destruct (MT.getrandbits k s) as [r s']. cbn [fst] in Hr.
    destruct (Z.ltb_spec r n); cbn [fst]; [lia|]. apply IH. done.
Qed.

#[global] Instance MT_Random : Random MT.state := {|
  Random_new := MT.seed;
  rng_random := MT.random;
  rng_randbelow := MT.randbelow;
  rng_random_unit := mt_random_unit;
  rng_randbelow_range := λ n s Hn, mt_randbelow_loop_range _ _ n s Hn
|}.

Lemma simple_pow_unit t :
  between t 0 1 0 → between (Simple.pow t (literal 2 1)) 0 1 0.
Proof.
  intros Bt. unfold Simple.pow.
  change (SFeqb (literal 2 1) (literal 2 1)) with true. cbv iota.
  apply (fmul_between t t 0 1 0 1 0 0); try done; lia.
Qed.

#[global] Instance Simple_Libm : Libm := {|
  libm_pow := Simple.pow;
  libm_hypot := Simple.hypot;
  libm_pow_unit := simple_pow_unit
|}.

Lemma has_size_map_pixels {P Q : Type} (f : P → Q) img w h :
  has_size img w h → has_size (map_pixels f img) w h.
Proof.
  intros (Hw & Hh & Hl & Hr). unfold has_size, map_pixels. cbn [width height rows].
  repeat split; try done.
  - rewrite length_map. done.
  - apply Forall_map. eapply Forall_impl; [exact Hr|].
    intros row Hrow. cbn. rewrite length_map. done.
Qed.

Lemma pixel_map_pixels {P Q : Type} (f : P → Q) img x y :
  pixel (map_pixels f img) x y = f <$> pixel img x y.
Proof.
  unfold pixel, map_pixels. cbn [rows].
  destruct ((0 <=? x) && (0 <=? y)); [|done].
  change (map (map f) (rows img)) with (map f <$> rows img).
  rewrite list_lookup_fmap.
  destruct (rows img !! Z.to_nat y) as [row|]; [|done]. cbn.
  change (map f row) with (f <$> row). apply list_lookup_fmap.
Qed.

Lemma simple_paint_ink (img : image Z) ink x y v :
  pixel (Simple.paint img ink) x y = Some v → v = ink ∨ pixel img x y = Some v.
Proof.
  unfold Simple.paint. rewrite pixel_map_pixels.
  destruct (pixel img x y); cbn; [|done]. intros [= <-]. by left.
Qed.

#[global] Instance Simple_Imaging : Imaging := {|
  ImageDraw_ellipse_L := λ img _ ink _, Simple.paint img ink;
  ImageDraw_ellipse_RGBA := λ img _ ink, Simple.paint img ink;
  ImageDraw_line_RGBA := λ img _ ink _, Simple.paint img ink;
  GaussianBlur_L := λ _ img, img;
  GaussianBlur_RGBA := λ _ img, img;
  alpha_over := Simple.over;
  blend_channel := Simple.blend1;
  png_encode := Simple.encode;
  ellipse_L_size := λ img _ ink _ w h, has_size_map_pixels _ img w h;
  ellipse_RGBA_size := λ img _ ink w h, has_size_map_pixels _ img w h;
  line_RGBA_size := λ img _ ink _ w h, has_size_map_pixels _ img w h;
  blur_L_size := λ _ img w h Hs, Hs;
  blur_RGBA_size := λ _ img w h Hs, Hs;
  ellipse_L_ink := λ img _ ink _, simple_paint_ink img ink;
  blur_L_max := λ _ img M Hm, Hm
|}.

(** * Seed derivation *)

Lemma utf8_encode_valid s : valid_text s → ∃ bs, utf8_encode s = Ok bs.
Proof.
  induction 1 as [|c s [Hc Hs] _ (bs & IH)]; [by eexists|].
  cbn [utf8_encode]. rewrite IH.
  assert (∃ b, utf8_encode_char c = Ok b) as (b & ->).
  { unfold utf8_encode_char.
    replace (c <? 0) with false by (symmetry; apply Z.ltb_ge; lia).
    replace (1114111 <? c) with false by (symmetry; apply Z.ltb_ge; lia).
    cbn [orb]. destruct (c <? 128); [by eexists|].
    destruct (c <? 2048); [by eexists|].
    replace ((55296 <=? c) && (c <=? 57343)) with false.
    - destruct (c <? 65536); by eexists.
    - symmetry. apply andb_false_iff.
      destruct (Z.leb_spec 55296 c); [|by left]. right. apply Z.leb_gt. lia. }
  by eexists.
Qed.

Lemma digest_bytes msg :
  ∃ b0 b1 b2 b3 rest,
    MD5.digest msg = b0 :: b1 :: b2 :: b3 :: rest ∧
    0 ≤ b0 < 256 ∧ 0 ≤ b1 < 256 ∧ 0 ≤ b2 < 256 ∧ 0 ≤ b3 < 256 ∧
    length rest = 12%nat.
Proof.
  unfold MD5.digest.
  destruct (foldl MD5.process MD5.init _) as [[[a b] c] d].
  cbn [MD5.le_bytes seq map app].
  do 5 eexists. split; [reflexivity|].
  repeat split; try (apply Z.mod_pos_bound; lia).
Qed.

Lemma hex_value_char n : 0 ≤ n < 16 → hex_value (MD5.hex_char n) = Some n.
Proof.
  intros Hn. unfold MD5.hex_char, hex_value.
  destruct (Z.ltb_spec n 10).
  - replace ((48 <=? 48 + n) && (48 + n <=? 57)) with true; [f_equal; lia|].
    symmetry. apply andb_true_iff. split; apply Z.leb_le; lia.
  - replace ((48 <=? 87 + n) && (87 + n <=? 57)) with false.
    + replace ((97 <=? 87 + n) && (87 + n <=? 102)) with true; [f_equal; lia|].
      symmetry. apply andb_true_iff. split; apply Z.leb_le; lia.
    + symmetry. apply andb_false_iff. right. apply Z.leb_gt. lia.
Qed.

Lemma nibbles b : 0 ≤ b < 256 → 0 ≤ b / 16 < 16 ∧ 0 ≤ b mod 16 < 16.
Proof.
  intros Hb. split; [|apply Z.mod_pos_bound; lia].
  split; [apply Z.div_pos; lia|apply Z.div_lt_upper_bound; lia].
Qed.

(** C5: for every slug that is valid text, the seed is the base-16 value of
    the first eight characters of the MD5 hex digest of the UTF-8 encoded
    slug, that is the first four digest bytes read big-endian; it lies in
    [0, 2^32), and equal slugs give equal seeds. *)
Theorem seed_from_slug_32bit (slug : str) :
  valid_text slug →
  ∃ encoded b0 b1 b2 b3 rest seed,
    utf8_encode slug = Ok encoded ∧
    MD5.digest encoded = b0 :: b1 :: b2 :: b3 :: rest ∧
    int16 (take 8 (MD5.hexdigest encoded)) = Ok seed ∧
    _seed_from_slug slug = Ok seed ∧
    seed = b0 * 2 ^ 24 + b1 * 2 ^ 16 + b2 * 2 ^ 8 + b3 ∧
    0 ≤ seed < 2 ^ 32 ∧
    ∀ slug', slug' = slug → _seed_from_slug slug' = Ok seed.
Proof.
  intros Hv. destruct (utf8_encode_valid slug Hv) as (bs & Hbs).
  destruct (digest_bytes bs) as (b0 & b1 & b2 & b3 & rest & Hd & H0 & H1 & H2 & H3 & _).
  assert (int16 (take 8 (MD5.hexdigest bs))
          = Ok (b0 * 2 ^ 24 + b1 * 2 ^ 16 + b2 * 2 ^ 8 + b3)) as Hint.
  { unfold MD5.hexdigest. rewrite Hd. cbn [flat_map app take int16 int16_from].
    destruct (nibbles b0 H0), (nibbles b1 H1), (nibbles b2 H2), (nibbles b3 H3).
    rewrite !hex_value_char by done. cbn [int16_from].
    pose proof (Z.div_mod b0 16 ltac:(lia)). pose proof (Z.div_mod b1 16 ltac:(lia)).
    pose proof (Z.div_mod b2 16 ltac:(lia)). pose proof (Z.div_mod b3 16 ltac:(lia)).
    change (2 ^ 24) with 16777216. change (2 ^ 16) with 65536.
    change (2 ^ 8) with 256. rewrite take_0. cbn [int16_from]. f_equal. lia. }
  assert (_seed_from_slug slug
          = Ok (b0 * 2 ^ 24 + b1 * 2 ^ 16 + b2 * 2 ^ 8 + b3)) as Hseed.
  { unfold _seed_from_slug. rewrite Hbs. exact Hint. }
  exists bs, b0, b1, b2, b3, rest, (b0 * 2 ^ 24 + b1 * 2 ^ 16 + b2 * 2 ^ 8 + b3).
  change (2 ^ 32) with 4294967296. change (2 ^ 24) with 16777216 in *.
  change (2 ^ 16) with 65536 in *. change (2 ^ 8) with 256 in *.
  repeat split; try done; try lia.
  intros slug' ->. done.
Qed.

Section PickPalette.
Context {G : Type} {RG : Random G}.

Lemma pick_palette_result fuel seed :
  match _pick_palette fuel seed with
  | Ok (c1, c2, accent) =>
      c1 ≠ c2 ∧ c1 ∈ palette ∧ c2 ∈ palette ∧ accent ∈ palette
  | Raise _ => False
  | NoFuel => True
  end.
Proof.
  unfold _pick_palette.
  destruct (choice_palette (Random_new seed)) as (c1 & -> & Hc1).
  cbn [mbind res_bind].
  destruct (choice_palette (rng_randbelow 9 (Random_new seed)).2) as (c2 & -> & Hc2).
  cbn [mbind res_bind].
  pose proof (while_c2_eq_c1_exit fuel c1 c2
                (rng_randbelow 9 (rng_randbelow 9 (Random_new seed)).2).2 Hc2) as Hw.
  destruct (while_c2_eq_c1 fuel c1 c2 _) as [[c g]| |]; [|done..].
  cbn [mbind res_bind].
  destruct (choice_palette g) as (accent & -> & Ha). cbn [mbind res_bind].
  destruct Hw as [Hne Hc]. repeat split; done.
Qed.

Lemma pick_palette_ends fuel seed c1 g1 :
  choice palette (Random_new seed) = Ok (c1, g1) →
  Exists (λ c, c ≠ c1) (palette_draws (S fuel) g1) →
  _pick_palette fuel seed ≠ NoFuel.
Proof.
  intros Hc1 Hex. unfold _pick_palette. rewrite Hc1. cbn [mbind res_bind].
  cbn [palette_draws] in Hex.
  destruct (choice_palette g1) as (c2 & Hc2 & Hin). rewrite Hc2 in *.
  cbn [mbind res_bind].
  pose proof (while_c2_eq_c1_ends fuel c1 c2 _ Hex) as Hne.
  pose proof (while_c2_eq_c1_exit fuel c1 c2 (rng_randbelow 9 g1).2 Hin) as Hw.
  destruct (while_c2_eq_c1 fuel c1 c2 _) as [[c g]| |]; [|done..].
  cbn [mbind res_bind].
  destruct (choice_palette g) as (accent & -> & Ha). done.
Qed.

Lemma pick_palette_mono fuel fuel' seed :
  (fuel ≤ fuel')%nat → _pick_palette fuel seed ≠ NoFuel →
  _pick_palette fuel' seed = _pick_palette fuel seed.
Proof.
  intros Hle. unfold _pick_palette.
  destruct (choice_palette (Random_new seed)) as (c1 & -> & Hc1).
  cbn [mbind res_bind].
  destruct (choice_palette (rng_randbelow 9 (Random_new seed)).2) as (c2 & -> & Hc2).
  cbn [mbind res_bind]. intros Hne.
  rewrite (while_c2_eq_c1_mono fuel fuel'); [done|done|].
  intros Hw. rewrite Hw in Hne. done.
Qed.

End PickPalette.

(** C2: palette selection never raises and whenever it returns, with any
    generator and seed, the two background colours differ and all three
    colours are palette entries; it returns as soon as one candidate for
    [c2] differs from [c1], and more fuel does not change the result.  The
    accent is one more draw with no check: with CPython's generator, seed 11
    gives an accent equal to [c1] and seed 2 an accent equal to [c2]. *)
Theorem pick_palette_distinct :
  (∀ (G : Type) (R : Random G) (fuel : nat) (seed : Z),
     match _pick_palette fuel seed with
     | Ok (c1, c2, accent) =>
         c1 ≠ c2 ∧ c1 ∈ palette ∧ c2 ∈ palette ∧ accent ∈ palette
     | Raise _ => False
     | NoFuel => True
     end) ∧
  (∀ (G : Type) (R : Random G) (fuel : nat) (seed : Z) c1 g1,
     choice palette (Random_new seed) = Ok (c1, g1) →
     Exists (λ c, c ≠ c1) (palette_draws (S fuel) g1) →
     _pick_palette fuel seed ≠ NoFuel) ∧
  (∀ (G : Type) (R : Random G) (fuel fuel' : nat) (seed : Z),
     (fuel ≤ fuel')%nat → _pick_palette fuel seed ≠ NoFuel →
     _pick_palette fuel' seed = _pick_palette fuel seed) ∧
  _pick_palette (G := MT.state) 0 11
    = Ok ((244, 63, 94), (245, 158, 11), (244, 63, 94)) ∧
  _pick_palette (G := MT.state) 0 2
    = Ok ((6, 10, 25), (15, 23, 42), (15, 23, 42)).
Proof.
  split; [intros; apply pick_palette_result|].
  split; [intros; eapply pick_palette_ends; done|].
  split; [intros; apply pick_palette_mono; done|].
  split; vm_compute; reflexivity.
Qed.

(** With CPython's generator, seed 58 resamples [c2] twice. *)
Example pick_palette_seed_58 :
  _pick_palette (G := MT.state) 1 58 = NoFuel ∧
  _pick_palette (G := MT.state) 2 58
    = Ok ((2, 132, 199), (6, 10, 25), (2, 132, 199)).
Proof. split; vm_compute; reflexivity. Qed.

(** * Rasters *)

Lemma for_each_inv {A S : Type} (Inv : S → Prop) (xs : list A)
    (body : A → S → res S) :
  (∀ x s, x ∈ xs → Inv s → ∃ s', body x s = Ok s' ∧ Inv s') →
  ∀ s, Inv s → ∃ s', for_each xs body s = Ok s' ∧ Inv s'.
Proof.
  induction xs as [|x xs IH]; intros Hbody s Hs; cbn [for_each].
  - by exists s.
  - destruct (Hbody x s) as (s1 & -> & H1); [by left|done|].
    cbn [mbind res_bind]. apply IH; [|done].
    intros x' s' Hx'. apply Hbody. by right.
Qed.

Lemma Image_new_ok {P : Type} (w h : Z) (c : P) :
  0 ≤ w → 0 ≤ h →
  Image_new (w, h) c
  = Ok (Image w h (replicate (Z.to_nat h) (replicate (Z.to_nat w) c))).
Proof.
  intros Hw Hh. unfold Image_new.
  replace (w <? 0) with false by (symmetry; apply Z.ltb_ge; lia).
  replace (h <? 0) with false by (symmetry; apply Z.ltb_ge; lia).
  done.
Qed.

Lemma has_size_replicate {P : Type} (w h : Z) (c : P) :
  has_size (Image w h (replicate (Z.to_nat h) (replicate (Z.to_nat w) c))) w h.
Proof.
  unfold has_size. cbn [width height rows]. repeat split.
  - apply length_replicate.
  - apply Forall_replicate, length_replicate.
Qed.

Lemma pixel_replicate {P : Type} (w h x y : Z) (c v : P) :
  pixel (Image w h (replicate (Z.to_nat h) (replicate (Z.to_nat w) c))) x y
  = Some v → v = c.
Proof.
  unfold pixel. cbn [rows]. destruct ((0 <=? x) && (0 <=? y)); [|done].
  destruct (replicate (Z.to_nat h) _ !! Z.to_nat y) as [row|] eqn:Hrow; [|done].
  apply lookup_replicate in Hrow as [-> _]. cbn.
  intros Hv. apply lookup_replicate in Hv as [-> _]. done.
Qed.

Lemma has_size_same {P Q : Type} (a : image P) (b : image Q) w h :
  has_size a w h → has_size b w h → same_size a b = true.
Proof.
  intros (Hw & Hh & _) (Hw' & Hh' & _). unfold same_size.
  rewrite Hw, Hh, Hw', Hh', !Z.eqb_refl. done.
Qed.

Lemma has_size_zip_pixels {P Q R : Type} (f : P → Q → R) a b w h :
  has_size a w h → has_size b w h → has_size (zip_pixels f a b) w h.
Proof.
  intros (Hw & Hh & Hl & Hr) (Hw' & Hh' & Hl' & Hr').
  unfold has_size, zip_pixels. cbn [width height rows].
  repeat split; try done.
  - rewrite length_zip_with. lia.
  - apply Forall_lookup. intros i row Hi.
    apply lookup_zip_with_Some in Hi as (ra & rb & -> & Ha & Hb).
    rewrite length_zip_with.
    rewrite (Forall_lookup_1 _ _ _ _ Hr Ha), (Forall_lookup_1 _ _ _ _ Hr' Hb). lia.
Qed.

Lemma pixel_zip_pixels {P Q R : Type} (f : P → Q → R) a b x y :
  pixel (zip_pixels f a b) x y
  = (p ← pixel a x y; q ← pixel b x y; Some (f p q)).
Proof.
  unfold pixel, zip_pixels. cbn [rows].
  destruct ((0 <=? x) && (0 <=? y)); [|done].
  rewrite lookup_zip_with.
  destruct (rows a !! Z.to_nat y) as [ra|]; [|done]. cbn.
  destruct (rows b !! Z.to_nat y) as [rb|]; cbn.
  - rewrite lookup_zip_with. done.
  - destruct (ra !! Z.to_nat x); done.
Qed.

Lemma pixel_inside {P : Type} (img : image P) w h x y :
  has_size img w h → 0 ≤ x < w → 0 ≤ y < h → is_Some (pixel img x y).
Proof.
  intros (_ & _ & Hl & Hr) Hx Hy. unfold pixel.
  replace (0 <=? x) with true by (symmetry; apply Z.leb_le; lia).
  replace (0 <=? y) with true by (symmetry; apply Z.leb_le; lia).
  cbn [andb].
  destruct (lookup_lt_is_Some_2 (rows img) (Z.to_nat y)) as [row Hrow]; [lia|].
  rewrite Hrow. cbn.
  apply lookup_lt_is_Some_2. rewrite (Forall_lookup_1 _ _ _ _ Hr Hrow). lia.
Qed.

Lemma pixel_outside {P : Type} (img : image P) w h x y v :
  has_size img w h → pixel img x y = Some v → 0 ≤ x < w ∧ 0 ≤ y < h.
Proof.
  intros (_ & _ & Hl & Hr). unfold pixel.
  destruct (Z.leb_spec 0 x), (Z.leb_spec 0 y); cbn [andb]; try done.
  destruct (rows img !! Z.to_nat y) as [row|] eqn:Hrow; [|done]. cbn.
  intros Hv. apply lookup_lt_Some in Hv.
  rewrite (Forall_lookup_1 _ _ _ _ Hr Hrow) in Hv.
  apply lookup_lt_Some in Hrow. lia.
Qed.

(** * The vignette *)

(** A quotient of a 53-bit integer by a positive integer is a float. *)
Lemma true_div_bounded a b :
  0 ≤ a < 2 ^ 53 → 0 < b → ∃ t, true_div a b = Ok t ∧ between t 0 a 0.
Proof.
  intros Ha Hb. unfold true_div.
  replace (b =? 0) with false by (symmetry; apply Z.eqb_neq; lia).
  destruct (Z.eqb_spec a 0) as [->|Ha0].
  { eexists; split; [done|]. simpl. lia. }
  replace (a <? 0) with false by (symmetry; apply Z.ltb_ge; lia).
  replace (b <? 0) with false by (symmetry; apply Z.ltb_ge; lia).
  rewrite !Z.abs_eq by lia. unfold SFdiv_core_binary.
  rewrite !Z.add_0_r, Z.sub_0_r.
  assert (Zdigits2 a ≤ 53) as Hda by (apply Zdigits2_le; lia).
  assert (1 ≤ Zdigits2 b) as Hdb by (destruct b; simpl; lia).
  set (e' := Z.min (fexp prec emax (Zdigits2 a - Zdigits2 b)) 0).
  assert (-1074 ≤ e' ≤ -1) as He' by (unfold e'; rewrite fexp_eq; lia).
  replace (0 - e') with (- e') by lia.
  destruct (- e') as [|s|s] eqn:Hs; try lia.
  rewrite Z.shiftl_mul_pow2 by lia.
  pose proof (pow2_pos (Z.pos s) ltac:(lia)) as HP.
  pose proof (Z_div_mod (a * 2 ^ Z.pos s) b ltac:(lia)) as Hdm.
  destruct (Z.div_eucl (a * 2 ^ Z.pos s) b) as [q r]. cbn beta iota. simpl xorb.
  destruct Hdm as [Hdq Hr].
  assert (between (binary_round_aux prec emax false q e' (new_location b r))
            0 a 0) as Hbt.
  { assert (0 ≤ q) by nia.
    apply binary_round_aux_between; try lia.
    replace (0 - e') with (Z.pos s) by lia.
    rewrite inex_new_location. destruct (Z.eqb_spec r 0); nia. }
  eexists; split; [|exact Hbt]. eapply between_finite; done.
Qed.

Lemma composite_pixel (image1 image2 : image rgb) (mask : image Z) x y
    r1 g1 b1 r2 g2 b2 m :
  pixel image1 x y = Some (r1, g1, b1) →
  pixel image2 x y = Some (r2, g2, b2) →
  pixel mask x y = Some m →
  pixel (zip_pixels
           (λ '((r1, g1, b1), (r2, g2, b2)) m,
              (mask_blend m r2 r1, mask_blend m g2 g1, mask_blend m b2 b1))
           (zip_pixels pair image1 image2) mask) x y
  = Some (div255 (r2 * (255 - m) + r1 * m),
          div255 (g2 * (255 - m) + g1 * m),
          div255 (b2 * (255 - m) + b1 * m)).
Proof.
  intros H1 H2 Hm. rewrite !pixel_zip_pixels, H1, H2, Hm. done.
Qed.

(** Size checks of images known to have the same size succeed. *)
Ltac same_size_true w h :=
  repeat match goal with
  | |- context [@same_size ?P ?Q ?a ?b] =>
      replace (@same_size P Q a b) with true
        by (symmetry; apply (has_size_same a b w h); done)
  end.

Section Vignette.
Context {IM : Imaging} {LM : Libm}.

Lemma vignette_alpha_range t :
  between t 0 1 0 →
  ∃ alpha, vignette_alpha t (literal 55 100) = Ok alpha ∧ 0 ≤ alpha ≤ 140.
Proof.
  intros Bt. unfold vignette_alpha, py_pow.
  change (of_int 2) with (Ok (literal 2 1)). cbn [mbind res_bind].
  pose proof (libm_pow_unit t Bt) as Bp.
  rewrite (between_finite _ _ _ _ Bp). py_eval.
  change (of_int 255) with (Ok (literal 255 1)). py_eval.
  assert (between (literal 255 1) 255 255 0) as B255 by (vm_compute; repeat split; discriminate).
  assert (between (literal 55 100) 563 564 (-10)) as Bs by (vm_compute; repeat split; discriminate).
  pose proof (fmul_between _ _ _ _ _ _ _ _ B255 Bp ltac:(lia) ltac:(lia) ltac:(lia) ltac:(lia)) as Ba.
  pose proof (fmul_between _ _ _ _ _ _ _ _ Ba Bs ltac:(lia) ltac:(lia) ltac:(lia) ltac:(lia)) as Bb.
  cbn [Z.add Z.mul Pos.mul] in Bb.
  destruct (trunc_between _ _ _ _ 0 140 Bb ltac:(lia) ltac:(simpl; lia) ltac:(simpl; lia))
    as (z & Hz & Hr).
  exists z. done.
Qed.

Lemma vignette_factor i :
  0 ≤ i < 40 → ∃ t, true_div i (40 - 1) = Ok t ∧ between t 0 1 0.
Proof.
  intros Hi.
  destruct (true_div_between i (40 - 1) 0 (2 ^ 52)) as (t & Ht & Bt); try lia.
  exists t. split; [done|].
  apply (between_coarsen _ _ _ _ 52) in Bt; [|lia]. exact Bt.
Qed.

(** Every ring is drawn, and none writes a value above 140. *)
Lemma vignette_ring_max cx cy max_r i (mask : image Z) w h :
  0 ≤ i < 40 → has_size mask w h →
  (∀ x y v, pixel mask x y = Some v → v ≤ 140) →
  ∃ mask', vignette_ring cx cy max_r (literal 55 100) 40 i mask = Ok mask' ∧
    has_size mask' w h ∧ ∀ x y v, pixel mask' x y = Some v → v ≤ 140.
Proof.
  intros Hi Hs Hmax. unfold vignette_ring.
  destruct (vignette_factor i Hi) as (t & Ht & Bt).
  change (1 <? 40) with true. cbv iota. rewrite Ht. cbn [mbind res_bind].
  destruct (vignette_alpha_range t Bt) as (alpha & -> & Ha).
  cbn [mbind res_bind]. eexists. split; [done|]. split.
  - apply ellipse_L_size. done.
  - intros x y v Hv. apply ellipse_L_ink in Hv as [->|Hv]; [lia|].
    eapply Hmax. done.
Qed.

Lemma vignette_mask_max (img : image rgb) w h :
  has_size img w h → 0 ≤ w < 2 ^ 31 → 0 ≤ h < 2 ^ 31 →
  ∃ mask, vignette_mask img (literal 55 100) = Ok mask ∧ has_size mask w h ∧
    ∀ x y m, pixel mask x y = Some m → m ≤ 140.
Proof.
  intros Hs Hw Hh. unfold vignette_mask, size.
  destruct Hs as (Ew & Eh & Hs). rewrite Ew, Eh.
  rewrite Image_new_ok by lia. cbn [mbind res_bind].
  destruct (true_div_bounded w 2) as (cx & -> & _); [lia|lia|].
  destruct (true_div_bounded h 2) as (cy & -> & _); [lia|lia|].
  cbn [mbind res_bind].
  destruct (for_each_inv
              (λ m : image Z, has_size m w h ∧
                 ∀ x y v, pixel m x y = Some v → v ≤ 140)
              (range 40)
              (vignette_ring cx cy (libm_hypot cx cy) (literal 55 100) 40))
    with (s := Image w h (replicate (Z.to_nat h) (replicate (Z.to_nat w) 0)))
    as (mask & -> & Hm & Hmax).
  - intros i m Hi [Hm Hmax]. apply elem_of_seqZ in Hi.
    destruct (vignette_ring_max cx cy (libm_hypot cx cy) i m w h)
      as (m' & Hr & ? & ?); [lia|done|done|].
    exists m'. done.
  - split; [apply has_size_replicate|].
    intros x y v Hv. apply pixel_replicate in Hv. lia.
  - cbn [mbind res_bind]. eexists. split; [done|]. split.
    + apply blur_L_size. done.
    + apply blur_L_max. done.
Qed.

(** The composite of [_add_vignette], for any mask of the image's size: the
    weight of the input pixel is [255 - m], that of black is [m]. *)
Lemma add_vignette_composite (img : image rgb) strength mask w h :
  has_size img w h → 0 ≤ w → 0 ≤ h →
  vignette_mask img strength = Ok mask → has_size mask w h →
  ∃ out, _add_vignette img strength = Ok out ∧ has_size out w h ∧
    ∀ x y r g b m, pixel img x y = Some (r, g, b) → pixel mask x y = Some m →
      pixel out x y = Some (div255 (r * (255 - m)),
                            div255 (g * (255 - m)),
                            div255 (b * (255 - m))).
Proof.
  intros Hs Hw Hh Hmask Hms.
  unfold _add_vignette, size. rewrite Hmask. cbn [mbind res_bind].
  pose proof Hs as (Ew & Eh & _). rewrite Ew, Eh.
  rewrite Image_new_ok by lia. cbn [mbind res_bind].
  pose proof (has_size_replicate (P := rgb) w h (0, 0, 0)) as Hd.
  unfold Image_composite.
  eexists. same_size_true w h. cbn [andb]. split; [reflexivity|]. split.
  { apply has_size_zip_pixels; [|done]. apply has_size_zip_pixels; done. }
  intros x y r g b m Hp Hm.
  destruct (pixel_outside _ _ _ _ _ _ Hs Hp) as [Hx Hy].
  destruct (pixel_inside _ w h x y Hd Hx Hy) as [d Hdp].
  pose proof (pixel_replicate _ _ _ _ _ _ Hdp) as ->.
  erewrite composite_pixel; [|exact Hdp|exact Hp|exact Hm].
  rewrite !Z.mul_0_l, !Z.add_0_r. done.
Qed.

(** The stage returns an image of the size of its input. *)
Lemma add_vignette_ok (img : image rgb) w h :
  has_size img w h → 0 ≤ w < 2 ^ 31 → 0 ≤ h < 2 ^ 31 →
  ∃ out, _add_vignette img (literal 55 100) = Ok out ∧ has_size out w h.
Proof.
  intros Hs Hw Hh.
  destruct (vignette_mask_max img w h Hs Hw Hh) as (mask & Hmask & Hms & _).
  destruct (add_vignette_composite img _ mask w h Hs ltac:(lia) ltac:(lia)
              Hmask Hms) as (out & Ho & So & _).
  exists out. done.
Qed.

(** C10: at strength 0.55 every ring is drawn with an outline value of at
    most [int(255 * 0.55) = 140]; the blurred mask is at most 140 at every
    pixel; and the composite weighs every pixel of the input image by
    [255 - m ≥ 115], so that it is never replaced by black. *)
Theorem add_vignette_keeps_image (img : image rgb) w h :
  has_size img w h → 0 ≤ w < 2 ^ 31 → 0 ≤ h < 2 ^ 31 →
  (a ← num_mul (I 255) (F (literal 55 100)); py_int a) = Ok 140 ∧
  (∀ i, 0 ≤ i < 40 →
     ∃ t alpha, true_div i (40 - 1) = Ok t ∧
       vignette_alpha t (literal 55 100) = Ok alpha ∧ 0 ≤ alpha ≤ 140) ∧
  ∃ mask out,
    vignette_mask img (literal 55 100) = Ok mask ∧ has_size mask w h ∧
    (∀ x y m, pixel mask x y = Some m → m ≤ 140 ∧ 140 < 255) ∧
    _add_vignette img (literal 55 100) = Ok out ∧ has_size out w h ∧
    ∀ x y r g b, pixel img x y = Some (r, g, b) →
      ∃ m, pixel mask x y = Some m ∧ 115 ≤ 255 - m ∧
        pixel out x y = Some (div255 (r * (255 - m)),
                              div255 (g * (255 - m)),
                              div255 (b * (255 - m))).
Proof.
  intros Hs Hw Hh. split; [vm_compute; reflexivity|]. split.
  { intros i Hi. destruct (vignette_factor i Hi) as (t & Ht & Bt).
    destruct (vignette_alpha_range t Bt) as (alpha & Ha & Hr).
    exists t, alpha. done. }
  destruct (vignette_mask_max img w h Hs Hw Hh) as (mask & Hmask & Hms & Hmax).
  destruct (add_vignette_composite img _ mask w h Hs ltac:(lia) ltac:(lia)
              Hmask Hms) as (out & Ho & So & Hpix).
  exists mask, out. split; [done|]. split; [done|].
  split; [intros x y m Hm; split; [eapply Hmax; done|lia]|].
  split; [done|]. split; [done|].
  intros x y r g b Hp.
  destruct (pixel_outside _ _ _ _ _ _ Hs Hp) as [Hx Hy].
  destruct (pixel_inside mask w h x y Hms Hx Hy) as [m Hm].
  exists m. split; [done|]. split; [specialize (Hmax _ _ _ Hm); lia|].
  exact (Hpix x y r g b m Hp Hm).
Qed.

End Vignette.

(** * The shape overlay *)

Section Shapes.
Context {G : Type} {RG : Random G} {IM : Imaging}.

Lemma uniform_float a b g :
  uniform (F a) (F b) g
  = Ok (F (fadd a (fmul (fsub b a) (rng_random g).1)), rng_next g).
Proof.
  unfold uniform, rng_next. destruct (rng_random g) as [r g']. done.
Qed.

Lemma uniform_int a b g :
  0 ≤ a ≤ b → b < 2 ^ 52 →
  ∃ u, uniform (I a) (I b) g = Ok (F u, rng_next g) ∧ between u a b 0.
Proof.
  intros Hab Hb. unfold uniform, rng_next.
  pose proof (rng_random_unit g) as Br.
  destruct (rng_random g) as [r g']. cbn [fst snd] in *. py_eval.
  destruct (of_int_between (b - a) ltac:(lia)) as (fd & -> & Bd).
  destruct (of_int_between a ltac:(lia)) as (fa & -> & Ba). py_eval.
  pose proof (fmul_between _ _ _ _ _ _ _ _ Bd Br ltac:(lia) ltac:(lia) ltac:(lia) ltac:(lia)) as Bp.
  pose proof (fadd_between _ _ _ _ _ _ _ Ba Bp ltac:(lia) ltac:(lia)) as Bu.
  eexists. split; [done|].
  eapply between_weaken; [exact Bu|lia|lia].
Qed.

(** [int(rng.uniform(a, b))] lies between the integers [a] and [b]. *)
Lemma int_uniform a b g :
  0 ≤ a ≤ b → b < 2 ^ 52 →
  ∃ u z, uniform (I a) (I b) g = Ok (u, rng_next g) ∧
    py_int u = Ok z ∧ a ≤ z ≤ b.
Proof.
  intros Hab Hb. destruct (uniform_int a b g Hab Hb) as (u & Hu & Bu).
  destruct (trunc_between _ _ _ _ a b Bu ltac:(lia) ltac:(simpl; lia) ltac:(simpl; lia))
    as (z & Hz & Hr).
  exists (F u), z. done.
Qed.

Lemma num_mul_size u n :
  0 ≤ n < 2 ^ 53 → ∃ x, num_mul (F u) (I n) = Ok (F x).
Proof.
  intros Hn. destruct (of_int_between n Hn) as (fn & Hfn & _).
  py_eval. rewrite Hfn. by eexists.
Qed.

Lemma shapes_circle_args_ok w h accent g :
  0 ≤ w < 2 ^ 53 → 0 ≤ h < 2 ^ 53 →
  ∃ xy r g' b alpha,
    shapes_circle_args w h accent g
    = Ok (xy, (r, g', b, alpha), Nat.iter 5 rng_next g) ∧
    ((r, g', b) = accent ∨ (r, g', b) = (255, 255, 255)) ∧
    18 ≤ alpha ≤ 55.
Proof.
  intros Hw Hh. unfold shapes_circle_args.
  rewrite uniform_float. cbn [mbind res_bind].
  destruct (num_mul_size (fadd (literal (-1) 10)
              (fmul (fsub (literal 11 10) (literal (-1) 10)) (rng_random g).1)) w Hw)
    as (x & ->).
  cbn [mbind res_bind]. rewrite uniform_float. cbn [mbind res_bind].
  destruct (num_mul_size (fadd (literal (-1) 10)
              (fmul (fsub (literal 11 10) (literal (-1) 10))
                 (rng_random (rng_next g)).1)) h Hh)
    as (y & ->).
  cbn [mbind res_bind].
  destruct (uniform_int 80 220 (rng_next (rng_next g))) as (r & -> & _); [lia..|].
  cbn [mbind res_bind].
  set (g3 := rng_next (rng_next (rng_next g))).
  destruct (rng_random g3) as [p g4] eqn:Hp.
  assert (g4 = rng_next g3) as -> by (unfold rng_next; rewrite Hp; done).
  destruct (int_uniform 18 55 (rng_next g3)) as (u & alpha & Hu & Ha & Hr); [lia..|].
  destruct accent as [[a0 a1] a2].
  destruct (flt p (literal 6 10));
    rewrite Hu; cbn [mbind res_bind]; rewrite Ha; py_eval;
    do 5 eexists; (split; [reflexivity|]); split; auto.
Qed.

Lemma shapes_line_args_ok w h accent g :
  0 ≤ w < 2 ^ 52 → 0 ≤ h < 2 ^ 52 →
  ∃ xy alpha width,
    shapes_line_args w h accent g
    = Ok (xy, (accent.1.1, accent.1.2, accent.2, alpha), width,
          Nat.iter 6 rng_next g) ∧
    2 ≤ width ≤ 6 ∧ 10 ≤ alpha ≤ 26.
Proof.
  intros Hw Hh. unfold shapes_line_args.
  destruct (uniform_int 0 w g) as (x1 & -> & _); [lia..|]. cbn [mbind res_bind].
  destruct (uniform_int 0 h (rng_next g)) as (y1 & -> & _); [lia..|].
  cbn [mbind res_bind].
  destruct (uniform_int 0 w (rng_next (rng_next g))) as (x2 & -> & _); [lia..|].
  cbn [mbind res_bind].
  destruct (uniform_int 0 h (rng_next (rng_next (rng_next g))))
    as (y2 & -> & _); [lia..|].
  cbn [mbind res_bind].
  destruct (int_uniform 2 6 (rng_next (rng_next (rng_next (rng_next g)))))
    as (u & width & Hu & Hi & Hwd); [lia..|].
  rewrite Hu. cbn [mbind res_bind]. rewrite Hi. cbn [mbind res_bind].
  destruct (int_uniform 10 26
              (rng_next (rng_next (rng_next (rng_next (rng_next g))))))
    as (u' & alpha & Hu' & Hi' & Ha); [lia..|].
  rewrite Hu'. cbn [mbind res_bind]. rewrite Hi'. cbn [mbind res_bind].
  destruct accent as [[a0 a1] a2].
  do 3 eexists. split; [reflexivity|]. done.
Qed.

Lemma iter_add {A : Type} (f : A → A) n m x :
  Nat.iter n f (Nat.iter m f x) = Nat.iter (n + m) f x.
Proof. symmetry. apply Nat.iter_add. Qed.

Lemma sample_many_ok {A : Type} (sample : G → res (A * G)) (k : nat)
    (good : A → Prop) :
  (∀ g, ∃ a, sample g = Ok (a, Nat.iter k rng_next g) ∧ good a) →
  ∀ n g, ∃ l, sample_many n sample g = Ok (l, Nat.iter (n * k) rng_next g) ∧
    length l = n ∧ Forall good l.
Proof.
  intros Hs. induction n as [|n IH]; intros g; cbn [sample_many].
  - exists []. done.
  - destruct (Hs g) as (a & -> & Ha). cbn [mbind res_bind].
    destruct (IH (Nat.iter k rng_next g)) as (l & -> & Hl & Hg).
    cbn [mbind res_bind]. exists (a :: l).
    rewrite iter_add. replace (n * k + k)%nat with (S n * k)%nat by lia.
    cbn [length]. auto.
Qed.

Lemma circles_loop w h accent xs : ∀ layer rng,
  for_each xs (shapes_circle w h accent) (layer, rng)
  = ('(cs, rng') ← sample_many (length xs) (shapes_circle_args w h accent) rng;
     Ok (foldl draw_circle layer cs, rng')).
Proof.
  induction xs as [|x xs IH]; intros layer rng; [done|].
  cbn [for_each length sample_many shapes_circle].
  destruct (shapes_circle_args w h accent rng) as [[[xy fill] rng1]| |]; [|done..].
  cbn [mbind res_bind]. rewrite IH.
  destruct (sample_many _ _ rng1) as [[cs rng2]| |]; done.
Qed.

Lemma lines_loop w h accent xs : ∀ layer rng,
  for_each xs (shapes_line w h accent) (layer, rng)
  = ('(ls, rng') ← sample_many (length xs) (shapes_line_args w h accent) rng;
     Ok (foldl draw_line layer ls, rng')).
Proof.
  induction xs as [|x xs IH]; intros layer rng; [done|].
  cbn [for_each length sample_many shapes_line].
  destruct (shapes_line_args w h accent rng) as [[[[xy col] wd] rng1]| |]; [|done..].
  cbn [mbind res_bind]. rewrite IH.
  destruct (sample_many _ _ rng1) as [[ls rng2]| |]; done.
Qed.

Lemma foldl_has_size {A : Type} (draw : image rgba → A → image rgba) w h :
  (∀ layer a, has_size layer w h → has_size (draw layer a) w h) →
  ∀ l layer, has_size layer w h → has_size (foldl draw layer l) w h.
Proof.
  intros Hd l. induction l as [|a l IH]; intros layer Hs; [done|].
  cbn. apply IH, Hd, Hs.
Qed.

(** What the two loops sample, from any generator. *)
Lemma shapes_samples w h accent (g : G) :
  0 ≤ w < 2 ^ 31 → 0 ≤ h < 2 ^ 31 →
  ∃ circles lines,
    sample_many 22 (shapes_circle_args w h accent) g
    = Ok (circles, Nat.iter 110 rng_next g) ∧
    sample_many 16 (shapes_line_args w h accent) (Nat.iter 110 rng_next g)
    = Ok (lines, Nat.iter 206 rng_next g) ∧
    length circles = 22%nat ∧
    Forall (λ '(_, (r, g, b, alpha)),
              ((r, g, b) = accent ∨ (r, g, b) = (255, 255, 255)) ∧
              18 ≤ alpha ≤ 55) circles ∧
    length lines = 16%nat ∧
    Forall (λ '(_, (r, g, b, alpha), width),
              (r, g, b) = accent ∧ 2 ≤ width ≤ 6 ∧ 10 ≤ alpha ≤ 26) lines.
Proof.
  intros Hw Hh.
  assert (2 ^ 31 < 2 ^ 52) as Hp by (vm_compute; done).
  destruct (sample_many_ok (shapes_circle_args w h accent) 5
              (λ '(_, (r, g, b, alpha)),
                 ((r, g, b) = accent ∨ (r, g, b) = (255, 255, 255)) ∧
                 18 ≤ alpha ≤ 55)) with (n := 22%nat) (g := g)
    as (circles & Hc & Lc & Fc).
  { intros g1.
    destruct (shapes_circle_args_ok w h accent g1) as (xy & r & g' & b & a & E & ?);
      [change (2 ^ 53) with 9007199254740992; change (2 ^ 31) with 2147483648 in *; lia..|].
    exists (xy, (r, g', b, a)). done. }
  destruct (sample_many_ok (shapes_line_args w h accent) 6
              (λ '(_, (r, g, b, alpha), width),
                 (r, g, b) = accent ∧ 2 ≤ width ≤ 6 ∧ 10 ≤ alpha ≤ 26))
    with (n := 16%nat) (g := Nat.iter 110 rng_next g)
    as (lines & Hl & Ll & Fl).
  { intros g1.
    destruct (shapes_line_args_ok w h accent g1) as (xy & a & wd & E & ?); [lia..|].
    eexists. split; [exact E|]. destruct accent as [[? ?] ?]. done. }
  rewrite iter_add in Hl. change (16 * 6 + 110)%nat with 206%nat in Hl.
  change (22 * 5)%nat with 110%nat in Hc.
  exists circles, lines. done.
Qed.

(** What [_add_shapes] does with the sampled shapes: it draws the circles and
    then the segments on a transparent layer, blurs it and composites it
    over the image. *)
Lemma add_shapes_composite (img : image rgb) seed accent w h circles lines g1 g2 :
  has_size img w h → 0 ≤ w → 0 ≤ h →
  sample_many 22 (shapes_circle_args w h accent) (Random_new seed)
  = Ok (circles, g1) →
  sample_many 16 (shapes_line_args w h accent) g1 = Ok (lines, g2) →
  ∃ layer out,
    Image_new (w, h) (0, 0, 0, 0) = Ok layer ∧
    Image_alpha_composite (convert_RGBA img)
      (GaussianBlur_RGBA (I 14)
         (foldl draw_line (foldl draw_circle layer circles) lines))
    = Ok out ∧
    _add_shapes img seed accent = Ok (convert_RGB out) ∧
    has_size (convert_RGB out) w h.
Proof.
  intros Hs Hw Hh Hc Hl.
  pose proof (has_size_replicate (P := rgba) w h (0, 0, 0, 0)) as Hlayer.
  set (layer := Image w h (replicate (Z.to_nat h) (replicate (Z.to_nat w) (0, 0, 0, 0)))) in *.
  set (drawn := foldl draw_line (foldl draw_circle layer circles) lines).
  assert (has_size (GaussianBlur_RGBA (I 14) drawn) w h) as Hblur.
  { apply blur_RGBA_size. unfold drawn.
    apply foldl_has_size; [intros; apply line_RGBA_size; done|].
    apply foldl_has_size; [intros; apply ellipse_RGBA_size; done|]. done. }
  pose proof (has_size_map_pixels (λ '(r, g, b), (r, g, b, 255)) img w h Hs) as Hconv.
  fold (convert_RGBA img) in Hconv.
  exists layer,
    (zip_pixels alpha_over (convert_RGBA img) (GaussianBlur_RGBA (I 14) drawn)).
  assert (Image_alpha_composite (convert_RGBA img) (GaussianBlur_RGBA (I 14) drawn)
          = Ok (zip_pixels alpha_over (convert_RGBA img)
                  (GaussianBlur_RGBA (I 14) drawn))) as Hcomp.
  { unfold Image_alpha_composite.
    same_size_true w h. done. }
  split; [unfold layer; apply Image_new_ok; lia|]. split; [exact Hcomp|].
  split.
  - unfold _add_shapes, size, range. destruct Hs as (-> & -> & _).
    rewrite Image_new_ok by lia. cbn [mbind res_bind]. fold layer.
    rewrite circles_loop. rewrite length_seqZ. change (Z.to_nat 22) with 22%nat.
    rewrite Hc. cbn [mbind res_bind].
    rewrite lines_loop. rewrite length_seqZ. change (Z.to_nat 16) with 16%nat.
    rewrite Hl. cbn [mbind res_bind]. fold drawn. rewrite Hcomp. done.
  - apply has_size_map_pixels, has_size_zip_pixels; done.
Qed.

(** The stage returns an image of the size of its input. *)
Lemma add_shapes_ok (img : image rgb) seed accent w h :
  has_size img w h → 0 ≤ w < 2 ^ 31 → 0 ≤ h < 2 ^ 31 →
  ∃ out, _add_shapes img seed accent = Ok out ∧ has_size out w h.
Proof.
  intros Hs Hw Hh.
  destruct (shapes_samples w h accent (Random_new seed) Hw Hh)
    as (circles & lines & Hc & Hl & _).
  destruct (add_shapes_composite img seed accent w h circles lines _ _ Hs
              ltac:(lia) ltac:(lia) Hc Hl) as (layer & out & _ & _ & E & S).
  exists (convert_RGB out). done.
Qed.

(** C4: the overlay samples, from the one generator [Random(seed)] and in
    this order, 22 circles (5 calls of [random()] each) and then 16 line
    segments (6 calls each), and draws exactly these; every circle is
    filled with the accent or white at an alpha in [18, 55], every segment
    has the accent colour, a width in [2, 6] and an alpha in [10, 26]. *)
Theorem add_shapes_draws (img : image rgb) seed accent w h :
  has_size img w h → 0 ≤ w < 2 ^ 31 → 0 ≤ h < 2 ^ 31 →
  ∃ circles lines layer out,
    sample_many 22 (shapes_circle_args w h accent) (Random_new seed)
    = Ok (circles, Nat.iter 110 rng_next (Random_new seed)) ∧
    sample_many 16 (shapes_line_args w h accent)
      (Nat.iter 110 rng_next (Random_new seed))
    = Ok (lines, Nat.iter 206 rng_next (Random_new seed)) ∧
    length circles = 22%nat ∧
    Forall (λ '(_, (r, g, b, alpha)),
              ((r, g, b) = accent ∨ (r, g, b) = (255, 255, 255)) ∧
              18 ≤ alpha ≤ 55) circles ∧
    length lines = 16%nat ∧
    Forall (λ '(_, (r, g, b, alpha), width),
              (r, g, b) = accent ∧ 2 ≤ width ≤ 6 ∧ 10 ≤ alpha ≤ 26) lines ∧
    Image_new (w, h) (0, 0, 0, 0) = Ok layer ∧
    Image_alpha_composite (convert_RGBA img)
      (GaussianBlur_RGBA (I 14)
         (foldl draw_line (foldl draw_circle layer circles) lines))
    = Ok out ∧
    _add_shapes img seed accent = Ok (convert_RGB out) ∧
    has_size (convert_RGB out) w h.
Proof.
  intros Hs Hw Hh.
  destruct (shapes_samples w h accent (Random_new seed) Hw Hh)
    as (circles & lines & Hc & Hl & Lc & Fc & Ll & Fl).
  destruct (add_shapes_composite img seed accent w h circles lines _ _ Hs
              ltac:(lia) ltac:(lia) Hc Hl) as (layer & out & En & Ec & E & S).
  exists circles, lines, layer, out. done.
Qed.

End Shapes.

(** * The grain *)

(** [int(v * 0.18)] is the integer part of [18 v / 100] on every byte. *)
Lemma grain_scale_table :
  map_res grain_scale (range 256)
  = Ok (map (λ v, v * 18 / 100) (range 256)).
Proof. vm_compute. reflexivity. Qed.

Section Grain.
Context {G : Type} {RG : Random G} {IM : Imaging}.

Lemma randint_byte g :
  randint 0 255 g = Ok ((rng_randbelow 256 g).1, (rng_randbelow 256 g).2).
Proof.
  unfold randint. cbn [Z.add Z.sub Z.ltb Z.compare Z.opp Z.pos_sub Pos.succ
                       Pos.add Pos.pred_double Z.succ_double Z.double].
  change (255 + 1 - 0) with 256. change (0 <? 256) with true. cbv iota.
  destruct (rng_randbelow 256 g) as [i g']. done.
Qed.

Lemma grain_row_loop w h y above below : ∀ todo filled g,
  Z.of_nat (length above) = y → 0 ≤ y < h →
  Z.of_nat (length filled) + Z.of_nat (length todo) = w →
  for_each (seqZ (Z.of_nat (length filled)) (Z.of_nat (length todo)))
    (grain_pixel y) (Image w h (above ++ (filled ++ todo) :: below), g)
  = Ok (Image w h (above ++ (filled ++ (noise_row (length todo) g).1) :: below),
        (noise_row (length todo) g).2).
Proof.
  induction todo as [|t todo IH]; intros filled g Hy Hyh Hw.
  { cbn. done. }
  rewrite seqZ_cons by (cbn [length]; lia).
  replace (Z.pred (Z.of_nat (length (t :: todo)))) with (Z.of_nat (length todo))
    by (cbn [length]; lia).
  cbn [for_each grain_pixel]. rewrite randint_byte. cbn [mbind res_bind].
  cbn [noise_row length].
  destruct (rng_randbelow 256 g) as [v g1]. cbn [fst snd].
  unfold putpixel. cbn [width height rows].
  replace (0 <=? Z.of_nat (length filled)) with true by (symmetry; apply Z.leb_le; lia).
  replace (Z.of_nat (length filled) <? w) with true
    by (symmetry; apply Z.ltb_lt; cbn [length] in Hw; lia).
  replace (0 <=? y) with true by (symmetry; apply Z.leb_le; lia).
  replace (y <? h) with true by (symmetry; apply Z.ltb_lt; lia).
  cbn [andb mbind res_bind].
  rewrite alter_app_r_alt by lia.
  replace (Z.to_nat y - length above)%nat with 0%nat by lia.
  cbn [alter list_alter]. rewrite Nat2Z.id.
  rewrite insert_app_r_alt by lia. rewrite Nat.sub_diag. cbn [insert list_insert].
  specialize (IH (filled ++ [v]) g1 Hy Hyh).
  rewrite length_app in IH. cbn [length] in IH.
  replace (Z.of_nat (length filled + 1)) with (Z.succ (Z.of_nat (length filled))) in IH by lia.
  rewrite <- !app_assoc in IH. cbn [app] in IH.
  rewrite IH by (cbn [length] in Hw; lia).
  destruct (noise_row (length todo) g1) as [vs g2]. done.
Qed.

Lemma noise_row_length n : ∀ g, length (noise_row n g).1 = n.
Proof.
  induction n as [|n IH]; intros g; cbn [noise_row]; [done|].
  destruct (rng_randbelow 256 g) as [v g1]. specialize (IH g1).
  destruct (noise_row n g1) as [vs g2]. cbn in *. lia.
Qed.

Lemma noise_row_bytes n : ∀ g, Forall (λ v, 0 ≤ v ≤ 255) (noise_row n g).1.
Proof.
  induction n as [|n IH]; intros g; cbn [noise_row]; [by constructor|].
  pose proof (rng_randbelow_range 256 g ltac:(lia)) as Hv.
  destruct (rng_randbelow 256 g) as [v g1]. specialize (IH g1).
  destruct (noise_row n g1) as [vs g2]. cbn in *. constructor; [lia|done].
Qed.

Lemma grain_loop w h : ∀ below above g,
  0 ≤ w → Forall (λ row, length row = Z.to_nat w) below →
  Z.of_nat (length above) + Z.of_nat (length below) = h →
  for_each (seqZ (Z.of_nat (length above)) (Z.of_nat (length below)))
    (λ y, for_each (range w) (grain_pixel y)) (Image w h (above ++ below), g)
  = Ok (Image w h (above ++ (noise_rows (length below) (Z.to_nat w) g).1),
        (noise_rows (length below) (Z.to_nat w) g).2).
Proof.
  induction below as [|row below IH]; intros above g Hw Hrows Hh.
  { cbn. done. }
  rewrite seqZ_cons by (cbn [length]; lia).
  replace (Z.pred (Z.of_nat (length (row :: below)))) with (Z.of_nat (length below))
    by (cbn [length]; lia).
  cbn [for_each noise_rows length].
  pose proof (Forall_inv Hrows) as Hrow. cbv beta in Hrow.
  pose proof (Forall_inv_tail Hrows) as Hrest.
  pose proof (grain_row_loop w h (Z.of_nat (length above)) above below row [] g
                eq_refl ltac:(cbn [length] in Hh; lia)
                ltac:(cbn [length]; lia)) as Hr.
  cbn [length app] in Hr. unfold range in *.
  replace (Z.of_nat (length row)) with w in Hr by lia.
  change (Z.of_nat 0) with 0 in Hr. rewrite Hr. cbn [mbind res_bind].
  rewrite Hrow.
  destruct (noise_row (Z.to_nat w) g) as [vs g1]. cbn [fst snd].
  specialize (IH (above ++ [vs]) g1 Hw Hrest).
  rewrite length_app in IH. cbn [length] in IH.
  replace (Z.of_nat (length above + 1)) with (Z.succ (Z.of_nat (length above))) in IH by lia.
  rewrite <- !app_assoc in IH. cbn [app] in IH.
  rewrite IH by (cbn [length] in Hh; lia).
  destruct (noise_rows (length below) (Z.to_nat w) g1) as [rs g2]. done.
Qed.

Lemma noise_rows_shape h w : ∀ g,
  length (noise_rows h w g).1 = h ∧
  Forall (λ row, length row = w ∧ Forall (λ v, 0 ≤ v ≤ 255) row)
    (noise_rows h w g).1.
Proof.
  induction h as [|h IH]; intros g; cbn [noise_rows]; [by split|].
  pose proof (noise_row_length w g) as Hl.
  pose proof (noise_row_bytes w g) as Hb.
  destruct (noise_row w g) as [row g1]. destruct (IH g1) as [IHl IHf].
  destruct (noise_rows h w g1) as [rs g2]. cbn in *.
  split; [lia|]. constructor; done.
Qed.

(** In row-major order the raster is the stream of the generator. *)
Lemma noise_row_app n m : ∀ g,
  (noise_row (n + m) g).1
  = (noise_row n g).1 ++ (noise_row m (noise_row n g).2).1 ∧
  (noise_row (n + m) g).2 = (noise_row m (noise_row n g).2).2.
Proof.
  induction n as [|n IH]; intros g; cbn [noise_row Nat.add]; [done|].
  destruct (rng_randbelow 256 g) as [v g1]. destruct (IH g1) as [IH1 IH2].
  destruct (noise_row (n + m) g1) as [vs g2].
  destruct (noise_row n g1) as [vs1 g3]. cbn in *.
  destruct (noise_row m g3) as [vs2 g4]. cbn in *. by subst.
Qed.

Lemma noise_rows_concat h w : ∀ g,
  concat (noise_rows h w g).1 = (noise_row (h * w) g).1 ∧
  (noise_rows h w g).2 = (noise_row (h * w) g).2.
Proof.
  induction h as [|h IH]; intros g; cbn [noise_rows Nat.mul]; [done|].
  destruct (noise_row_app w (h * w) g) as [-> ->].
  destruct (noise_row w g) as [row g1]. destruct (IH g1) as [IH1 IH2].
  destruct (noise_rows h w g1) as [rs g2]. cbn in *.
  rewrite IH1, IH2. done.
Qed.

Lemma grain_noise w h g :
  0 ≤ w → 0 ≤ h →
  for_each (range h) (λ y, for_each (range w) (grain_pixel y))
    (Image w h (replicate (Z.to_nat h) (replicate (Z.to_nat w) 0)), g)
  = Ok (Image w h (noise_rows (Z.to_nat h) (Z.to_nat w) g).1,
        (noise_rows (Z.to_nat h) (Z.to_nat w) g).2).
Proof.
  intros Hw Hh.
  pose proof (grain_loop w h (replicate (Z.to_nat h) (replicate (Z.to_nat w) 0))
                [] g Hw) as L.
  rewrite length_replicate in L. cbn [length app] in L.
  rewrite Z2Nat.id in L by done. apply L; [|lia].
  apply Forall_replicate, length_replicate.
Qed.

Lemma noise_has_size w h g :
  0 ≤ w → 0 ≤ h →
  has_size (Image w h (noise_rows (Z.to_nat h) (Z.to_nat w) g).1) w h ∧
  ∀ x y v,
    pixel (Image w h (noise_rows (Z.to_nat h) (Z.to_nat w) g).1) x y = Some v →
    0 ≤ v ≤ 255.
Proof.
  intros Hw Hh.
  destruct (noise_rows_shape (Z.to_nat h) (Z.to_nat w) g) as [Hl Hf].
  split.
  - unfold has_size. cbn [width height rows]. repeat split; try done.
    eapply Forall_impl; [exact Hf|]. intros row [? _]. done.
  - intros x y v. unfold pixel. cbn [rows].
    destruct ((0 <=? x) && (0 <=? y)); [|done].
    destruct (_ !! Z.to_nat y) as [row|] eqn:Hrow; [|done]. cbn.
    intros Hv. destruct (Forall_lookup_1 _ _ _ _ Hf Hrow) as [_ Hb].
    exact (Forall_lookup_1 _ _ _ _ Hb Hv).
Qed.

Lemma grain_blend_pixel (f : rgb → rgb → rgb) (img : image rgb)
    (scaled : image Z) x y c n :
  pixel img x y = Some c → pixel scaled x y = Some n →
  pixel (zip_pixels f img
           (zip_pixels (λ '(x, y) z, (x, y, z))
              (zip_pixels pair scaled scaled) scaled)) x y
  = Some (f c (n, n, n)).
Proof.
  intros Hc Hn. rewrite !pixel_zip_pixels, Hc, Hn. done.
Qed.

(** What [_add_grain] does with the noise raster: blur, scaling table,
    merge of the one band into three, blend at factor 0.18. *)
Lemma add_grain_composite (img : image rgb) seed w h :
  has_size img w h → 0 ≤ w → 0 ≤ h →
  ∃ scaled out,
    Image_point
      (GaussianBlur_L (F (literal 12 10))
         (Image w h
            (noise_rows (Z.to_nat h) (Z.to_nat w) (Random_new (seed + 1337))).1))
      grain_scale
    = Ok scaled ∧
    scaled = map_pixels
               (λ v, default 0 (map (λ v, v * 18 / 100) (range 256) !! Z.to_nat v))
               (GaussianBlur_L (F (literal 12 10))
                  (Image w h
                     (noise_rows (Z.to_nat h) (Z.to_nat w)
                        (Random_new (seed + 1337))).1)) ∧
    has_size scaled w h ∧
    _add_grain img seed = Ok out ∧ has_size out w h ∧
    ∀ x y r g b n, pixel img x y = Some (r, g, b) → pixel scaled x y = Some n →
      pixel out x y
      = Some (blend_channel (literal 18 100) r n,
              blend_channel (literal 18 100) g n,
              blend_channel (literal 18 100) b n).
Proof.
  intros Hs Hw Hh.
  set (g0 := Random_new (seed + 1337)).
  set (noise := Image w h (noise_rows (Z.to_nat h) (Z.to_nat w) g0).1).
  destruct (noise_has_size w h g0 Hw Hh) as [Hn Hbytes]. fold noise in Hn, Hbytes.
  set (blurred := GaussianBlur_L (F (literal 12 10)) noise).
  assert (has_size blurred w h) as Hb by (apply blur_L_size; done).
  set (scaled := map_pixels
                   (λ v, default 0 (map (λ v, v * 18 / 100) (range 256) !! Z.to_nat v))
                   blurred).
  assert (has_size scaled w h) as Hsc by (apply has_size_map_pixels; done).
  assert (Image_point blurred grain_scale = Ok scaled) as Hpoint.
  { unfold Image_point. rewrite grain_scale_table. done. }
  set (noise_rgb := zip_pixels (λ '(x, y) z, (x, y, z))
                      (zip_pixels pair scaled scaled) scaled).
  assert (has_size noise_rgb w h) as Hrgb.
  { apply has_size_zip_pixels; [|done]. apply has_size_zip_pixels; done. }
  set (blendf := λ '(r1, g1, b1) '(r2, g2, b2),
         (blend_channel (literal 18 100) r1 r2,
          blend_channel (literal 18 100) g1 g2,
          blend_channel (literal 18 100) b1 b2)).
  exists scaled, (zip_pixels blendf img noise_rgb).
  split; [done|]. split; [done|]. split; [done|]. split.
  { unfold _add_grain, size. pose proof Hs as (-> & -> & _).
    rewrite Image_new_ok by lia. cbn [mbind res_bind]. fold g0.
    rewrite grain_noise by done. cbn [mbind res_bind]. fold noise. fold blurred.
    rewrite Hpoint. cbn [mbind res_bind]. unfold Image_merge_RGB.
    same_size_true w h. cbn [andb mbind res_bind]. fold noise_rgb.
    unfold Image_blend. same_size_true w h. done. }
  split; [apply has_size_zip_pixels; done|].
  intros x y r g b n Hp Hpn.
  unfold noise_rgb. erewrite grain_blend_pixel; [|exact Hp|exact Hpn]. done.
Qed.

(** The stage returns an image of the size of its input. *)
Lemma add_grain_ok (img : image rgb) seed w h :
  has_size img w h → 0 ≤ w → 0 ≤ h →
  ∃ out, _add_grain img seed = Ok out ∧ has_size out w h.
Proof.
  intros Hs Hw Hh.
  destruct (add_grain_composite img seed w h Hs Hw Hh)
    as (scaled & out & _ & _ & _ & E & S & _).
  exists out. done.
Qed.

(** C6: the grain generator is [Random(seed + 1337)], a seed other than the
    one of palette and shapes; the noise raster holds, row after row, the
    first [w * h] results of [randint(0, 255)], each in [0, 255]; it is
    blurred with radius 1.2, every intensity [v] is replaced by
    [int(v * 0.18)], and the result, taken for all three channels, is
    blended with the input at factor 0.18 by [Image.blend], whose channel
    arithmetic ([0.82 * input + 0.18 * noise]) is Pillow's. *)
Theorem add_grain_blend (img : image rgb) seed w h :
  has_size img w h → 0 ≤ w → 0 ≤ h →
  seed + 1337 ≠ seed ∧
  ∃ noise scaled out,
    noise = Image w h
              (noise_rows (Z.to_nat h) (Z.to_nat w) (Random_new (seed + 1337))).1 ∧
    concat (rows noise)
    = (noise_row (Z.to_nat h * Z.to_nat w) (Random_new (seed + 1337))).1 ∧
    has_size noise w h ∧
    (∀ x y v, pixel noise x y = Some v → 0 ≤ v ≤ 255) ∧
    Image_point (GaussianBlur_L (F (literal 12 10)) noise) grain_scale
    = Ok scaled ∧
    scaled = map_pixels
               (λ v, default 0 (map (λ v, v * 18 / 100) (range 256) !! Z.to_nat v))
               (GaussianBlur_L (F (literal 12 10)) noise) ∧
    _add_grain img seed = Ok out ∧ has_size out w h ∧
    ∀ x y r g b, pixel img x y = Some (r, g, b) →
      ∃ n, pixel scaled x y = Some n ∧
        pixel out x y
        = Some (blend_channel (literal 18 100) r n,
                blend_channel (literal 18 100) g n,
                blend_channel (literal 18 100) b n).
Proof.
  intros Hs Hw Hh. split; [lia|].
  destruct (noise_has_size w h (Random_new (seed + 1337)) Hw Hh) as [Hn Hbytes].
  destruct (add_grain_composite img seed w h Hs Hw Hh)
    as (scaled & out & Hpoint & Hscaled & Hsc & E & S & Hpix).
  eexists _, scaled, out.
  split; [reflexivity|]. split.
  { cbn [rows].
    apply (noise_rows_concat (Z.to_nat h) (Z.to_nat w) (Random_new (seed + 1337))). }
  split; [done|]. split; [done|]. split; [done|]. split; [done|].
  split; [done|]. split; [done|].
  intros x y r g b Hp.
  destruct (pixel_outside _ _ _ _ _ _ Hs Hp) as [Hx Hy].
  destruct (pixel_inside scaled w h x y Hsc Hx Hy) as [n Hpn].
  exists n. split; [done|]. exact (Hpix x y r g b n Hp Hpn).
Qed.

End Grain.

(** * The whole pipeline *)

Lemma palette_color_ok c : c ∈ palette → color_ok c.
Proof.
  intros Hc.
  assert (Forall color_ok palette) as Hall
    by (repeat (apply List.Forall_cons; [cbn; lia|]); apply List.Forall_nil).
  exact (proj1 (Forall_forall _ _) Hall c Hc).
Qed.

Lemma make_gradient_ok w h c1 c2 :
  0 ≤ w → 0 ≤ h → color_ok c1 → color_ok c2 →
  ∃ img, _make_gradient w h c1 c2 = Ok img ∧ has_size img w h.
Proof.
  intros Hw Hh H1 H2.
  set (f := λ y, match gradient_color c1 c2 h y with Ok c => c | _ => c1 end).
  eexists. split; [apply (make_gradient_rows w h c1 c2 f); [lia|lia|]|].
  - intros y Hy. unfold f.
    destruct (Z.ltb_spec 1 h) as [Hh1|Hh1].
    + destruct (gradient_color_ok c1 c2 h y Hh1 Hy H1 H2)
        as (t & col & _ & _ & _ & -> & _). done.
    + unfold gradient_color.
      replace (1 <? h) with false by (symmetry; apply Z.ltb_ge; lia).
      cbn [mbind res_bind]. rewrite lerp_rgb_at_zero; done.
  - apply has_size_rows. lia.
Qed.

Section Pipeline.
Context {G : Type} {RG : Random G} {IM : Imaging} {LM : Libm}.

Lemma main_pipeline fuel a fs :
  main fuel a fs
  = (seed ← _seed_from_slug (slug a);
     img ← pipeline fuel seed (arg_width a) (arg_height a);
     Ok (<[output a := png_encode img]> fs)).
Proof.
  unfold main, pipeline.
  destruct (_seed_from_slug (slug a)) as [seed| |]; [|done..].
  cbn [mbind res_bind].
  destruct (_pick_palette fuel seed) as [[[c1 c2] accent]| |]; [|done..].
  cbn [mbind res_bind].
  destruct (_make_gradient _ _ c1 c2) as [g| |]; [|done..].
  cbn [mbind res_bind].
  destruct (_add_shapes g seed accent) as [s| |]; [|done..].
  cbn [mbind res_bind].
  destruct (_add_grain s seed) as [n| |]; done.
Qed.

(** The image does not depend on the bound given to the resampling loop. *)
Lemma pipeline_fuel fuel1 fuel2 seed w h :
  pipeline fuel1 seed w h ≠ NoFuel → pipeline fuel2 seed w h ≠ NoFuel →
  pipeline fuel1 seed w h = pipeline fuel2 seed w h.
Proof.
  unfold pipeline. intros F1 F2.
  assert (_pick_palette fuel1 seed ≠ NoFuel) as N1
    by (intros E; rewrite E in F1; done).
  assert (_pick_palette fuel2 seed ≠ NoFuel) as N2
    by (intros E; rewrite E in F2; done).
  destruct (Nat.le_ge_cases fuel1 fuel2) as [Hle|Hle].
  - rewrite (pick_palette_mono fuel1 fuel2 seed Hle N1). done.
  - rewrite (pick_palette_mono fuel2 fuel1 seed Hle N2). done.
Qed.

(** C8: for a positive width and height that the imaging library can
    represent, once the seed is derived and the palette loop has ended,
    every stage returns a raster of exactly [width] by [height] pixels and
    [main] writes the encoding of the last one. *)
Theorem pipeline_dimensions (fuel : nat) (a : args) (fs : gmap str bytes)
    (seed : Z) :
  0 < arg_width a < 2 ^ 31 → 0 < arg_height a < 2 ^ 31 →
  _seed_from_slug (slug a) = Ok seed →
  _pick_palette fuel seed ≠ NoFuel →
  ∃ c1 c2 accent gradient shapes grain vignette,
    _pick_palette fuel seed = Ok (c1, c2, accent) ∧
    _make_gradient (arg_width a) (arg_height a) c1 c2 = Ok gradient ∧
    has_size gradient (arg_width a) (arg_height a) ∧
    _add_shapes gradient seed accent = Ok shapes ∧
    has_size shapes (arg_width a) (arg_height a) ∧
    _add_grain shapes seed = Ok grain ∧
    has_size grain (arg_width a) (arg_height a) ∧
    _add_vignette grain (literal 55 100) = Ok vignette ∧
    has_size vignette (arg_width a) (arg_height a) ∧
    size vignette = (arg_width a, arg_height a) ∧
    main fuel a fs = Ok (<[output a := png_encode vignette]> fs).
Proof.
  intros Hw Hh Hseed Hfuel.
  pose proof (pick_palette_result fuel seed) as Hp.
  destruct (_pick_palette fuel seed) as [[[c1 c2] accent]| |] eqn:Epick; [|done..].
  destruct Hp as (_ & Hc1 & Hc2 & _).
  destruct (make_gradient_ok (arg_width a) (arg_height a) c1 c2)
    as (g & Hg & Sg); [lia|lia|by apply palette_color_ok..|].
  destruct (add_shapes_ok g seed accent _ _ Sg ltac:(lia) ltac:(lia))
    as (s & Hs & Ss).
  destruct (add_grain_ok s seed _ _ Ss ltac:(lia) ltac:(lia)) as (n & Hn & Sn).
  destruct (add_vignette_ok n _ _ Sn ltac:(lia) ltac:(lia)) as (v & Hv & Sv).
  exists c1, c2, accent, g, s, n, v.
  repeat (split; [done|]).
  split; [unfold size; destruct Sv as (-> & -> & _); done|].
  unfold main. rewrite Hseed. cbn [mbind res_bind]. rewrite Epick.
  cbn [mbind res_bind]. rewrite Hg. cbn [mbind res_bind]. rewrite Hs.
  cbn [mbind res_bind]. rewrite Hn. cbn [mbind res_bind]. rewrite Hv. done.
Qed.

(** C9: the slug enters the image only through the seed: two runs whose
    slugs have the same seed, with the same width and height, write the
    same bytes to their output files. *)
Theorem image_depends_on_seed (fuel : nat) (a1 a2 : args)
    (fs1 fs2 : gmap str bytes) :
  _seed_from_slug (slug a1) = _seed_from_slug (slug a2) →
  arg_width a1 = arg_width a2 → arg_height a1 = arg_height a2 →
  (λ fs, fs !! output a1) <$> main fuel a1 fs1
  = (λ fs, fs !! output a2) <$> main fuel a2 fs2.
Proof.
  intros Hseed Hw Hh. rewrite !main_pipeline, Hseed, Hw, Hh.
  destruct (_seed_from_slug (slug a2)) as [seed| |]; [|done..].
  cbn [mbind res_bind].
  destruct (pipeline fuel seed _ _) as [img| |]; [|done..].
  cbn [mbind res_bind fmap res_fmap]. rewrite !lookup_insert_eq. done.
Qed.

(** C1: two runs with the same slug, width and height write the same bytes,
    whatever the output paths, the previous content of the file system and
    the bounds given to the resampling loop, provided these were enough. *)
Theorem generation_deterministic (fuel1 fuel2 : nat) (a1 a2 : args)
    (fs1 fs2 : gmap str bytes) :
  slug a1 = slug a2 →
  arg_width a1 = arg_width a2 → arg_height a1 = arg_height a2 →
  main fuel1 a1 fs1 ≠ NoFuel → main fuel2 a2 fs2 ≠ NoFuel →
  (λ fs, fs !! output a1) <$> main fuel1 a1 fs1
  = (λ fs, fs !! output a2) <$> main fuel2 a2 fs2.
Proof.
  intros Hslug Hw Hh. rewrite !main_pipeline, Hslug, Hw, Hh.
  destruct (_seed_from_slug (slug a2)) as [seed| |]; [|done..].
  cbn [mbind res_bind]. intros N1 N2.
  rewrite (pipeline_fuel fuel1 fuel2 seed).
  - destruct (pipeline fuel2 seed _ _) as [img| |]; [|done..].
    cbn [mbind res_bind fmap res_fmap]. rewrite !lookup_insert_eq. done.
  - intros E. rewrite E in N1. done.
  - intros E. rewrite E in N2. done.
Qed.

End Pipeline.

(** * The script on concrete inputs

    The values below are those CPython computes: the generator is MT19937
    as [random.Random] seeds and reads it, the hash is MD5. *)

Example seed_hello_world :
  _seed_from_slug (ascii_str "hello-world") = Ok 546648353.
Proof. vm_compute. reflexivity. Qed.

Example seed_surrogate : _seed_from_slug [55296] = Raise UnicodeEncodeError.
Proof. vm_compute. reflexivity. Qed.

Example palette_hello_world :
  _pick_palette (G := MT.state) 0 546648353
  = Ok ((245, 158, 11), (6, 10, 25), (168, 85, 247)).
Proof. vm_compute. reflexivity. Qed.

Example gradient_2x4 :
  _make_gradient 2 4 (6, 10, 25) (245, 158, 11)
  = Ok (Image 2 4 [ [(6, 10, 25); (6, 10, 25)];
                    [(86, 59, 20); (86, 59, 20)];
                    [(165, 109, 16); (165, 109, 16)];
                    [(245, 158, 11); (245, 158, 11)] ]).
Proof. vm_compute. reflexivity. Qed.

(** Halfway cases round to the even integer. *)
Example lerp_ties :
  _lerp 0 1 (literal 1 2) = Ok 0 ∧ _lerp 1 2 (literal 1 2) = Ok 2.
Proof. split; vm_compute; reflexivity. Qed.

Example vignette_alphas :
  map (λ i, t ← true_div i 39;
            vignette_alpha (LM := Simple_Libm) t (literal 55 100)) (range 40)
  = map Ok [0; 0; 0; 0; 1; 2; 3; 4; 5; 7; 9; 11; 13; 15; 18; 20; 23; 26; 29;
            33; 36; 40; 44; 48; 53; 57; 62; 67; 72; 77; 82; 88; 94; 100; 106;
            112; 119; 126; 133; 140].
Proof. vm_compute. reflexivity. Qed.

Lemma example_image_size : has_size example_image 4 3.
Proof. apply (has_size_replicate (P := rgb) 4 3 (6, 10, 25)). Defined.

Lemma generation_deterministic_witness :
  let a1 := example_args "hello-world" "a.png" in
  let a2 := example_args "hello-world" "b.png" in
  let fs1 : gmap str bytes := ∅ in
  let fs2 : gmap str bytes := {[ ascii_str "b.png" := [1; 2; 3] ]} in
  slug a1 = slug a2 ∧ arg_width a1 = arg_width a2 ∧
  arg_height a1 = arg_height a2 ∧
  main (G := MT.state) 0 a1 fs1 ≠ NoFuel ∧
  main (G := MT.state) 5 a2 fs2 ≠ NoFuel ∧
  (λ fs, fs !! output a1) <$> main (G := MT.state) 0 a1 fs1
  = (λ fs, fs !! output a2) <$> main (G := MT.state) 5 a2 fs2.
Proof.
  intros a1 a2 fs1 fs2.
  assert (main (G := MT.state) 0 a1 fs1 ≠ NoFuel) as N1
    by (vm_compute; discriminate).
  assert (main (G := MT.state) 5 a2 fs2 ≠ NoFuel) as N2
    by (vm_compute; discriminate).
  split; [reflexivity|]. split; [reflexivity|]. split; [reflexivity|].
  split; [exact N1|]. split; [exact N2|].
  apply (generation_deterministic 0 5 a1 a2 fs1 fs2 eq_refl eq_refl eq_refl
           N1 N2).
Defined.

Lemma make_gradient_interpolates_witness :
  1 ≤ 3 ∧ 1 < 4 ∧ color_ok (6, 10, 25) ∧ color_ok (245, 158, 11) ∧
  ∃ img, _make_gradient 3 4 (6, 10, 25) (245, 158, 11) = Ok img ∧
    has_size img 3 4 ∧
    rows img !! 0%nat = Some (replicate 3 (6, 10, 25)) ∧
    rows img !! 3%nat = Some (replicate 3 (245, 158, 11)).
Proof.
  assert (color_ok (6, 10, 25)) as H1 by (cbn; lia).
  assert (color_ok (245, 158, 11)) as H2 by (cbn; lia).
  split; [lia|]. split; [lia|]. split; [exact H1|]. split; [exact H2|].
  destruct (make_gradient_interpolates 3 4 (6, 10, 25) (245, 158, 11)
              ltac:(lia) ltac:(lia) H1 H2) as (img & E & S & _ & T & B).
  exists img. auto.
Defined.

Lemma add_shapes_draws_witness :
  has_size example_image 4 3 ∧ 0 ≤ 4 < 2 ^ 31 ∧ 0 ≤ 3 < 2 ^ 31 ∧
  ∃ (circles : list (box * rgba)) (lines : list (box * rgba * Z)) out,
    sample_many 22 (shapes_circle_args 4 3 (168, 85, 247))
      (Random_new (G := MT.state) 546648353)
    = Ok (circles, Nat.iter 110 rng_next (Random_new 546648353)) ∧
    length circles = 22%nat ∧ length lines = 16%nat ∧
    _add_shapes (G := MT.state) example_image 546648353 (168, 85, 247) = Ok out ∧
    has_size out 4 3.
Proof.
  assert (0 ≤ 4 < 2 ^ 31) as Hw by done.
  assert (0 ≤ 3 < 2 ^ 31) as Hh by done.
  split; [exact example_image_size|]. split; [exact Hw|]. split; [exact Hh|].
  destruct (add_shapes_draws (G := MT.state) example_image 546648353
              (168, 85, 247) 4 3 example_image_size Hw Hh)
    as (circles & lines & layer & out & Ec & _ & Lc & _ & Ll & _ & _ & _ & E & S).
  exists circles, lines, (convert_RGB out). auto.
Defined.

Lemma seed_from_slug_32bit_witness :
  valid_text (ascii_str "hello-world") ∧
  ∃ seed, _seed_from_slug (ascii_str "hello-world") = Ok seed ∧
    0 ≤ seed < 2 ^ 32.
Proof.
  assert (valid_text (ascii_str "hello-world")) as Hv.
  { unfold valid_text. cbn.
    repeat (apply List.Forall_cons; [lia|]). apply List.Forall_nil. }
  split; [exact Hv|].
  destruct (seed_from_slug_32bit _ Hv)
    as (_ & _ & _ & _ & _ & _ & seed & _ & _ & _ & E & _ & R & _).
  exists seed. auto.
Defined.

Lemma add_grain_blend_witness :
  has_size example_image 4 3 ∧ 0 ≤ 4 ∧ 0 ≤ 3 ∧
  ∃ out, _add_grain (G := MT.state) example_image 546648353 = Ok out ∧
    has_size out 4 3.
Proof.
  split; [exact example_image_size|]. split; [lia|]. split; [lia|].
  destruct (add_grain_blend (G := MT.state) example_image 546648353 4 3
              example_image_size ltac:(lia) ltac:(lia))
    as (_ & _ & _ & out & _ & _ & _ & _ & _ & _ & E & S & _).
  exists out. auto.
Defined.

Lemma make_gradient_height_one_witness :
  1 ≤ 5 ∧ color_ok (6, 10, 25) ∧ color_ok (245, 158, 11) ∧
  true_div 0 (1 - 1) = Raise ZeroDivisionError ∧
  _make_gradient 5 1 (6, 10, 25) (245, 158, 11)
  = Ok (Image 5 1 [replicate 5 (6, 10, 25)]).
Proof.
  assert (color_ok (6, 10, 25)) as H1 by (cbn; lia).
  assert (color_ok (245, 158, 11)) as H2 by (cbn; lia).
  split; [lia|]. split; [exact H1|]. split; [exact H2|].
  exact (make_gradient_height_one 5 (6, 10, 25) (245, 158, 11) ltac:(lia) H1 H2).
Defined.

Lemma pipeline_dimensions_witness :
  let a := example_args "hello-world" "out.png" in
  0 < arg_width a < 2 ^ 31 ∧ 0 < arg_height a < 2 ^ 31 ∧
  _seed_from_slug (slug a) = Ok 546648353 ∧
  _pick_palette (G := MT.state) 0 546648353 ≠ NoFuel ∧
  ∃ img, has_size img 4 3 ∧
    main (G := MT.state) 0 a ∅ = Ok {[ output a := png_encode img ]}.
Proof.
  intros a.
  assert (0 < arg_width a < 2 ^ 31) as Hw by done.
  assert (0 < arg_height a < 2 ^ 31) as Hh by done.
  assert (_seed_from_slug (slug a) = Ok 546648353) as Hs
    by (vm_compute; reflexivity).
  assert (_pick_palette (G := MT.state) 0 546648353 ≠ NoFuel) as Hp
    by (vm_compute; discriminate).
  split; [exact Hw|]. split; [exact Hh|]. split; [exact Hs|]. split; [exact Hp|].
  destruct (pipeline_dimensions (G := MT.state) 0 a ∅ 546648353 Hw Hh Hs Hp)
    as (_ & _ & _ & _ & _ & _ & v & _ & _ & _ & _ & _ & _ & _ & _ & Sv & _ & E).
  exists v. split; [exact Sv|exact E].
Defined.

Lemma image_depends_on_seed_witness :
  let a1 := example_args "post-45186" "a.png" in
  let a2 := example_args "post-115840" "b.png" in
  slug a1 ≠ slug a2 ∧
  _seed_from_slug (slug a1) = _seed_from_slug (slug a2) ∧
  arg_width a1 = arg_width a2 ∧ arg_height a1 = arg_height a2 ∧
  (λ fs, fs !! output a1) <$> main (G := MT.state) 0 a1 ∅
  = (λ fs, fs !! output a2) <$> main (G := MT.state) 0 a2 ∅.
Proof.
  intros a1 a2.
  assert (_seed_from_slug (slug a1) = _seed_from_slug (slug a2)) as Hs
    by (vm_compute; reflexivity).
  split; [discriminate|]. split; [exact Hs|].
  split; [reflexivity|]. split; [reflexivity|].
  apply (image_depends_on_seed (G := MT.state) 0 a1 a2 ∅ ∅ Hs eq_refl eq_refl).
Defined.

Lemma add_vignette_keeps_image_witness :
  has_size example_image 4 3 ∧ 0 ≤ 4 < 2 ^ 31 ∧ 0 ≤ 3 < 2 ^ 31 ∧
  ∃ mask out,
    vignette_mask (IM := Simple_Imaging) (LM := Simple_Libm)
      example_image (literal 55 100) = Ok mask ∧
    (∀ x y m, pixel mask x y = Some m → m ≤ 140 ∧ 140 < 255) ∧
    _add_vignette (IM := Simple_Imaging) (LM := Simple_Libm)
      example_image (literal 55 100) = Ok out.
Proof.
  assert (0 ≤ 4 < 2 ^ 31) as Hw by done.
  assert (0 ≤ 3 < 2 ^ 31) as Hh by done.
  split; [exact example_image_size|]. split; [exact Hw|]. split; [exact Hh|].
  destruct (add_vignette_keeps_image (IM := Simple_Imaging) (LM := Simple_Libm)
              example_image 4 3 example_image_size Hw Hh)
    as (_ & _ & mask & out & Em & _ & Hm & Eo & _).
  exists mask, out. auto.
Defined.

(** * Further properties of the script

    ** What a run does to the file system *)

Section Runs.
Context {G : Type} {RG : Random G} {IM : Imaging} {LM : Libm}.







(** X5: a slug is hashed exactly when UTF-8 can encode it: a lone surrogate
    (as [sys.argv] holds for undecodable bytes) makes [encode] raise
    [UnicodeEncodeError], which ends the run before the palette is picked. *)
Theorem seed_from_slug_encodable (slug0 : str) :
  Forall (λ c, 0 ≤ c ≤ 1114111) slug0 →
  (valid_text slug0 → ∃ seed, _seed_from_slug slug0 = Ok seed) ∧
  (¬ valid_text slug0 →
     _seed_from_slug slug0 = Raise UnicodeEncodeError ∧
     ∀ fuel a fs, slug a = slug0 → main fuel a fs = Raise UnicodeEncodeError).
Proof.
  intros Hrange. split.
  - intros Hv. destruct (utf8_encode_valid slug0 Hv) as (bs & Hbs).
    destruct (digest_bytes bs)
      as (b0 & b1 & b2 & b3 & rest & Hd & H0 & H1 & H2 & H3 & _).
    unfold _seed_from_slug. rewrite Hbs. cbn [mbind res_bind].
    unfold MD5.hexdigest. rewrite Hd. cbn [flat_map app take int16 int16_from].
    destruct (nibbles b0 H0), (nibbles b1 H1), (nibbles b2 H2), (nibbles b3 H3).
    rewrite !hex_value_char by done. cbn [int16_from]. rewrite take_0.
    cbn [int16_from]. eexists. done.
  - intros Hnv.
    assert (utf8_encode slug0 = Raise UnicodeEncodeError) as He.
    { induction Hrange as [|c s Hc Hs IH]; [destruct Hnv; constructor|].
      cbn [utf8_encode]. unfold utf8_encode_char.
      replace (c <? 0) with false by (symmetry; apply Z.ltb_ge; lia).
      replace (1114111 <? c) with false by (symmetry; apply Z.ltb_ge; lia).
      cbn [orb].
      destruct (Z.ltb_spec c 128).
      { cbn [mbind res_bind]. rewrite IH; [done|].
        intros Hv. apply Hnv. constructor; [lia|done]. }
      destruct (Z.ltb_spec c 2048).
      { cbn [mbind res_bind]. rewrite IH; [done|].
        intros Hv. apply Hnv. constructor; [lia|done]. }
      destruct (Z.leb_spec 55296 c), (Z.leb_spec c 57343); cbn [andb]; try done.
      all: destruct (c <? 65536); cbn [mbind res_bind].
      all: rewrite IH; [done|].
      all: intros Hv; apply Hnv; constructor; [lia|done]. }
    assert (_seed_from_slug slug0 = Raise UnicodeEncodeError) as Hs
      by (unfold _seed_from_slug; rewrite He; done).
    split; [exact Hs|].
    intros fuel a fs <-. unfold main. rewrite Hs. done.
Qed.

End Runs.

(** ** Palette selection as a function of the generator's draws *)

Section Draws.
Context {G : Type} {RG : Random G}.

(** The loop skips the candidates equal to [c1] and stops at the first
    other one, leaving the generator where the next draw continues. *)
Lemma while_c2_eq_c1_draws (c1 c2 : rgb) (k : nat) (rest : list rgb) n :
  ∀ fuel c (g : G),
    (n ≤ fuel)%nat → c2 ≠ c1 →
    c :: palette_draws (n + k) g = replicate n c1 ++ c2 :: rest →
    ∃ g', while_c2_eq_c1 fuel c1 c g = Ok (c2, g') ∧
      palette_draws k g' = rest.
Proof.
  induction n as [|n IH]; intros fuel c g Hle Hne Hd.
  - cbn [replicate app Nat.add] in Hd. injection Hd as -> Hd.
    exists g. split; [|done].
    destruct fuel; cbn [while_c2_eq_c1]; rewrite decide_False by done; done.
  - cbn [replicate app Nat.add palette_draws] in Hd.
    destruct (choice_palette g) as (d & Hc & _). rewrite Hc in Hd.
    injection Hd as -> Hd.
    destruct fuel as [|fuel]; [lia|].
    cbn [while_c2_eq_c1]. rewrite decide_True by done.
    rewrite Hc. cbn [mbind res_bind].
    apply IH; [lia|done|]. rewrite Hd. done.
Qed.

(** X6: the result of [_pick_palette] read off the generator's successive
    choices: [c1] is the first, [c2] the first later one that differs from
    [c1], after [n] rejected candidates, and the accent the one after
    [c2]. *)
Theorem pick_palette_draws (fuel n : nat) (seed : Z) (c1 c2 accent : rgb) :
  c2 ≠ c1 → (n ≤ fuel)%nat →
  palette_draws (3 + n) (Random_new (G := G) seed)
  = c1 :: replicate n c1 ++ [c2; accent] →
  _pick_palette (G := G) fuel seed = Ok (c1, c2, accent).
Proof.
  intros Hne Hle Hd. unfold _pick_palette.
  cbn [Nat.add palette_draws] in Hd.
  destruct (choice_palette (Random_new seed)) as (c & Hc & _).
  rewrite Hc in Hd. rewrite Hc. cbn [mbind res_bind].
  set (g1 := (rng_randbelow 9 (Random_new seed)).2) in *.
  destruct (choice_palette g1) as (d & Hdc & _).
  rewrite Hdc in Hd. rewrite Hdc. cbn [mbind res_bind].
  set (g2 := (rng_randbelow 9 g1).2) in *.
  injection Hd as -> Hd.
  change (match choice palette g2 with
          | Ok (c, g') => c :: palette_draws n g'
          | _ => []
          end) with (palette_draws (S n) g2) in Hd.
  replace (S n) with (n + 1)%nat in Hd by lia.
  destruct (while_c2_eq_c1_draws c1 c2 1 [accent] n fuel d g2 Hle Hne Hd)
    as (g' & -> & Ha).
  cbn [mbind res_bind]. cbn [palette_draws] in Ha.
  destruct (choice_palette g') as (a & Hac & _). rewrite Hac in Ha.
  rewrite Hac. injection Ha as ->. done.
Qed.

End Draws.

(** ** The gradient stays between its two colours *)

(** [_lerp] never leaves the interval spanned by [a] and [b]. *)
Lemma lerp_within a b t :
  0 ≤ a ≤ 255 → 0 ≤ b ≤ 255 → between t 0 512 (-9) →
  ∃ z, _lerp a b t = Ok z ∧ Z.min a b ≤ z ≤ Z.max a b.
Proof.
  intros Ha Hb Ht.
  destruct (between_cell _ _ _ Ht) as (j & Hj & Hc).
  set (j' := Z.min (j + 1) 512) in *. assert (j ≤ j' ≤ 512) by lia.
  assert (j' ≤ j + 1) by lia.
  destruct (of_int_between a ltac:(lia)) as (fa & Hfa & Ba).
  destruct (of_int_between b ltac:(lia)) as (fb & Hfb & Bb).
  assert (between one 512 512 (-9)) as B1 by (simpl; lia).
  pose proof (fsub_between _ _ _ _ _ _ _ B1 Hc ltac:(lia) ltac:(lia) ltac:(lia)) as Bu.
  pose proof (fmul_between _ _ _ _ _ _ _ _ Ba Bu ltac:(lia) ltac:(lia) ltac:(lia) ltac:(nia)) as Bp.
  pose proof (fmul_between _ _ _ _ _ _ _ _ Bb Hc ltac:(lia) ltac:(lia) ltac:(lia) ltac:(nia)) as Bq.
  simpl Z.add in Bp, Bq.
  pose proof (fadd_between _ _ _ _ _ _ _ Bp Bq ltac:(lia) ltac:(nia)) as Bs.
  destruct (round_between _ _ _ _ (Z.min a b) (Z.max a b) Bs ltac:(lia))
    as (z & Hz & Hr).
  - change (2 ^ (- -9)) with 512.
    destruct (Z.le_ge_cases a b); [rewrite Z.min_l by lia|rewrite Z.min_r by lia]; nia.
  - change (2 ^ (- -9)) with 512.
    destruct (Z.le_ge_cases a b); [rewrite Z.max_r by lia|rewrite Z.max_l by lia]; nia.
  - exists z. split; [|done].
    unfold _lerp. py_eval. rewrite Hfa, Hfb. py_eval. rewrite Hz. done.
Qed.

(** X7: every pixel of the gradient has each channel between the channel of
    [c1] and that of [c2]: the interpolation never overshoots, and a channel
    the two colours share is constant over the image. *)
Theorem make_gradient_within w h c1 c2 :
  0 ≤ w → 0 ≤ h → color_ok c1 → color_ok c2 →
  ∃ img, _make_gradient w h c1 c2 = Ok img ∧
    ∀ x y r g b, pixel img x y = Some (r, g, b) →
      Z.min c1.1.1 c2.1.1 ≤ r ≤ Z.max c1.1.1 c2.1.1 ∧
      Z.min c1.1.2 c2.1.2 ≤ g ≤ Z.max c1.1.2 c2.1.2 ∧
      Z.min c1.2 c2.2 ≤ b ≤ Z.max c1.2 c2.2.
Proof.
  intros Hw Hh H1 H2.
  set (inside := λ c : rgb,
    Z.min c1.1.1 c2.1.1 ≤ c.1.1 ≤ Z.max c1.1.1 c2.1.1 ∧
    Z.min c1.1.2 c2.1.2 ≤ c.1.2 ≤ Z.max c1.1.2 c2.1.2 ∧
    Z.min c1.2 c2.2 ≤ c.2 ≤ Z.max c1.2 c2.2).
  assert (∀ t, between t 0 512 (-9) →
            ∃ col, _lerp_rgb c1 c2 t = Ok col ∧ inside col) as Hlerp.
  { intros t Ht. destruct c1 as [[r1 g1] b1], c2 as [[r2 g2] b2].
    destruct H1 as (? & ? & ?), H2 as (? & ? & ?).
    destruct (lerp_within r1 r2 t) as (r & Hr & ?); [done..|].
    destruct (lerp_within g1 g2 t) as (g & Hg & ?); [done..|].
    destruct (lerp_within b1 b2 t) as (b & Hb & ?); [done..|].
    exists (r, g, b). unfold _lerp_rgb. rewrite Hr, Hg, Hb. done. }
  assert (∀ y, 0 ≤ y < h →
            ∃ col, gradient_color c1 c2 h y = Ok col ∧ inside col) as Hrow.
  { intros y Hy. unfold gradient_color.
    destruct (Z.ltb_spec 1 h) as [Hh1|Hh1].
    - destruct (gradient_factor h y Hh1 Hy) as (t & -> & Bt & _).
      cbn [mbind res_bind]. apply Hlerp, Bt.
    - cbn [mbind res_bind]. apply Hlerp. simpl. lia. }
  set (f := λ y, match gradient_color c1 c2 h y with Ok c => c | _ => c1 end).
  eexists. split.
  { apply (make_gradient_rows w h c1 c2 f); [lia|lia|].
    intros y Hy. unfold f. destruct (Hrow y Hy) as (col & -> & _). done. }
  intros x y r g b Hp. unfold pixel in Hp. cbn [rows] in Hp.
  destruct ((0 <=? x) && (0 <=? y)) eqn:Hxy; [|done].
  apply andb_true_iff in Hxy as [Hx Hy%Z.leb_le].
  destruct (map _ (seqZ 0 h) !! Z.to_nat y) as [row|] eqn:Hrowy; [|done].
  cbn [mbind option_bind] in Hp.
  change (map ?g ?l) with (g <$> l) in Hrowy.
  rewrite list_lookup_fmap in Hrowy.
  destruct (seqZ 0 h !! Z.to_nat y) as [y'|] eqn:Hy'; [|done].
  apply lookup_seqZ in Hy' as [-> Hlt].
  cbn [fmap option_fmap option_map] in Hrowy. injection Hrowy as <-.
  apply lookup_replicate in Hp as [Hp _].
  destruct (Hrow (0 + Z.of_nat (Z.to_nat y)) ltac:(lia)) as (col & Hcol & Hin).
  unfold f in Hp. rewrite Hcol in Hp. subst col. exact Hin.
Qed.

(** X9: a factor that is not a finite number is refused: with [nan] or an
    infinity the weighted sum is [nan], and [round] raises [ValueError]. *)
Theorem lerp_not_finite a b t :
  0 ≤ a < 2 ^ 53 → 0 ≤ b < 2 ^ 53 →
  t = S754_nan ∨ (∃ s, t = S754_infinity s) →
  _lerp a b t = Raise ValueError.
Proof.
  intros Ha Hb Ht.
  destruct (of_int_between a Ha) as (fa & Hfa & Ba).
  destruct (of_int_between b Hb) as (fb & Hfb & Bb).
  unfold _lerp. py_eval. rewrite Hfa, Hfb. py_eval.
  destruct fa as [sa|sa| |[] ma ea]; try done;
    destruct fb as [sb|sb| |[] mb eb]; try done;
    destruct Ht as [->|[[] ->]]; reflexivity.
Qed.

(** ** The gradient is monotone *)

(** The quotient [y / n] between the two neighbours of its exact value
    among the multiples of [2^-44]. *)
Lemma true_div_cell y n :
  0 ≤ y ≤ n → 0 < n →
  ∃ t, true_div y n = Ok t ∧
    between t (y * 2 ^ 44 / n) ((y * 2 ^ 44 + n - 1) / n) (-44).
Proof.
  intros Hy Hn.
  change (2 ^ 44) with 17592186044416.
  set (L := y * 17592186044416 / n).
  set (H := (y * 17592186044416 + n - 1) / n).
  pose proof (Z.div_mod (y * 17592186044416) n ltac:(lia)) as HL.
  pose proof (Z.mod_pos_bound (y * 17592186044416) n Hn) as HLr.
  pose proof (Z.div_mod (y * 17592186044416 + n - 1) n ltac:(lia)) as HH.
  pose proof (Z.mod_pos_bound (y * 17592186044416 + n - 1) n Hn) as HHr.
  fold L in HL. fold H in HH.
  assert (0 ≤ L) by (apply Z.div_pos; lia).
  assert (H ≤ 17592186044416)
    by (apply Z.lt_succ_r, Z.div_lt_upper_bound; nia).
  destruct (true_div_between y n (256 * L) (256 * H)) as (t & Ht & Bt);
    [lia|lia|lia| |change (2 ^ 52) with 4503599627370496; nia|].
  { change (2 ^ 53) with 9007199254740992. lia. }
  exists t. split; [done|].
  apply (between_coarsen _ _ _ _ 8) in Bt; [|lia].
  change (-52 + 8) with (-44) in Bt. change (2 ^ 8) with 256 in Bt.
  replace (256 * L / 256) with L in Bt by (apply Z.div_unique_exact; lia).
  replace ((256 * H + 256 - 1) / 256) with H in Bt
    by (apply (Z.div_unique _ _ _ 255); lia).
  exact Bt.
Qed.

(** [_lerp] on a factor known up to one multiple of [2^-44]. *)
Lemma lerp_enclosed a b t L H A B :
  0 ≤ a ≤ 255 → 0 ≤ b ≤ 255 →
  between t L H (-44) → 0 ≤ L ≤ H → H ≤ 2 ^ 44 →
  (2 * A - 1) * 2 ^ 44 < 2 * (a * (2 ^ 44 - H) + b * L) →
  2 * (a * (2 ^ 44 - L) + b * H) < (2 * B + 1) * 2 ^ 44 →
  ∃ z, _lerp a b t = Ok z ∧ A ≤ z ≤ B.
Proof.
  change (2 ^ 44) with 17592186044416.
  intros Ha Hb Ht HL HH HA HB.
  destruct (of_int_between a ltac:(lia)) as (fa & Hfa & Ba).
  destruct (of_int_between b ltac:(lia)) as (fb & Hfb & Bb).
  assert (between one 17592186044416 17592186044416 (-44)) as B1
    by (vm_compute; repeat split; discriminate).
  assert (2 ^ 53 = 9007199254740992) as E53 by done.
  pose proof (fsub_between _ _ _ _ _ _ _ B1 Ht ltac:(lia) ltac:(lia) ltac:(lia)) as Bu.
  pose proof (fmul_between _ _ _ _ _ _ _ _ Ba Bu ltac:(lia) ltac:(lia) ltac:(lia) ltac:(nia)) as Bp.
  pose proof (fmul_between _ _ _ _ _ _ _ _ Bb Ht ltac:(lia) ltac:(lia) ltac:(lia) ltac:(nia)) as Bq.
  change (0 + -44) with (-44) in Bp, Bq.
  pose proof (fadd_between _ _ _ _ _ _ _ Bp Bq ltac:(lia) ltac:(nia)) as Bs.
  destruct (round_between _ _ _ _ A B Bs ltac:(lia)) as (z & Hz & Hr).
  - change (2 ^ (- -44)) with 17592186044416. lia.
  - change (2 ^ (- -44)) with 17592186044416. lia.
  - exists z. split; [|done].
    unfold _lerp. py_eval. rewrite Hfa, Hfb. py_eval. rewrite Hz. done.
Qed.

Lemma mul_cell a L H :
  0 ≤ a → L ≤ H ≤ L + 1 → a * L ≤ a * H ≤ a * L + a.
Proof. intros. nia. Qed.

Lemma mul_byte a L : 0 ≤ a ≤ 255 → 0 ≤ L → 0 ≤ a * L ≤ 255 * L.
Proof. intros. nia. Qed.

(** Between the factors of two different rows lies a threshold that
    separates the two interpolated values. *)
Lemma lerp_rows_ordered a b n y y' :
  0 ≤ a ≤ 255 → 0 ≤ b ≤ 255 → 0 < n ≤ 2 ^ 31 → 0 ≤ y → y < y' → y' ≤ n →
  ∃ t t' z z',
    true_div y n = Ok t ∧ true_div y' n = Ok t' ∧
    _lerp a b t = Ok z ∧ _lerp a b t' = Ok z' ∧
    (a ≤ b → z ≤ z') ∧ (b ≤ a → z' ≤ z).
Proof.
  intros Ha Hb Hn Hy Hlt Hy'.
  destruct (true_div_cell y n ltac:(lia) ltac:(lia)) as (t & Ht & Bt).
  destruct (true_div_cell y' n ltac:(lia) ltac:(lia)) as (t' & Ht' & Bt').
  revert Bt Bt'. change (2 ^ 44) with 17592186044416.
  change (2 ^ 31) with 2147483648 in Hn.
  set (P := 17592186044416).
  pose proof (Z.div_mod (y * P) n ltac:(lia)) as HL.
  pose proof (Z.mod_pos_bound (y * P) n ltac:(lia)) as HLr.
  pose proof (Z.div_mod (y * P + n - 1) n ltac:(lia)) as HH.
  pose proof (Z.mod_pos_bound (y * P + n - 1) n ltac:(lia)) as HHr.
  pose proof (Z.div_mod (y' * P) n ltac:(lia)) as HL'.
  pose proof (Z.mod_pos_bound (y' * P) n ltac:(lia)) as HLr'.
  pose proof (Z.div_mod (y' * P + n - 1) n ltac:(lia)) as HH'.
  pose proof (Z.mod_pos_bound (y' * P + n - 1) n ltac:(lia)) as HHr'.
  set (L := y * P / n) in *. set (H := (y * P + n - 1) / n) in *.
  set (L' := y' * P / n) in *. set (H' := (y' * P + n - 1) / n) in *.
  intros Bt Bt'.
  assert (0 ≤ L) by (apply Z.div_pos; lia).
  assert (L ≤ H ≤ L + 1) by (unfold P in *; nia).
  assert (L' ≤ H' ≤ L' + 1) by (unfold P in *; nia).
  assert (H' ≤ P).
  { destruct (Z.le_gt_cases H' P) as [|Hc]; [done|]. exfalso.
    assert (n * (P + 1) ≤ n * H') by (apply Z.mul_le_mono_nonneg_l; lia).
    unfold P in *. lia. }
  assert (L + 8192 ≤ L') as HD.
  { destruct (Z.le_gt_cases (L + 8192) L') as [|Hc]; [done|]. exfalso.
    assert (n * (L' + 1 - L) ≤ n * 8192)
      by (apply Z.mul_le_mono_nonneg_l; lia).
    unfold P in *. lia. }
  pose proof (mul_cell a L H ltac:(lia) ltac:(lia)) as HaH.
  pose proof (mul_cell b L H ltac:(lia) ltac:(lia)) as HbH.
  pose proof (mul_cell a L' H' ltac:(lia) ltac:(lia)) as HaH'.
  pose proof (mul_cell b L' H' ltac:(lia) ltac:(lia)) as HbH'.
  pose proof (mul_byte a L ltac:(lia) ltac:(lia)) as HaL.
  pose proof (mul_byte b L ltac:(lia) ltac:(lia)) as HbL.
  pose proof (mul_byte a L' ltac:(lia) ltac:(lia)) as HaL'.
  pose proof (mul_byte b L' ltac:(lia) ltac:(lia)) as HbL'.
  pose proof (Z.mul_le_mono_nonneg_l H P a ltac:(lia) ltac:(lia)) as HaP.
  pose proof (Z.mul_le_mono_nonneg_l H P b ltac:(lia) ltac:(lia)) as HbP.
  pose proof (Z.mul_le_mono_nonneg_l H' P a ltac:(lia) ltac:(lia)) as HaP'.
  pose proof (Z.mul_le_mono_nonneg_l H' P b ltac:(lia) ltac:(lia)) as HbP'.
  exists t, t'.
  destruct (Z.eq_dec a b) as [->|Hne].
  { destruct (lerp_enclosed b b t L H b b) as (z & Hz & Hzr);
      [lia|lia|exact Bt|lia|unfold P; lia|unfold P in *; lia|unfold P in *; lia|].
    destruct (lerp_enclosed b b t' L' H' b b) as (z' & Hz' & Hzr');
      [lia|lia|exact Bt'|lia|unfold P; lia|unfold P in *; lia|unfold P in *; lia|].
    exists z, z'. repeat split; try done; lia. }
  destruct (Z.le_ge_cases a b) as [Hab|Hab].
  - assert (0 ≤ (b - a - 1) * (L' - L - 8192)) as HM
      by (apply Z.mul_nonneg_nonneg; lia).
    assert (0 ≤ (b - a) * (P - L')) as HM'
      by (apply Z.mul_nonneg_nonneg; lia).
    set (B := (2 * (a * (P - L) + b * H) + P) / (2 * P)).
    pose proof (Z.div_mod (2 * (a * (P - L) + b * H) + P) (2 * P) ltac:(lia)) as HB.
    pose proof (Z.mod_pos_bound (2 * (a * (P - L) + b * H) + P) (2 * P) ltac:(lia)) as HBr.
    fold B in HB.
    destruct (lerp_enclosed a b t L H 0 B) as (z & Hz & Hzr);
      [lia|lia|exact Bt|lia|unfold P; lia|unfold P in *; lia|unfold P in *; lia|].
    destruct (lerp_enclosed a b t' L' H' B 255) as (z' & Hz' & Hzr');
      [lia|lia|exact Bt'|lia|unfold P; lia|unfold P in *; lia|unfold P in *; lia|].
    exists z, z'. repeat split; try done; lia.
  - assert (0 ≤ (a - b - 1) * (L' - L - 8192)) as HM
      by (apply Z.mul_nonneg_nonneg; lia).
    assert (0 ≤ (a - b) * L) as HM' by (apply Z.mul_nonneg_nonneg; lia).
    set (B := (2 * (a * (P - L') + b * H') + P) / (2 * P)).
    pose proof (Z.div_mod (2 * (a * (P - L') + b * H') + P) (2 * P) ltac:(lia)) as HB.
    pose proof (Z.mod_pos_bound (2 * (a * (P - L') + b * H') + P) (2 * P) ltac:(lia)) as HBr.
    fold B in HB.
    destruct (lerp_enclosed a b t' L' H' 0 B) as (z' & Hz' & Hzr');
      [lia|lia|exact Bt'|lia|unfold P; lia|unfold P in *; lia|unfold P in *; lia|].
    destruct (lerp_enclosed a b t L H B 255) as (z & Hz & Hzr);
      [lia|lia|exact Bt|lia|unfold P; lia|unfold P in *; lia|unfold P in *; lia|].
    exists z, z'. repeat split; try done; lia.
Qed.

(** The colours of two rows, channel by channel. *)
Lemma gradient_rows_ordered c1 c2 h y y' :
  color_ok c1 → color_ok c2 → 1 < h ≤ 2 ^ 31 → 0 ≤ y → y < y' → y' < h →
  ∃ col col',
    gradient_color c1 c2 h y = Ok col ∧ gradient_color c1 c2 h y' = Ok col' ∧
    (c1.1.1 ≤ c2.1.1 → col.1.1 ≤ col'.1.1) ∧
    (c2.1.1 ≤ c1.1.1 → col'.1.1 ≤ col.1.1) ∧
    (c1.1.2 ≤ c2.1.2 → col.1.2 ≤ col'.1.2) ∧
    (c2.1.2 ≤ c1.1.2 → col'.1.2 ≤ col.1.2) ∧
    (c1.2 ≤ c2.2 → col.2 ≤ col'.2) ∧
    (c2.2 ≤ c1.2 → col'.2 ≤ col.2).
Proof.
  destruct c1 as [[r1 g1] b1], c2 as [[r2 g2] b2].
  intros (? & ? & ?) (? & ? & ?) Hh Hy Hlt Hy'.
  destruct (lerp_rows_ordered r1 r2 (h - 1) y y')
    as (t & t' & r & r' & Ht & Ht' & Hr & Hr' & ? & ?); [lia..|].
  destruct (lerp_rows_ordered g1 g2 (h - 1) y y')
    as (t0 & t0' & g & g' & Ht0 & Ht0' & Hg & Hg' & ? & ?); [lia..|].
  rewrite Ht in Ht0. rewrite Ht' in Ht0'.
  injection Ht0 as <-. injection Ht0' as <-.
  destruct (lerp_rows_ordered b1 b2 (h - 1) y y')
    as (t0 & t0' & b & b' & Ht0 & Ht0' & Hb & Hb' & ? & ?); [lia..|].
  rewrite Ht in Ht0. rewrite Ht' in Ht0'.
  injection Ht0 as <-. injection Ht0' as <-.
  exists (r, g, b), (r', g', b'). unfold gradient_color.
  replace (1 <? h) with true by (symmetry; apply Z.ltb_lt; lia).
  rewrite Ht, Ht'. cbn [mbind res_bind]. unfold _lerp_rgb.
  rewrite Hr, Hg, Hb, Hr', Hg', Hb'. cbn [mbind res_bind fst snd].
  repeat split; done.
Qed.

(** A pixel of an image made of constant rows. *)
Lemma pixel_rows {P : Type} (w h x y : Z) (f : Z → P) (c : P) :
  pixel (Image w h (map (λ y, replicate (Z.to_nat w) (f y)) (seqZ 0 h))) x y
  = Some c →
  0 ≤ y < h ∧ c = f y.
Proof.
  unfold pixel. cbn [rows]. intros Hp.
  destruct ((0 <=? x) && (0 <=? y)) eqn:Hxy; [|done].
  apply andb_true_iff in Hxy as [Hx Hy%Z.leb_le].
  destruct (map _ (seqZ 0 h) !! Z.to_nat y) as [row|] eqn:Hrow; [|done].
  cbn [mbind option_bind] in Hp.
  change (map ?g ?l) with (g <$> l) in Hrow.
  rewrite list_lookup_fmap in Hrow.
  destruct (seqZ 0 h !! Z.to_nat y) as [y'|] eqn:Hy'; [|done].
  apply lookup_seqZ in Hy' as [-> Hlt].
  cbn [fmap option_fmap option_map] in Hrow. injection Hrow as <-.
  apply lookup_replicate in Hp as [-> _].
  split; [lia|]. f_equal. lia.
Qed.

(** X8: for a height up to 2^31, every channel of the gradient moves in one
    direction only from the top row to the bottom row: it never decreases
    where [c2] has the larger value and never increases where [c1] has. *)
Theorem make_gradient_monotone w h c1 c2 :
  0 ≤ w → 1 < h ≤ 2 ^ 31 → color_ok c1 → color_ok c2 →
  ∃ img, _make_gradient w h c1 c2 = Ok img ∧
    ∀ x x' y y' r g b r' g' b',
      y ≤ y' →
      pixel img x y = Some (r, g, b) → pixel img x' y' = Some (r', g', b') →
      (c1.1.1 ≤ c2.1.1 → r ≤ r') ∧ (c2.1.1 ≤ c1.1.1 → r' ≤ r) ∧
      (c1.1.2 ≤ c2.1.2 → g ≤ g') ∧ (c2.1.2 ≤ c1.1.2 → g' ≤ g) ∧
      (c1.2 ≤ c2.2 → b ≤ b') ∧ (c2.2 ≤ c1.2 → b' ≤ b).
Proof.
  intros Hw Hh H1 H2.
  set (f := λ y, match gradient_color c1 c2 h y with Ok c => c | _ => c1 end).
  assert (Hf : ∀ y, 0 ≤ y < h → gradient_color c1 c2 h y = Ok (f y)).
  { intros y Hy.
    destruct (gradient_color_ok c1 c2 h y ltac:(lia) Hy H1 H2)
      as (t & col & _ & _ & _ & Hg & _).
    unfold f. rewrite Hg. done. }
  eexists. split; [apply (make_gradient_rows w h c1 c2 f); [lia|lia|exact Hf]|].
  intros x x' y y' r g b r' g' b' Hle Hp Hp'.
  apply pixel_rows in Hp as [Hy Ec]. apply pixel_rows in Hp' as [Hy' Ec'].
  destruct (Z.eq_dec y y') as [<-|Hne].
  { rewrite <- Ec in Ec'. injection Ec' as -> -> ->. repeat split; lia. }
  destruct (gradient_rows_ordered c1 c2 h y y' H1 H2 Hh)
    as (col & col' & Hc & Hc' & Hord); [lia..|].
  rewrite (Hf y Hy) in Hc. rewrite (Hf y' Hy') in Hc'.
  injection Hc as <-. injection Hc' as <-.
  rewrite <- Ec, <- Ec' in Hord. exact Hord.
Qed.

(** ** Where the shapes are drawn *)

Section Geometry.
Context {G : Type} {RG : Random G} {IM : Imaging}.

Lemma shapes_line_args_on_canvas w h accent (g : G) :
  0 ≤ w < 2 ^ 52 → 0 ≤ h < 2 ^ 52 →
  ∃ xy col width,
    shapes_line_args w h accent g = Ok (xy, col, width, Nat.iter 6 rng_next g) ∧
    on_canvas w h xy.
Proof.
  intros Hw Hh. unfold shapes_line_args.
  destruct (uniform_int 0 w g) as (x1 & -> & B1); [lia..|]. cbn [mbind res_bind].
  destruct (uniform_int 0 h (rng_next g)) as (y1 & -> & B2); [lia..|].
  cbn [mbind res_bind].
  destruct (uniform_int 0 w (rng_next (rng_next g))) as (x2 & -> & B3); [lia..|].
  cbn [mbind res_bind].
  destruct (uniform_int 0 h (rng_next (rng_next (rng_next g))))
    as (y2 & -> & B4); [lia..|].
  cbn [mbind res_bind].
  destruct (int_uniform 2 6 (rng_next (rng_next (rng_next (rng_next g)))))
    as (u & width & Hu & Hi & Hwd); [lia..|].
  rewrite Hu. cbn [mbind res_bind]. rewrite Hi. cbn [mbind res_bind].
  destruct (int_uniform 10 26
              (rng_next (rng_next (rng_next (rng_next (rng_next g))))))
    as (u' & alpha & Hu' & Hi' & Ha); [lia..|].
  rewrite Hu'. cbn [mbind res_bind]. rewrite Hi'. cbn [mbind res_bind].
  destruct accent as [[a0 a1] a2].
  do 3 eexists. split; [reflexivity|].
  exists x1, y1, x2, y2. done.
Qed.

Lemma shapes_circle_args_box w h accent (g : G) :
  0 ≤ w < 2 ^ 53 → 0 ≤ h < 2 ^ 53 →
  ∃ xy fill,
    shapes_circle_args w h accent g = Ok (xy, fill, Nat.iter 5 rng_next g) ∧
    circle_box xy.
Proof.
  intros Hw Hh. unfold shapes_circle_args.
  rewrite uniform_float. cbn [mbind res_bind].
  destruct (num_mul_size (fadd (literal (-1) 10)
              (fmul (fsub (literal 11 10) (literal (-1) 10)) (rng_random g).1)) w Hw)
    as (x & ->).
  cbn [mbind res_bind]. rewrite uniform_float. cbn [mbind res_bind].
  destruct (num_mul_size (fadd (literal (-1) 10)
              (fmul (fsub (literal 11 10) (literal (-1) 10))
                 (rng_random (rng_next g)).1)) h Hh)
    as (y & ->).
  cbn [mbind res_bind].
  destruct (uniform_int 80 220 (rng_next (rng_next g))) as (r & -> & Br); [lia..|].
  cbn [mbind res_bind].
  set (g3 := rng_next (rng_next (rng_next g))).
  destruct (rng_random g3) as [p g4] eqn:Hp.
  assert (g4 = rng_next g3) as -> by (unfold rng_next; rewrite Hp; done).
  destruct (int_uniform 18 55 (rng_next g3)) as (u & alpha & Hu & Ha & Hr); [lia..|].
  destruct accent as [[a0 a1] a2].
  destruct (flt p (literal 6 10));
    rewrite Hu; cbn [mbind res_bind]; rewrite Ha; py_eval;
    do 2 eexists; (split; [reflexivity|]); exists x, y, r; done.
Qed.

(** X10: every one of the 16 segments [_add_shapes] draws starts and ends on
    the canvas: the coordinates of both end points lie in [0, w] and
    [0, h]. *)
Theorem add_shapes_lines_on_canvas (img : image rgb) seed accent w h :
  has_size img w h → 0 ≤ w < 2 ^ 31 → 0 ≤ h < 2 ^ 31 →
  ∃ circles lines layer out,
    Image_new (w, h) (0, 0, 0, 0) = Ok layer ∧
    Image_alpha_composite (convert_RGBA img)
      (GaussianBlur_RGBA (I 14)
         (foldl draw_line (foldl draw_circle layer circles) lines))
    = Ok out ∧
    _add_shapes img seed accent = Ok (convert_RGB out) ∧
    length lines = 16%nat ∧
    Forall (λ l : box * rgba * Z, on_canvas w h l.1.1) lines.
Proof.
  intros Hs Hw Hh.
  assert (2 ^ 31 < 2 ^ 52) as Hp by (vm_compute; done).
  destruct (shapes_samples w h accent (Random_new seed) Hw Hh)
    as (circles & lines & Hc & Hl & _).
  destruct (sample_many_ok (shapes_line_args w h accent) 6
              (λ l : box * rgba * Z, on_canvas w h l.1.1))
    with (n := 16%nat) (g := Nat.iter 110 rng_next (Random_new seed))
    as (lines' & Hl' & Ll & Fl).
  { intros g.
    destruct (shapes_line_args_on_canvas w h accent g) as (xy & col & wd & E & ?);
      [lia..|].
    exists (xy, col, wd). done. }
  rewrite Hl in Hl'. injection Hl' as <-.
  destruct (add_shapes_composite img seed accent w h circles lines _ _ Hs
              ltac:(lia) ltac:(lia) Hc Hl) as (layer & out & En & Ec & E & _).
  exists circles, lines, layer, out. done.
Qed.

(** X11: every one of the 22 circles has a radius between 80 and 220 pixels,
    whatever the size of the image: its bounding box is
    [(x - r, y - r, x + r, y + r)] for such an [r]. *)
Theorem add_shapes_circle_radius (img : image rgb) seed accent w h :
  has_size img w h → 0 ≤ w < 2 ^ 31 → 0 ≤ h < 2 ^ 31 →
  ∃ circles lines layer out,
    Image_new (w, h) (0, 0, 0, 0) = Ok layer ∧
    Image_alpha_composite (convert_RGBA img)
      (GaussianBlur_RGBA (I 14)
         (foldl draw_line (foldl draw_circle layer circles) lines))
    = Ok out ∧
    _add_shapes img seed accent = Ok (convert_RGB out) ∧
    length circles = 22%nat ∧
    Forall (λ c : box * rgba, circle_box c.1) circles.
Proof.
  intros Hs Hw Hh.
  assert (2 ^ 31 < 2 ^ 53) as Hp by (vm_compute; done).
  destruct (shapes_samples w h accent (Random_new seed) Hw Hh)
    as (circles & lines & Hc & Hl & _).
  destruct (sample_many_ok (shapes_circle_args w h accent) 5
              (λ c : box * rgba, circle_box c.1))
    with (n := 22%nat) (g := Random_new seed)
    as (circles' & Hc' & Lc & Fc).
  { intros g.
    destruct (shapes_circle_args_box w h accent g) as (xy & fill & E & ?);
      [lia..|].
    exists (xy, fill). done. }
  rewrite Hc in Hc'. injection Hc' as <-.
  destruct (add_shapes_composite img seed accent w h circles lines _ _ Hs
              ltac:(lia) ltac:(lia) Hc Hl) as (layer & out & En & Ec & E & _).
  exists circles, lines, layer, out. done.
Qed.

End Geometry.

(** ** How much grain is added *)

Section GrainLevel.
Context {G : Type} {RG : Random G} {IM : Imaging}.

Lemma grain_table_small v :
  0 ≤ default 0 (map (λ v, v * 18 / 100) (range 256) !! Z.to_nat v) ≤ 45.
Proof.
  change (map ?f ?l) with (f <$> l). rewrite list_lookup_fmap. unfold range.
  destruct (seqZ 0 256 !! Z.to_nat v) as [u|] eqn:Hu; cbn; [|lia].
  apply lookup_seqZ in Hu as [-> Hlt].
  split; [apply Z.div_pos; lia|].
  apply Z.lt_succ_r, Z.div_lt_upper_bound; lia.
Qed.

(** X12: the grey level that [_add_grain] blends into a pixel is
    [int(v * 0.18)] for a byte [v], hence at most 45, whatever the blur
    returns; the three channels receive the same level. *)
Theorem add_grain_level (img : image rgb) seed w h :
  has_size img w h → 0 ≤ w → 0 ≤ h →
  ∃ out, _add_grain img seed = Ok out ∧
    ∀ x y r g b, pixel img x y = Some (r, g, b) →
      ∃ n, 0 ≤ n ≤ 45 ∧
        pixel out x y
        = Some (blend_channel (literal 18 100) r n,
                blend_channel (literal 18 100) g n,
                blend_channel (literal 18 100) b n).
Proof.
  intros Hs Hw Hh.
  destruct (add_grain_composite img seed w h Hs Hw Hh)
    as (scaled & out & _ & Hscaled & Hsc & E & _ & Hpix).
  exists out. split; [exact E|].
  intros x y r g b Hp.
  destruct (pixel_outside _ _ _ _ _ _ Hs Hp) as [Hx Hy].
  destruct (pixel_inside scaled w h x y Hsc Hx Hy) as [n Hn].
  exists n. split; [|exact (Hpix x y r g b n Hp Hn)].
  rewrite Hscaled, pixel_map_pixels in Hn.
  destruct (pixel (GaussianBlur_L _ _) x y) as [v|]; [|done].
  cbn [fmap option_fmap option_map] in Hn. injection Hn as <-.
  apply grain_table_small.
Qed.

End GrainLevel.

(** ** The vignette at other strengths *)

Section Strength.
Context {IM : Imaging} {LM : Libm}.

Lemma vignette_alpha_byte t strength :
  between t 0 1 0 → between strength 0 1 0 →
  ∃ alpha, vignette_alpha t strength = Ok alpha ∧ 0 ≤ alpha ≤ 255.
Proof.
  intros Bt Bs. unfold vignette_alpha, py_pow.
  change (of_int 2) with (Ok (literal 2 1)). cbn [mbind res_bind].
  pose proof (libm_pow_unit t Bt) as Bp.
  rewrite (between_finite _ _ _ _ Bp). py_eval.
  change (of_int 255) with (Ok (literal 255 1)). py_eval.
  assert (between (literal 255 1) 255 255 0) as B255
    by (vm_compute; repeat split; discriminate).
  pose proof (fmul_between _ _ _ _ _ _ _ _ B255 Bp ltac:(lia) ltac:(lia)
                ltac:(lia) ltac:(lia)) as Ba.
  pose proof (fmul_between _ _ _ _ _ _ _ _ Ba Bs ltac:(lia) ltac:(lia)
                ltac:(lia) ltac:(lia)) as Bb.
  cbn [Z.add Z.mul Pos.mul] in Bb.
  destruct (trunc_between _ _ _ _ 0 255 Bb ltac:(lia) ltac:(simpl; lia)
              ltac:(simpl; lia)) as (z & Hz & Hr).
  exists z. done.
Qed.

(** X13: for every strength between 0 and 1 the outline value of each of the
    40 rings is a byte, so that the mode "L" mask holds it unchanged; the
    mask is at most 255 everywhere and [_add_vignette] returns an image of
    the size of its input. *)
Theorem add_vignette_strength (img : image rgb) strength w h :
  has_size img w h → 0 ≤ w < 2 ^ 31 → 0 ≤ h < 2 ^ 31 →
  between strength 0 1 0 →
  (∀ i, 0 ≤ i < 40 →
     ∃ t alpha, true_div i (40 - 1) = Ok t ∧
       vignette_alpha t strength = Ok alpha ∧ 0 ≤ alpha ≤ 255) ∧
  ∃ mask out,
    vignette_mask img strength = Ok mask ∧ has_size mask w h ∧
    (∀ x y m, pixel mask x y = Some m → m ≤ 255) ∧
    _add_vignette img strength = Ok out ∧ has_size out w h.
Proof.
  intros Hs Hw Hh Bs. split.
  { intros i Hi. destruct (vignette_factor i Hi) as (t & Ht & Bt).
    destruct (vignette_alpha_byte t strength Bt Bs) as (alpha & Ha & Hr).
    exists t, alpha. done. }
  assert (∃ mask, vignette_mask img strength = Ok mask ∧ has_size mask w h ∧
            ∀ x y m, pixel mask x y = Some m → m ≤ 255)
    as (mask & Hmask & Hms & Hmax).
  { unfold vignette_mask, size.
    destruct Hs as (Ew & Eh & Hs). rewrite Ew, Eh.
    rewrite Image_new_ok by lia. cbn [mbind res_bind].
    destruct (true_div_bounded w 2) as (cx & -> & _); [lia|lia|].
    destruct (true_div_bounded h 2) as (cy & -> & _); [lia|lia|].
    cbn [mbind res_bind].
    destruct (for_each_inv
                (λ m : image Z, has_size m w h ∧
                   ∀ x y v, pixel m x y = Some v → v ≤ 255)
                (range 40)
                (vignette_ring cx cy (libm_hypot cx cy) strength 40))
      with (s := Image w h (replicate (Z.to_nat h) (replicate (Z.to_nat w) 0)))
      as (mask & -> & Hm & Hmax).
    - intros i m Hi [Hm Hmax]. apply elem_of_seqZ in Hi.
      unfold vignette_ring.
      destruct (vignette_factor i ltac:(lia)) as (t & Ht & Bt).
      change (1 <? 40) with true. cbv iota. rewrite Ht. cbn [mbind res_bind].
      destruct (vignette_alpha_byte t strength Bt Bs) as (alpha & -> & Ha).
      cbn [mbind res_bind]. eexists. split; [done|]. split.
      + apply ellipse_L_size. done.
      + intros x y v Hv. apply ellipse_L_ink in Hv as [->|Hv]; [lia|].
        eapply Hmax. done.
    - split; [apply has_size_replicate|].
      intros x y v Hv. apply pixel_replicate in Hv. lia.
    - cbn [mbind res_bind]. eexists. split; [done|]. split.
      + apply blur_L_size. done.
      + apply blur_L_max. done. }
  destruct (add_vignette_composite img strength mask w h Hs ltac:(lia)
              ltac:(lia) Hmask Hms) as (out & Ho & So & _).
  exists mask, out. done.
Qed.

End Strength.

(** ** The further properties on concrete inputs *)






Lemma seed_from_slug_encodable_witness :
  Forall (λ c, 0 ≤ c ≤ 1114111) [104; 55296] ∧
  ¬ valid_text [104; 55296] ∧
  _seed_from_slug [104; 55296] = Raise UnicodeEncodeError.
Proof.
  assert (Forall (λ c, 0 ≤ c ≤ 1114111) [104; 55296]) as Hr
    by (repeat (apply List.Forall_cons; [lia|]); apply List.Forall_nil).
  assert (¬ valid_text [104; 55296]) as Hn.
  { intros Hv. apply Forall_inv_tail, Forall_inv in Hv. lia. }
  split; [exact Hr|]. split; [exact Hn|].
  exact (proj1 (proj2 (seed_from_slug_encodable (G := MT.state) _ Hr) Hn)).
Defined.

Lemma pick_palette_draws_witness :
  (6, 10, 25) ≠ (2, 132, 199) ∧ (2 ≤ 2)%nat ∧
  palette_draws (3 + 2) (Random_new (G := MT.state) 58)
  = (2, 132, 199) :: replicate 2 (2, 132, 199) ++ [(6, 10, 25); (2, 132, 199)] ∧
  _pick_palette (G := MT.state) 2 58
  = Ok ((2, 132, 199), (6, 10, 25), (2, 132, 199)).
Proof.
  assert ((6, 10, 25) ≠ (2, 132, 199)) as Hne by discriminate.
  assert (palette_draws (3 + 2) (Random_new (G := MT.state) 58)
          = (2, 132, 199) :: replicate 2 (2, 132, 199)
              ++ [(6, 10, 25); (2, 132, 199)]) as Hd
    by (vm_compute; reflexivity).
  split; [exact Hne|]. split; [lia|]. split; [exact Hd|].
  exact (pick_palette_draws (G := MT.state) 2 2 58 _ _ _ Hne (le_n 2) Hd).
Defined.

Lemma make_gradient_within_witness :
  0 ≤ 3 ∧ 0 ≤ 4 ∧ color_ok (6, 10, 25) ∧ color_ok (245, 158, 11) ∧
  ∃ img, _make_gradient 3 4 (6, 10, 25) (245, 158, 11) = Ok img ∧
    ∀ x y r g b, pixel img x y = Some (r, g, b) →
      6 ≤ r ≤ 245 ∧ 10 ≤ g ≤ 158 ∧ 11 ≤ b ≤ 25.
Proof.
  assert (color_ok (6, 10, 25)) as H1 by (cbn; lia).
  assert (color_ok (245, 158, 11)) as H2 by (cbn; lia).
  split; [lia|]. split; [lia|]. split; [exact H1|]. split; [exact H2|].
  exact (make_gradient_within 3 4 (6, 10, 25) (245, 158, 11)
           ltac:(lia) ltac:(lia) H1 H2).
Defined.

Lemma lerp_not_finite_witness :
  0 ≤ 6 < 2 ^ 53 ∧ 0 ≤ 245 < 2 ^ 53 ∧
  _lerp 6 245 S754_nan = Raise ValueError.
Proof.
  assert (0 ≤ 6 < 2 ^ 53) as Ha by done.
  assert (0 ≤ 245 < 2 ^ 53) as Hb by done.
  split; [exact Ha|]. split; [exact Hb|].
  exact (lerp_not_finite 6 245 S754_nan Ha Hb (or_introl eq_refl)).
Defined.

Lemma make_gradient_monotone_witness :
  0 ≤ 3 ∧ 1 < 4 ≤ 2 ^ 31 ∧ color_ok (6, 10, 25) ∧ color_ok (245, 158, 11) ∧
  ∃ img, _make_gradient 3 4 (6, 10, 25) (245, 158, 11) = Ok img ∧
    ∀ x x' y y' r g b r' g' b',
      y ≤ y' →
      pixel img x y = Some (r, g, b) → pixel img x' y' = Some (r', g', b') →
      r ≤ r' ∧ g ≤ g' ∧ b' ≤ b.
Proof.
  assert (color_ok (6, 10, 25)) as H1 by (cbn; lia).
  assert (color_ok (245, 158, 11)) as H2 by (cbn; lia).
  assert (1 < 4 ≤ 2 ^ 31) as Hh by done.
  split; [lia|]. split; [exact Hh|]. split; [exact H1|]. split; [exact H2|].
  destruct (make_gradient_monotone 3 4 (6, 10, 25) (245, 158, 11)
              ltac:(lia) Hh H1 H2) as (img & E & Hm).
  exists img. split; [exact E|].
  intros x x' y y' r g b r' g' b' Hle Hp Hp'.
  destruct (Hm x x' y y' r g b r' g' b' Hle Hp Hp')
    as (Hr & _ & Hg & _ & _ & Hb).
  split; [apply Hr; done|]. split; [apply Hg; done|apply Hb; done].
Defined.

Lemma add_shapes_lines_on_canvas_witness :
  has_size example_image 4 3 ∧ 0 ≤ 4 < 2 ^ 31 ∧ 0 ≤ 3 < 2 ^ 31 ∧
  ∃ lines out,
    _add_shapes (G := MT.state) example_image 546648353 (168, 85, 247) = Ok out ∧
    length lines = 16%nat ∧
    Forall (λ l : box * rgba * Z, on_canvas 4 3 l.1.1) lines.
Proof.
  assert (0 ≤ 4 < 2 ^ 31) as Hw by done.
  assert (0 ≤ 3 < 2 ^ 31) as Hh by done.
  split; [exact example_image_size|]. split; [exact Hw|]. split; [exact Hh|].
  destruct (add_shapes_lines_on_canvas (G := MT.state) example_image 546648353
              (168, 85, 247) 4 3 example_image_size Hw Hh)
    as (circles & lines & layer & out & _ & _ & E & Ll & Fl).
  exists lines, (convert_RGB out). auto.
Defined.

Lemma add_shapes_circle_radius_witness :
  has_size example_image 4 3 ∧ 0 ≤ 4 < 2 ^ 31 ∧ 0 ≤ 3 < 2 ^ 31 ∧
  ∃ circles out,
    _add_shapes (G := MT.state) example_image 546648353 (168, 85, 247) = Ok out ∧
    length circles = 22%nat ∧
    Forall (λ c : box * rgba, circle_box c.1) circles.
Proof.
  assert (0 ≤ 4 < 2 ^ 31) as Hw by done.
  assert (0 ≤ 3 < 2 ^ 31) as Hh by done.
  split; [exact example_image_size|]. split; [exact Hw|]. split; [exact Hh|].
  destruct (add_shapes_circle_radius (G := MT.state) example_image 546648353
              (168, 85, 247) 4 3 example_image_size Hw Hh)
    as (circles & lines & layer & out & _ & _ & E & Lc & Fc).
  exists circles, (convert_RGB out). auto.
Defined.

Lemma add_grain_level_witness :
  has_size example_image 4 3 ∧ 0 ≤ 4 ∧ 0 ≤ 3 ∧
  ∃ out, _add_grain (G := MT.state) example_image 546648353 = Ok out ∧
    ∀ x y r g b, pixel example_image x y = Some (r, g, b) →
      ∃ n, 0 ≤ n ≤ 45 ∧
        pixel out x y
        = Some (blend_channel (literal 18 100) r n,
                blend_channel (literal 18 100) g n,
                blend_channel (literal 18 100) b n).
Proof.
  split; [exact example_image_size|]. split; [lia|]. split; [lia|].
  exact (add_grain_level (G := MT.state) example_image 546648353 4 3
           example_image_size ltac:(lia) ltac:(lia)).
Defined.

Lemma add_vignette_strength_witness :
  has_size example_image 4 3 ∧ 0 ≤ 4 < 2 ^ 31 ∧ 0 ≤ 3 < 2 ^ 31 ∧
  between (literal 1 4) 0 1 0 ∧
  ∃ mask out,
    vignette_mask (IM := Simple_Imaging) (LM := Simple_Libm)
      example_image (literal 1 4) = Ok mask ∧
    (∀ x y m, pixel mask x y = Some m → m ≤ 255) ∧
    _add_vignette (IM := Simple_Imaging) (LM := Simple_Libm)
      example_image (literal 1 4) = Ok out ∧
    has_size out 4 3.
Proof.
  assert (0 ≤ 4 < 2 ^ 31) as Hw by done.
  assert (0 ≤ 3 < 2 ^ 31) as Hh by done.
  assert (between (literal 1 4) 0 1 0) as Bs
    by (vm_compute; repeat split; discriminate).
  split; [exact example_image_size|]. split; [exact Hw|]. split; [exact Hh|].
  split; [exact Bs|].
  destruct (add_vignette_strength (IM := Simple_Imaging) (LM := Simple_Libm)
              example_image (literal 1 4) 4 3 example_image_size Hw Hh Bs)
    as (_ & mask & out & Em & _ & Hm & Eo & So).
  exists mask, out. auto.
Defined.
